(** * Story Maker canvas editor: a shallow embedding of the scene-composition
    and generation-orchestration logic of [App.tsx] and the canvas component,
    with the properties of its specification.

    Conventions of the embedding:
    - JavaScript numbers are idealised as exact rationals ([Q]); equalities
      between computed coordinates are stated with [==] ([Qeq]).
    - JavaScript strings are [string]s of 8-bit characters; [toLowerCase]
      folds the ASCII letters.
    - React state is threaded explicitly: every handler is a function from
      the application state to the application state.
    - Browser and library services (raster decoding, base64, JSON, the zip
      container, the generation service, the clock) are parameters of the
      sections that use them. *)

From Stdlib Require Import QArith Qminmax Qround Qabs Lqa ZArith Lia String Ascii.
From Stdlib.Strings Require Import Byte.
From stdpp Require Import gmap strings list fin_maps pretty.

#[local] Set Warnings "-clear-no-such-hyp".

(** ** Geometry and the pan/zoom transform *)

Module Geometry.

(** [CanvasTransform] of [types.ts]. *)
Record CanvasTransform := mkTransform {
  t_x : Q;
  t_y : Q;
  t_scale : Q
}.

(** The part of a wheel event [handleWheel] reads. *)
Record WheelEvent := mkWheel {
  deltaY : Q;
  clientX : Q;
  clientY : Q
}.

(** [getBoundingClientRect()] of the canvas element. *)
Record Rect := mkRect {
  r_left : Q;
  r_top : Q
}.

(** [Math.min(Math.max(0.1, v), 5)]. *)
Definition clampScale (v : Q) : Q := Qmin (Qmax 0.1 v) 5.

(** [handleWheel] of the canvas component. *)
Definition handleWheel (transform : CanvasTransform) (e : WheelEvent) (rect : Rect)
  : CanvasTransform :=
  let scaleAmount := (- deltaY e * 0.001)%Q in
  let newScale := clampScale (t_scale transform + scaleAmount) in
  let mouseX := (clientX e - r_left rect)%Q in
  let mouseY := (clientY e - r_top rect)%Q in
  let newX := (mouseX - (mouseX - t_x transform) * (newScale / t_scale transform))%Q in
  let newY := (mouseY - (mouseY - t_y transform) * (newScale / t_scale transform))%Q in
  {| t_x := newX; t_y := newY; t_scale := newScale |}.

(** The screen-to-canvas mapping the component computes inline in
    [handleMouseDown] and [handleMouseMove]:
    [(e.clientX - rect.left - transform.x) / transform.scale], for a screen
    point already taken relative to the canvas element. *)
Definition screenToCanvas (p : Q * Q) (transform : CanvasTransform) : Q * Q :=
  (((fst p - t_x transform) / t_scale transform)%Q,
   ((snd p - t_y transform) / t_scale transform)%Q).

(** [setTransform(prev => ({ ...prev, x: prev.x + dx, y: prev.y + dy }))]
    of [handleMouseMove] while panning. *)
Definition panBy (dx dy : Q) (transform : CanvasTransform) : CanvasTransform :=
  {| t_x := (t_x transform + dx)%Q;
     t_y := (t_y transform + dy)%Q;
     t_scale := t_scale transform |}.

End Geometry.

(** ** Layer order *)

Module Layers.

(** [prev[prev.length - 1]]: [undefined] on the empty array. *)
Definition lastId (prev : list string) : option string := last prev.

(** [handleMoveToFront]: the updater passed to [setLayerOrder]. *)
Definition handleMoveToFront (id : string) (prev : list string) : list string :=
  if decide (lastId prev = Some id) then prev
  else filter (λ item, item ≠ id) prev ++ [id].

End Layers.

(** ** Document model ([types.ts] and the state of [App]) *)

Module Model.
Import Geometry.

Inductive ImageClassification :=
  | original | result | character | background | modelSheet | video.

Inductive AspectRatio := ar_1_1 | ar_3_4 | ar_4_3 | ar_9_16 | ar_16_9.

Inductive Tool := pan | select | text | pen | eraser.

(** [aspectRatio.split(':').map(Number)]. *)
Definition ratioParts (a : AspectRatio) : Q * Q :=
  match a with
  | ar_1_1 => (1, 1)
  | ar_3_4 => (3, 4)
  | ar_4_3 => (4, 3)
  | ar_9_16 => (9, 16)
  | ar_16_9 => (16, 9)
  end%Q.

(** Truthiness of a JavaScript string, and of an optional string field. *)
Definition truthy (s : string) : bool :=
  match s with EmptyString => false | String _ _ => true end.

Definition truthyOpt (o : option string) : bool :=
  match o with Some s => truthy s | None => false end.

Record ImageObject := mkImage {
  img_id : string;
  img_src : string;
  img_x : Q;
  img_y : Q;
  img_width : Q;
  img_height : Q;
  naturalWidth : Q;
  naturalHeight : Q;
  classification : ImageClassification;
  img_name : option string;
  img_prompt : option string;
  targetAspectRatio : option AspectRatio;
  modelSheetSrc : option string;
  poses : option (list (option string));
  videoSrc : option string;
  maskSrc : option string;
  poseIndex : option Q;
  poseSrc : option string
}.

Record TextObject := mkText {
  txt_id : string;
  content : string;
  txt_x : Q;
  txt_y : Q;
  txt_width : Q;
  txt_height : Q;
  fontSize : Q;
  fontFamily : string;
  color : string
}.

Record DrawingCanvasObject := mkCanvas {
  cv_id : string;
  cv_x : Q;
  cv_y : Q;
  cv_width : Q;
  cv_height : Q;
  drawingSrc : option string
}.

(** The project document: what is saved and loaded. *)
Record Document := mkDocument {
  images : list ImageObject;
  textObjects : list TextObject;
  drawingCanvases : list DrawingCanvasObject;
  layerOrder : list string;
  aspectRatio : AspectRatio;
  transform : CanvasTransform;
  projectName : string
}.

(** The three selection sets. *)
Record Selection := mkSelection {
  selectedImageIds : list string;
  selectedTextIds : list string;
  selectedDrawingCanvasIds : list string
}.

(** The remaining state of [App]; [alerts] records the calls of [alert]. *)
Record Ui := mkUi {
  activeTool : Tool;
  isLoading : bool;
  loadingMessage : option string;
  errorMessage : option string;
  detailedError : option string;
  debugImages : list (string * string);
  activeImageUI : option string;
  activeModel : string;
  apiKey : string;
  isApiKeyModalOpen : bool;
  tempApiKeyInput : string;
  alerts : list string
}.

Record AppState := mkApp {
  doc : Document;
  sel : Selection;
  ui : Ui
}.

(** The state of a freshly mounted [App] (before the mount effect centres
    the transform). *)
Definition initialState (key : string) : AppState :=
  {| doc := {| images := []; textObjects := []; drawingCanvases := [];
               layerOrder := [];
               aspectRatio := ar_9_16;
               transform := {| t_x := 0; t_y := 0; t_scale := 0.2 |};
               projectName := "Untitled Story" |};
     sel := {| selectedImageIds := []; selectedTextIds := [];
               selectedDrawingCanvasIds := [] |};
     ui := {| activeTool := pan; isLoading := false; loadingMessage := None;
              errorMessage := None; detailedError := None; debugImages := [];
              activeImageUI := None;
              activeModel := "gemini-2.5-flash-image";
              apiKey := key; isApiKeyModalOpen := false;
              tempApiKeyInput := ""; alerts := [] |} |}.

(** *** State setters, named after the React setters they model.  A setter
    called with an updater function takes the function; one called with a
    value takes the value. *)

Definition updDoc (f : Document -> Document) (s : AppState) : AppState :=
  {| doc := f (doc s); sel := sel s; ui := ui s |}.

Definition updSel (f : Selection -> Selection) (s : AppState) : AppState :=
  {| doc := doc s; sel := f (sel s); ui := ui s |}.

Definition updUi (f : Ui -> Ui) (s : AppState) : AppState :=
  {| doc := doc s; sel := sel s; ui := f (ui s) |}.

Definition setImages (f : list ImageObject -> list ImageObject) : AppState -> AppState :=
  updDoc (λ d, {| images := f (images d); textObjects := textObjects d;
                  drawingCanvases := drawingCanvases d; layerOrder := layerOrder d;
                  aspectRatio := aspectRatio d; transform := transform d;
                  projectName := projectName d |}).

Definition setTextObjects (f : list TextObject -> list TextObject) : AppState -> AppState :=
  updDoc (λ d, {| images := images d; textObjects := f (textObjects d);
                  drawingCanvases := drawingCanvases d; layerOrder := layerOrder d;
                  aspectRatio := aspectRatio d; transform := transform d;
                  projectName := projectName d |}).

Definition setDrawingCanvases (f : list DrawingCanvasObject -> list DrawingCanvasObject)
  : AppState -> AppState :=
  updDoc (λ d, {| images := images d; textObjects := textObjects d;
                  drawingCanvases := f (drawingCanvases d); layerOrder := layerOrder d;
                  aspectRatio := aspectRatio d; transform := transform d;
                  projectName := projectName d |}).

Definition setLayerOrder (f : list string -> list string) : AppState -> AppState :=
  updDoc (λ d, {| images := images d; textObjects := textObjects d;
                  drawingCanvases := drawingCanvases d; layerOrder := f (layerOrder d);
                  aspectRatio := aspectRatio d; transform := transform d;
                  projectName := projectName d |}).

Definition setAspectRatio (a : AspectRatio) : AppState -> AppState :=
  updDoc (λ d, {| images := images d; textObjects := textObjects d;
                  drawingCanvases := drawingCanvases d; layerOrder := layerOrder d;
                  aspectRatio := a; transform := transform d;
                  projectName := projectName d |}).

Definition setTransform (t : CanvasTransform) : AppState -> AppState :=
  updDoc (λ d, {| images := images d; textObjects := textObjects d;
                  drawingCanvases := drawingCanvases d; layerOrder := layerOrder d;
                  aspectRatio := aspectRatio d; transform := t;
                  projectName := projectName d |}).

Definition setProjectName (n : string) : AppState -> AppState :=
  updDoc (λ d, {| images := images d; textObjects := textObjects d;
                  drawingCanvases := drawingCanvases d; layerOrder := layerOrder d;
                  aspectRatio := aspectRatio d; transform := transform d;
                  projectName := n |}).

Definition setSelectedImageIds (f : list string -> list string) : AppState -> AppState :=
  updSel (λ x, {| selectedImageIds := f (selectedImageIds x);
                  selectedTextIds := selectedTextIds x;
                  selectedDrawingCanvasIds := selectedDrawingCanvasIds x |}).

Definition setSelectedTextIds (f : list string -> list string) : AppState -> AppState :=
  updSel (λ x, {| selectedImageIds := selectedImageIds x;
                  selectedTextIds := f (selectedTextIds x);
                  selectedDrawingCanvasIds := selectedDrawingCanvasIds x |}).

Definition setSelectedDrawingCanvasIds (f : list string -> list string)
  : AppState -> AppState :=
  updSel (λ x, {| selectedImageIds := selectedImageIds x;
                  selectedTextIds := selectedTextIds x;
                  selectedDrawingCanvasIds := f (selectedDrawingCanvasIds x) |}).

Definition setActiveTool (v : Tool) : AppState -> AppState :=
  updUi (λ u, {| activeTool := v; isLoading := isLoading u;
                 loadingMessage := loadingMessage u; errorMessage := errorMessage u;
                 detailedError := detailedError u; debugImages := debugImages u;
                 activeImageUI := activeImageUI u; activeModel := activeModel u;
                 apiKey := apiKey u; isApiKeyModalOpen := isApiKeyModalOpen u;
                 tempApiKeyInput := tempApiKeyInput u; alerts := alerts u |}).

Definition setIsLoading (v : bool) : AppState -> AppState :=
  updUi (λ u, {| activeTool := activeTool u; isLoading := v;
                 loadingMessage := loadingMessage u; errorMessage := errorMessage u;
                 detailedError := detailedError u; debugImages := debugImages u;
                 activeImageUI := activeImageUI u; activeModel := activeModel u;
                 apiKey := apiKey u; isApiKeyModalOpen := isApiKeyModalOpen u;
                 tempApiKeyInput := tempApiKeyInput u; alerts := alerts u |}).

Definition setLoadingMessage (v : option string) : AppState -> AppState :=
  updUi (λ u, {| activeTool := activeTool u; isLoading := isLoading u;
                 loadingMessage := v; errorMessage := errorMessage u;
                 detailedError := detailedError u; debugImages := debugImages u;
                 activeImageUI := activeImageUI u; activeModel := activeModel u;
                 apiKey := apiKey u; isApiKeyModalOpen := isApiKeyModalOpen u;
                 tempApiKeyInput := tempApiKeyInput u; alerts := alerts u |}).

Definition setErrorMessage (v : option string) : AppState -> AppState :=
  updUi (λ u, {| activeTool := activeTool u; isLoading := isLoading u;
                 loadingMessage := loadingMessage u; errorMessage := v;
                 detailedError := detailedError u; debugImages := debugImages u;
                 activeImageUI := activeImageUI u; activeModel := activeModel u;
                 apiKey := apiKey u; isApiKeyModalOpen := isApiKeyModalOpen u;
                 tempApiKeyInput := tempApiKeyInput u; alerts := alerts u |}).

Definition setDetailedError (v : option string) : AppState -> AppState :=
  updUi (λ u, {| activeTool := activeTool u; isLoading := isLoading u;
                 loadingMessage := loadingMessage u; errorMessage := errorMessage u;
                 detailedError := v; debugImages := debugImages u;
                 activeImageUI := activeImageUI u; activeModel := activeModel u;
                 apiKey := apiKey u; isApiKeyModalOpen := isApiKeyModalOpen u;
                 tempApiKeyInput := tempApiKeyInput u; alerts := alerts u |}).

Definition setDebugImages (f : list (string * string) -> list (string * string)) : AppState -> AppState :=
  updUi (λ u, {| activeTool := activeTool u; isLoading := isLoading u;
                 loadingMessage := loadingMessage u; errorMessage := errorMessage u;
                 detailedError := detailedError u; debugImages := f (debugImages u);
                 activeImageUI := activeImageUI u; activeModel := activeModel u;
                 apiKey := apiKey u; isApiKeyModalOpen := isApiKeyModalOpen u;
                 tempApiKeyInput := tempApiKeyInput u; alerts := alerts u |}).

Definition setActiveImageUI (v : option string) : AppState -> AppState :=
  updUi (λ u, {| activeTool := activeTool u; isLoading := isLoading u;
                 loadingMessage := loadingMessage u; errorMessage := errorMessage u;
                 detailedError := detailedError u; debugImages := debugImages u;
                 activeImageUI := v; activeModel := activeModel u; apiKey := apiKey u;
                 isApiKeyModalOpen := isApiKeyModalOpen u;
                 tempApiKeyInput := tempApiKeyInput u; alerts := alerts u |}).

Definition setActiveModel (v : string) : AppState -> AppState :=
  updUi (λ u, {| activeTool := activeTool u; isLoading := isLoading u;
                 loadingMessage := loadingMessage u; errorMessage := errorMessage u;
                 detailedError := detailedError u; debugImages := debugImages u;
                 activeImageUI := activeImageUI u; activeModel := v;
                 apiKey := apiKey u; isApiKeyModalOpen := isApiKeyModalOpen u;
                 tempApiKeyInput := tempApiKeyInput u; alerts := alerts u |}).

Definition setIsApiKeyModalOpen (v : bool) : AppState -> AppState :=
  updUi (λ u, {| activeTool := activeTool u; isLoading := isLoading u;
                 loadingMessage := loadingMessage u; errorMessage := errorMessage u;
                 detailedError := detailedError u; debugImages := debugImages u;
                 activeImageUI := activeImageUI u; activeModel := activeModel u;
                 apiKey := apiKey u; isApiKeyModalOpen := v;
                 tempApiKeyInput := tempApiKeyInput u; alerts := alerts u |}).

Definition setTempApiKeyInput (v : string) : AppState -> AppState :=
  updUi (λ u, {| activeTool := activeTool u; isLoading := isLoading u;
                 loadingMessage := loadingMessage u; errorMessage := errorMessage u;
                 detailedError := detailedError u; debugImages := debugImages u;
                 activeImageUI := activeImageUI u; activeModel := activeModel u;
                 apiKey := apiKey u; isApiKeyModalOpen := isApiKeyModalOpen u;
                 tempApiKeyInput := v; alerts := alerts u |}).

(** [alert(msg)]: the notice is appended to the log of notices shown. *)
Definition alert (msg : string) : AppState -> AppState :=
  updUi (λ u, {| activeTool := activeTool u; isLoading := isLoading u;
                 loadingMessage := loadingMessage u; errorMessage := errorMessage u;
                 detailedError := detailedError u; debugImages := debugImages u;
                 activeImageUI := activeImageUI u; activeModel := activeModel u;
                 apiKey := apiKey u; isApiKeyModalOpen := isApiKeyModalOpen u;
                 tempApiKeyInput := tempApiKeyInput u; alerts := alerts u ++ [msg] |}).

End Model.

(** ** Object life cycle, selection and layering handlers *)

Module Interaction.
Import Geometry Layers Model.

Notation "s |> f" := (f s) (at level 45, left associativity, only parsing).

(** What the handlers observe of the browser: the intrinsic size an image
    source decodes to ([None]: the [onload] callback never fires) and the
    size of the canvas element. *)
Record Browser := mkBrowser {
  decodeSize : string -> option (Q * Q);
  clientWidth : Q;
  clientHeight : Q
}.

(** The optional third argument of [addImageToCanvas]. *)
Record AddOptions := mkOptions {
  o_prompt : option string;
  o_targetAspectRatio : option AspectRatio;
  o_x : option Q;
  o_y : option Q;
  o_width : option Q;
  o_height : option Q;
  o_id : option string
}.

Definition noOptions : AddOptions :=
  {| o_prompt := None; o_targetAspectRatio := None; o_x := None; o_y := None;
     o_width := None; o_height := None; o_id := None |}.

(** A call of [addImageToCanvas] whose image has not loaded yet: the
    arguments and the transform the callback closed over. *)
Record PendingLoad := mkPending {
  pl_src : string;
  pl_classification : ImageClassification;
  pl_options : AddOptions;
  pl_transform : CanvasTransform
}.

(** [{ ...img, maskSrc: m }]. *)
Definition withMaskSrc (m : option string) (img : ImageObject) : ImageObject :=
  {| img_id := img_id img; img_src := img_src img; img_x := img_x img;
     img_y := img_y img; img_width := img_width img; img_height := img_height img;
     naturalWidth := naturalWidth img; naturalHeight := naturalHeight img;
     classification := classification img; img_name := img_name img;
     img_prompt := img_prompt img; targetAspectRatio := targetAspectRatio img;
     modelSheetSrc := modelSheetSrc img; poses := poses img;
     videoSrc := videoSrc img; maskSrc := m;
     poseIndex := poseIndex img; poseSrc := poseSrc img |}.

Section Handlers.
Variable browser : Browser.

(** The synchronous part of [addImageToCanvas]: it only starts the load. *)
Definition addImageToCanvas (closure : AppState) (imgSrc : string)
    (cls : ImageClassification) (options : AddOptions) : PendingLoad :=
  {| pl_src := imgSrc; pl_classification := cls; pl_options := options;
     pl_transform := transform (doc closure) |}.

(** The [img.onload] callback of [addImageToCanvas]; [now] is the text of
    [Date.now()] when it runs. *)
Definition onImageLoad (now : string) (p : PendingLoad) (s : AppState) : AppState :=
  match decodeSize browser (pl_src p) with
  | None => s
  | Some (nw, nh) =>
    let options := pl_options p in
    let t := pl_transform p in
    let w := default nw (o_width options) in
    let h := default nh (o_height options) in
    let newImage :=
      {| img_id := if truthyOpt (o_id options) then default "" (o_id options)
                   else "img_" +:+ now;
         img_src := pl_src p;
         img_x := default ((- t_x t + clientWidth browser / 2) / t_scale t - w / 2)%Q
                          (o_x options);
         img_y := default ((- t_y t + clientHeight browser / 2) / t_scale t - h / 2)%Q
                          (o_y options);
         img_width := w;
         img_height := h;
         naturalWidth := nw;
         naturalHeight := nh;
         classification := pl_classification p;
         img_name := None;
         img_prompt := if truthyOpt (o_prompt options) then o_prompt options else None;
         targetAspectRatio := o_targetAspectRatio options;
         modelSheetSrc := None; poses := None; videoSrc := None; maskSrc := None;
         poseIndex := None; poseSrc := None |} in
    s |> setImages (λ prev, prev ++ [newImage])
      |> setLayerOrder (λ prev, prev ++ [img_id newImage])
      |> setSelectedImageIds (const [img_id newImage])
      |> setSelectedTextIds (const [])
      |> setSelectedDrawingCanvasIds (const [])
      |> setActiveTool select
  end.

(** [addTextToCanvas]. *)
Definition addTextToCanvas (now : string) (x y : Q) (s : AppState) : AppState :=
  let newText :=
    {| txt_id := "txt_" +:+ now;
       content := "텍스트를 입력하세요";
       txt_x := x; txt_y := y;
       txt_width := 300; txt_height := 60;
       fontSize := 48; fontFamily := "Arial"; color := "#000000" |} in
  s |> setTextObjects (λ prev, prev ++ [newText])
    |> setLayerOrder (λ prev, prev ++ [txt_id newText])
    |> setSelectedTextIds (const [txt_id newText])
    |> setSelectedImageIds (const [])
    |> setSelectedDrawingCanvasIds (const []).

(** [Math.round]. *)
Definition jsRound (v : Q) : Q := inject_Z (Qfloor (v + 0.5)).

(** [addDrawingCanvas]. *)
Definition addDrawingCanvas (now : string) (s : AppState) : AppState :=
  let '(w, h) := ratioParts (aspectRatio (doc s)) in
  let ratio := (w / h)%Q in
  let BASE_DIMENSION := 1024%Q in
  let '(canvasWidth, canvasHeight) :=
    if Qle_bool 1 ratio
    then (jsRound (BASE_DIMENSION * ratio), BASE_DIMENSION)
    else (BASE_DIMENSION, jsRound (BASE_DIMENSION / ratio)) in
  let t := transform (doc s) in
  let newCanvas :=
    {| cv_id := "canvas_" +:+ now;
       cv_x := ((- t_x t + clientWidth browser / 2) / t_scale t - canvasWidth / 2)%Q;
       cv_y := ((- t_y t + clientHeight browser / 2) / t_scale t - canvasHeight / 2)%Q;
       cv_width := canvasWidth;
       cv_height := canvasHeight;
       drawingSrc := Some "" |} in
  s |> setDrawingCanvases (λ prev, prev ++ [newCanvas])
    |> setLayerOrder (λ prev, prev ++ [cv_id newCanvas])
    |> setSelectedDrawingCanvasIds (const [cv_id newCanvas])
    |> setSelectedImageIds (const [])
    |> setSelectedTextIds (const [])
    |> setActiveTool select.

End Handlers.

(** [handleAddVideoToCanvas], with the modal's source image as an argument
    ([None]: [selectedVideoSourceImage] is [null]). *)
Definition handleAddVideoToCanvas (now : string) (source : option ImageObject)
    (video_src : string) (ratio : AspectRatio) (s : AppState) : AppState :=
  match source with
  | None => s
  | Some src =>
    let newImage :=
      {| img_id := "vid_" +:+ now;
         img_src := img_src src;
         img_x := (img_x src + 50)%Q;
         img_y := (img_y src + 50)%Q;
         img_width := img_width src;
         img_height := img_height src;
         naturalWidth := naturalWidth src;
         naturalHeight := naturalHeight src;
         classification := video;
         img_name := None; img_prompt := None;
         targetAspectRatio := Some ratio;
         modelSheetSrc := None; poses := None;
         videoSrc := Some video_src; maskSrc := None;
         poseIndex := None; poseSrc := None |} in
    s |> setImages (λ prev, prev ++ [newImage])
      |> setLayerOrder (λ prev, prev ++ [img_id newImage])
      |> setSelectedImageIds (const [img_id newImage])
  end.

(** [deleteImages], [deleteTextObjects], [deleteDrawingCanvases]. *)
Definition deleteImages (ids : list string) (s : AppState) : AppState :=
  match ids with
  | [] => s
  | _ =>
    s |> setImages (λ prevImages, filter (λ img, img_id img ∉ ids) prevImages)
      |> setLayerOrder (λ prev, filter (λ id, id ∉ ids) prev)
      |> setSelectedImageIds (const [])
  end.

Definition deleteTextObjects (ids : list string) (s : AppState) : AppState :=
  match ids with
  | [] => s
  | _ =>
    s |> setTextObjects (λ prev, filter (λ txt, txt_id txt ∉ ids) prev)
      |> setLayerOrder (λ prev, filter (λ id, id ∉ ids) prev)
      |> setSelectedTextIds (const [])
  end.

Definition deleteDrawingCanvases (ids : list string) (s : AppState) : AppState :=
  match ids with
  | [] => s
  | _ =>
    s |> setDrawingCanvases (λ prev, filter (λ canvas, cv_id canvas ∉ ids) prev)
      |> setLayerOrder (λ prev, filter (λ id, id ∉ ids) prev)
      |> setSelectedDrawingCanvasIds (const [])
  end.

(** The Delete/Backspace branch of the canvas [handleKeyDown]; the three
    selections are those of the render the handler closed over. *)
Definition pressDelete (s : AppState) : AppState :=
  let x := sel s in
  let s1 := match selectedImageIds x with [] => s | ids => deleteImages ids s end in
  let s2 := match selectedTextIds x with [] => s1 | ids => deleteTextObjects ids s1 end in
  match selectedDrawingCanvasIds x with [] => s2 | ids => deleteDrawingCanvases ids s2 end.

(** The deleting part of [handleImageDragEnd] (the drag ended over the
    trash target). *)
Definition dropOnTrash (s : AppState) : AppState :=
  let x := sel s in
  s |> deleteImages (selectedImageIds x)
    |> deleteTextObjects (selectedTextIds x)
    |> deleteDrawingCanvases (selectedDrawingCanvasIds x).

(** The kind argument of [handleNodeSelect]. *)
Inductive NodeKind := node_image | node_text | node_drawingCanvas.

Definition isContextTool (t : Tool) : bool :=
  match t with text | pen | eraser => true | _ => false end.

Definition onlyIf (b : bool) (id : string) : list string := if b then [id] else [].

Definition isImageKind (k : NodeKind) : bool :=
  match k with node_image => true | _ => false end.
Definition isTextKind (k : NodeKind) : bool :=
  match k with node_text => true | _ => false end.
Definition isCanvasKind (k : NodeKind) : bool :=
  match k with node_drawingCanvas => true | _ => false end.

Definition selectOnly (id : string) (k : NodeKind) (s : AppState) : AppState :=
  s |> setSelectedImageIds (const (onlyIf (isImageKind k) id))
    |> setSelectedTextIds (const (onlyIf (isTextKind k) id))
    |> setSelectedDrawingCanvasIds (const (onlyIf (isCanvasKind k) id)).

(** [prev => isSelected ? prev.filter(i => i !== id) : [...prev, id]]. *)
Definition toggle (isSelected : bool) (id : string) (prev : list string) : list string :=
  if isSelected then filter (λ i, i ≠ id) prev else prev ++ [id].

(** [handleNodeSelect] of the canvas component: the pointer-down of a node
    calls it through [onSelect], with the event's [shiftKey]. *)
Definition handleNodeSelect (shiftKey : bool) (id : string) (k : NodeKind)
    (s : AppState) : AppState :=
  let tool := activeTool (ui s) in
  let x := sel s in
  let s1 := s |> setLayerOrder (handleMoveToFront id) in
  let s2 := if isContextTool tool then s1 |> setActiveTool select else s1 in
  match tool with
  | select | pen | eraser =>
    let isSelected :=
      bool_decide (id ∈ selectedImageIds x) || bool_decide (id ∈ selectedTextIds x)
      || bool_decide (id ∈ selectedDrawingCanvasIds x) in
    if shiftKey then
      match k with
      | node_image => s2 |> setSelectedImageIds (toggle isSelected id)
      | node_text => s2 |> setSelectedTextIds (toggle isSelected id)
      | node_drawingCanvas => s2 |> setSelectedDrawingCanvasIds (toggle isSelected id)
      end
    else if isSelected then s2 else selectOnly id k s2
  | _ => selectOnly id k s2
  end.

(** The [onBackgroundClick] callback [App] passes to the canvas. *)
Definition onBackgroundClick (s : AppState) : AppState :=
  let ids := selectedImageIds (sel s) in
  let s1 := s |> setActiveImageUI None in
  let s2 :=
    match ids with
    | [] => s1
    | _ => s1 |> setImages (λ prev,
             (λ img, if bool_decide (img_id img ∈ ids) && truthyOpt (maskSrc img)
                     then withMaskSrc None img else img) <$> prev)
    end in
  let s3 := s2 |> setSelectedImageIds (const [])
               |> setSelectedTextIds (const [])
               |> setSelectedDrawingCanvasIds (const []) in
  if isContextTool (activeTool (ui s)) then s3 |> setActiveTool pan else s3.

End Interaction.

(** ** Strings: the JavaScript string methods the handlers use *)

Module Text.

(** [c.toLowerCase()] on one 8-bit character. *)
Definition lowerChar (c : ascii) : ascii :=
  let n := nat_of_ascii c in
  if (65 <=? n)%nat && (n <=? 90)%nat then ascii_of_nat (n + 32) else c.

Fixpoint toLowerCase (s : string) : string :=
  match s with
  | EmptyString => EmptyString
  | String c rest => String (lowerChar c) (toLowerCase rest)
  end.

(** [hay.includes(needle)]. *)
Fixpoint includes (hay needle : string) : bool :=
  String.prefix needle hay
  || match hay with
     | EmptyString => false
     | String _ rest => includes rest needle
     end.

(** The double quote and the line feed, as one-character strings. *)
Definition dquote : string := String "034"%char EmptyString.
Definition newline : string := String "010"%char EmptyString.

End Text.

(** ** Reference packing: ordering, badges, aspect-ratio matching *)

Module Packing.
Import Model.

(** [Array.prototype.sort(cmp)].  The sort is stable, so for a comparator
    that orders by a key its result is the stable insertion sort: an element
    is placed before the first element it does not compare greater than. *)
Section Sort.
Context {A : Type} (cmp : A -> A -> Q).

Fixpoint insertSorted (a : A) (l : list A) : list A :=
  match l with
  | [] => [a]
  | b :: rest =>
      if Qle_bool (cmp a b) 0 then a :: b :: rest else b :: insertSorted a rest
  end.

Definition sortBy (l : list A) : list A := foldr insertSorted [] l.

End Sort.

(** A list is ascending by a key when every element is at most the elements
    after it. *)
Definition ascending {A} (key : A -> Q) (l : list A) : Prop :=
  ∀ i j a b, i ≤ j → l !! i = Some a → l !! j = Some b → (key a <= key b)%Q.

(** An element of [allSelected] in [selectionOrderMap]. *)
Inductive CanvasItem :=
  | ItemImage (img : ImageObject)
  | ItemText (txt : TextObject)
  | ItemCanvas (canvas : DrawingCanvasObject).

Definition item_id (i : CanvasItem) : string :=
  match i with
  | ItemImage img => img_id img
  | ItemText txt => txt_id txt
  | ItemCanvas canvas => cv_id canvas
  end.

Definition item_x (i : CanvasItem) : Q :=
  match i with
  | ItemImage img => img_x img
  | ItemText txt => txt_x txt
  | ItemCanvas canvas => cv_x canvas
  end.

(** [images.filter(img => selectedImageIds.includes(img.id))] and its two
    siblings, as both [selectionOrderMap] and [handleGenerateImage] compute
    them. *)
Definition selectedImagesOf (d : Document) (x : Selection) : list ImageObject :=
  filter (λ img, img_id img ∈ selectedImageIds x) (images d).
Definition selectedTextsOf (d : Document) (x : Selection) : list TextObject :=
  filter (λ txt, txt_id txt ∈ selectedTextIds x) (textObjects d).
Definition selectedCanvasesOf (d : Document) (x : Selection) : list DrawingCanvasObject :=
  filter (λ can, cv_id can ∈ selectedDrawingCanvasIds x) (drawingCanvases d).

(** [allSelected.forEach((item, index) => { map[item.id] = index + 1; })]. *)
Fixpoint assignOrder (index : nat) (items : list CanvasItem) (map : gmap string nat)
  : gmap string nat :=
  match items with
  | [] => map
  | item :: rest => assignOrder (S index) rest (<[item_id item := index + 1]> map)
  end.

(** [selectionOrderMap] of the canvas component. *)
Definition selectionOrderMap (d : Document) (x : Selection) : gmap string nat :=
  let totalSelected :=
    length (selectedImageIds x) + length (selectedTextIds x)
    + length (selectedDrawingCanvasIds x) in
  if decide (totalSelected ≤ 1) then ∅
  else
    let selectedImages := selectedImagesOf d x in
    let selectedTexts := selectedTextsOf d x in
    let selectedCanvases := selectedCanvasesOf d x in
    let allSelected :=
      sortBy (λ a b, item_x a - item_x b)%Q
        ((ItemImage <$> selectedImages) ++ (ItemText <$> selectedTexts)
         ++ (ItemCanvas <$> selectedCanvases)) in
    assignOrder 0 allSelected ∅.

(** The badge a node is rendered with: [selectionOrderMap[id] || 0]. *)
Definition selectionOrder (d : Document) (x : Selection) (id : string) : nat :=
  default 0 (selectionOrderMap d x !! id).

(** An element of [editableItems] in [handleGenerateImage]:
    [{ ...img, type: 'image' }] or
    [{ ...canvas, src: canvas.drawingSrc, type: 'canvas' }]. *)
Inductive EditableItem :=
  | EditImage (img : ImageObject)
  | EditCanvas (canvas : DrawingCanvasObject).

Definition e_id (i : EditableItem) : string :=
  match i with EditImage img => img_id img | EditCanvas c => cv_id c end.
Definition e_x (i : EditableItem) : Q :=
  match i with EditImage img => img_x img | EditCanvas c => cv_x c end.
Definition e_width (i : EditableItem) : Q :=
  match i with EditImage img => img_width img | EditCanvas c => cv_width c end.
Definition e_height (i : EditableItem) : Q :=
  match i with EditImage img => img_height img | EditCanvas c => cv_height c end.
(** [item.src || ""]. *)
Definition e_src (i : EditableItem) : string :=
  match i with EditImage img => img_src img | EditCanvas c => default "" (drawingSrc c) end.
(** ['maskSrc' in item && item.maskSrc]. *)
Definition e_maskSrc (i : EditableItem) : option string :=
  match i with EditImage img => maskSrc img | EditCanvas _ => None end.
Definition e_type (i : EditableItem) : string :=
  match i with EditImage _ => "image" | EditCanvas _ => "canvas" end.

(** [editableItems]: the selected images and drawing canvases, by ascending x. *)
Definition editableItems (d : Document) (x : Selection) : list EditableItem :=
  let selectedImages := selectedImagesOf d x in
  let selectedCanvases := selectedCanvasesOf d x in
  sortBy (λ a b, e_x a - e_x b)%Q
    ((EditImage <$> selectedImages) ++ (EditCanvas <$> selectedCanvases)).

(** [Math.abs(itemRatio - targetRatio) < 0.01] for an item and a target. *)
Definition ratioWithinTolerance (item : EditableItem) (target : AspectRatio) : bool :=
  let itemRatio := (e_width item / e_height item)%Q in
  let '(targetW, targetH) := ratioParts target in
  let targetRatio := (targetW / targetH)%Q in
  if Qlt_le_dec (Qabs (itemRatio - targetRatio)) 0.01 then true else false.

(** [isSingleItem] and [isMatchingAspectRatio] of [handleGenerateImage]. *)
Definition isSingleItem (items : list EditableItem) : bool :=
  bool_decide (length items = 1).

Definition isMatchingAspectRatio (items : list EditableItem) (target : AspectRatio) : bool :=
  match items with
  | [singleItem] => ratioWithinTolerance singleItem target
  | _ => false
  end.

(** What the two orderings look at: the id and the x-coordinate. *)
Definition e_key (i : EditableItem) : string * Q := (e_id i, e_x i).
Definition item_key (i : CanvasItem) : string * Q := (item_id i, item_x i).

(** The scenario of the specification: three selected images placed at
    x = 50, 10 and 30. *)
Definition imageAt (id : string) (x : Q) : ImageObject :=
  {| img_id := id; img_src := "data:image/png;base64,AAAA";
     img_x := x; img_y := 0; img_width := 100; img_height := 100;
     naturalWidth := 100; naturalHeight := 100; classification := original;
     img_name := None; img_prompt := None; targetAspectRatio := None;
     modelSheetSrc := None; poses := None; videoSrc := None; maskSrc := None;
     poseIndex := None; poseSrc := None |}.

Definition threeItemsDoc : Document :=
  {| images := [imageAt "a" 50; imageAt "b" 10; imageAt "c" 30];
     textObjects := []; drawingCanvases := []; layerOrder := ["a"; "b"; "c"];
     aspectRatio := ar_9_16;
     transform := {| Geometry.t_x := 0; Geometry.t_y := 0; Geometry.t_scale := 1 |};
     projectName := "Untitled Story" |}.

Definition threeItemsSelection : Selection :=
  {| selectedImageIds := ["a"; "b"; "c"]; selectedTextIds := [];
     selectedDrawingCanvasIds := [] |}.

End Packing.

(** ** The generation orchestrator: errors, retry classification, attempts *)

Module Generation.
Import Geometry Layers Model Interaction Packing Text.

(** The [error] object of a failed service call, as far as the handler
    looks at it: [code], [status] and [message] of an error body. *)
Record ErrBody := mkErrBody {
  eb_code : option Z;
  eb_status : option string;
  eb_message : option string
}.

(** A value caught by the [catch] block: [error.message], [error.error],
    [error.stack], and the text [JSON.stringify(error)] gives. *)
Record JsError := mkJsError {
  e_message : option string;
  e_error : option ErrBody;
  e_stack : option string;
  e_json : string
}.

(** [new Error(msg)]: an [Error] has no enumerable fields, so it stringifies
    to an empty object. *)
Definition newError (msg : string) : JsError :=
  {| e_message := Some msg; e_error := None; e_stack := None; e_json := "{}" |}.

(** A JSON object found inside a message: its [error] field if it has one,
    and the fields of the object itself. *)
Record ParsedJson := mkParsedJson {
  j_error : option ErrBody;
  j_self : ErrBody
}.

(** A reference payload: [{ mimeType, base64Data }]. *)
Record Ref := mkRef {
  mimeType : string;
  base64Data : string
}.

(** The three calls of [geminiService] the handler makes. *)
Record Service := mkService {
  editImage : string -> list Ref -> string -> option Ref -> AspectRatio -> JsError + string;
  generateImage : string -> string -> AspectRatio -> JsError + string;
  parsePromptForEntities :
    string -> list string -> list string -> JsError + (option string * option string)
}.

(** The calls an attempt made, in order. *)
Inductive ServiceCall :=
  | CallEditImage (prompt : string) (refs : list Ref) (model : string)
      (mask : option Ref) (ratio : AspectRatio)
  | CallGenerateImage (prompt : string) (model : string) (ratio : AspectRatio)
  | CallParsePrompt (prompt : string) (characters backgrounds : list string)
  | CallCreatePaddedImage (base64Image : string) (ratio : AspectRatio).

(** *** Error classification (the [catch] block) *)

Definition maxRetries : nat := 3.

Section Classification.
(** [textToParse.match(/{.*}/)] followed by [JSON.parse]: the object embedded
    in a text, [None] when there is none or it does not parse. *)
Variable jsonIn : string -> option ParsedJson.

(** Steps 1 and 2: [parsedError]. *)
Definition parsedErrorOf (error : JsError) : option ErrBody :=
  let textToParse :=
    if truthyOpt (e_message error) then default "" (e_message error) else e_json error in
  let fromText :=
    match jsonIn textToParse with
    | Some parsed =>
        match j_error parsed with
        | Some inner => Some inner
        | None => Some (j_self parsed)
        end
    | None => None
    end in
  match e_error error with
  | Some body => Some body
  | None => fromText
  end.

(** Step 3: [cleanMessage]. *)
Definition cleanMessageOf (error : JsError) : string :=
  let cleanMessage :=
    if truthyOpt (e_message error) then default "" (e_message error) else "Unknown error" in
  match parsedErrorOf error with
  | Some body => if truthyOpt (eb_message body) then default "" (eb_message body)
                 else cleanMessage
  | None => cleanMessage
  end.

Definition msgLowerOf (error : JsError) : string := toLowerCase (cleanMessageOf error).

(** The first terminal test: safety filters. *)
Definition isSafetyBlock (error : JsError) : bool :=
  let msgLower := msgLowerOf error in
  includes msgLower "safety_block" || includes msgLower "blocked"
  || includes msgLower "prohibited" || includes msgLower "recitation".

(** The second terminal test: client and payload errors. *)
Definition isClientError (error : JsError) : bool :=
  let msgLower := msgLowerOf error in
  includes msgLower "400" || includes msgLower "invalid_argument"
  || includes msgLower "payload" || includes msgLower "too large".

Definition hasCode (body : option ErrBody) (code : Z) : bool :=
  match body with
  | Some b => bool_decide (eb_code b = Some code)
  | None => false
  end.

Definition hasStatus (body : option ErrBody) (status : string) : bool :=
  match body with
  | Some b => bool_decide (eb_status b = Some status)
  | None => false
  end.

Definition is503 (error : JsError) : bool :=
  let parsedError := parsedErrorOf error in
  let msgLower := msgLowerOf error in
  let rawString := toLowerCase (e_json error) in
  (hasCode parsedError 503 || hasStatus parsedError "UNAVAILABLE")
  || includes msgLower "503"
  || includes msgLower "overloaded"
  || includes msgLower "unavailable"
  || includes rawString (dquote +:+ "code" +:+ dquote +:+ ":503").

Definition is429 (error : JsError) : bool :=
  let parsedError := parsedErrorOf error in
  let msgLower := msgLowerOf error in
  (hasCode parsedError 429 || hasStatus parsedError "RESOURCE_EXHAUSTED")
  || includes msgLower "429"
  || includes msgLower "quota"
  || includes msgLower "resource_exhausted".

(** [Math.min(1000 * Math.pow(2, attempt - 1), 5000)]. *)
Definition overloadDelay (attempt : nat) : Z :=
  Z.min (1000 * 2 ^ (Z.of_nat attempt - 1)) 5000.

Definition quotaDelay : Z := 5000.
Definition otherDelay : Z := 2000.

(** The class an error that is not terminal is retried under. *)
Inductive RetryClass := Overload | Quota | Unclassified.

Definition retryClassOf (error : JsError) : RetryClass :=
  if is503 error then Overload else if is429 error then Quota else Unclassified.

Definition retryDelay (error : JsError) (attempt : nat) : Z :=
  match retryClassOf error with
  | Overload => overloadDelay attempt
  | Quota => quotaDelay
  | Unclassified => otherDelay
  end.

(** What the [catch] block decides for an error caught on [attempt]. *)
Inductive Verdict :=
  | StopSafety
  | StopClient
  | RetryAfter (cls : RetryClass) (delay : Z)
  | GiveUp (cls : RetryClass).

Definition catchVerdict (error : JsError) (attempt : nat) : Verdict :=
  if isSafetyBlock error then StopSafety
  else if isClientError error then StopClient
  else if bool_decide (attempt < maxRetries) then
    RetryAfter (retryClassOf error) (retryDelay error attempt)
  else GiveUp (retryClassOf error).

End Classification.

(** *** The computation of one run of [handleGenerateImage] *)

(** What a run has done so far: the application state as the setters left
    it, the image loads [addImageToCanvas] started, the service calls made,
    the delays slept and the attempts started. *)
Record GenState := mkGenState {
  app : AppState;
  pending : list PendingLoad;
  calls : list ServiceCall;
  slept : list Z;
  tried : list nat
}.

(** A step of the handler: it changes the run's state and either throws or
    returns a value. *)
Definition Gen (A : Type) : Type := GenState -> GenState * (JsError + A).

Definition gret {A} (a : A) : Gen A := λ st, (st, inr a).

Definition gbind {A B} (c : Gen A) (k : A -> Gen B) : Gen B :=
  λ st, match c st with
        | (st', inr a) => k a st'
        | (st', inl error) => (st', inl error)
        end.

Notation "x <~ c ;; k" := (gbind c (λ x, k))
  (at level 100, c at next level, right associativity, only parsing).
Notation "c ;;; k" := (gbind c (λ _, k))
  (at level 100, right associativity, only parsing).

Definition throw {A} (error : JsError) : Gen A := λ st, (st, inl error).

(** A call of a React setter. *)
Definition modify (f : AppState -> AppState) : Gen unit :=
  λ st, ({| app := f (app st); pending := pending st; calls := calls st;
            slept := slept st; tried := tried st |}, inr tt).

(** An awaited call: it is logged, and its outcome is the oracle's. *)
Definition await {A} (call : ServiceCall) (outcome : JsError + A) : Gen A :=
  λ st, ({| app := app st; pending := pending st; calls := calls st ++ [call];
            slept := slept st; tried := tried st |}, outcome).

(** [addImageToCanvas(...)] inside the handler: the load is started. *)
Definition startLoad (p : PendingLoad) : Gen unit :=
  λ st, ({| app := app st; pending := pending st ++ [p]; calls := calls st;
            slept := slept st; tried := tried st |}, inr tt).

(** [await new Promise(resolve => setTimeout(resolve, delay))]. *)
Definition sleep (delay : Z) (st : GenState) : GenState :=
  {| app := app st; pending := pending st; calls := calls st;
     slept := slept st ++ [delay]; tried := tried st |}.

Definition beginAttempt (attempt : nat) (st : GenState) : GenState :=
  {| app := app st; pending := pending st; calls := calls st;
     slept := slept st; tried := tried st ++ [attempt] |}.

Definition onApp (f : AppState -> AppState) (st : GenState) : GenState :=
  {| app := f (app st); pending := pending st; calls := calls st;
     slept := slept st; tried := tried st |}.

Definition outpaintingPrompt : string :=
  "If the height size of the attached image is long, 이미지 속 상단과 하단의 초록색 범위를  모두 제거하고 기존의 사진을 자연스럽게 연장해줘. If the width size of the attached image is long, 이미지 속 좌측과 우측의 초록색 범위를  모두 제거하고 기존의 사진을 자연스럽게 연장해줘".

Definition pngDataUrl (base64 : string) : string := "data:image/png;base64," +:+ base64.

(** [negativePrompt ? `${finalPrompt}\n\nNegative Prompt: ${negativePrompt}` : finalPrompt]. *)
Definition effectivePromptOf (finalPrompt : string) (negativePrompt : option string) : string :=
  if truthyOpt negativePrompt
  then finalPrompt +:+ newline +:+ newline +:+ "Negative Prompt: "
       +:+ default "" negativePrompt
  else finalPrompt.

(** [{ prompt, targetAspectRatio: aspectRatio }]. *)
Definition resultOptions (prompt : string) (ratio : AspectRatio) : AddOptions :=
  {| o_prompt := Some prompt; o_targetAspectRatio := Some ratio;
     o_x := None; o_y := None; o_width := None; o_height := None; o_id := None |}.

(** [currentModel]. *)
Definition currentModelOf (activeModel : string) (items : list EditableItem) : string :=
  match items with
  | [] => "imagen-4.0-generate-001"
  | _ => if includes activeModel "imagen" then "gemini-3-pro-image-preview"
         else activeModel
  end.

(** [prev => prev.map(img => selectedImageIds.includes(img.id)
      ? { ...img, maskSrc: undefined } : img)]. *)
Definition clearMasksOf (ids : list string) (prev : list ImageObject) : list ImageObject :=
  (λ img, if bool_decide (img_id img ∈ ids) then withMaskSrc None img else img) <$> prev.

(** Relations between the state before and after a step of a run. *)
Definition sameLogs (st st' : GenState) : Prop :=
  slept st' = slept st ∧ tried st' = tried st
  ∧ errorMessage (ui (app st')) = errorMessage (ui (app st)).

Definition sameDocument (st st' : GenState) : Prop :=
  doc (app st') = doc (app st) ∧ sel (app st') = sel (app st).

(** A step that leaves document, selection and pending loads alone. *)
Definition Quiet {A} (c : Gen A) : Prop :=
  ∀ st st' r, c st = (st', r) →
    sameDocument st st' ∧ sameLogs st st' ∧ pending st' = pending st.

(** A step that leaves document and selection alone, and starts the load of
    one result image exactly when it returns. *)
Definition LoadsOneResult {A} (closure : AppState) (c : Gen A) : Prop :=
  ∀ st st' r, c st = (st', r) →
    sameDocument st st' ∧ sameLogs st st'
    ∧ match r with
      | inl _ => pending st' = pending st
      | inr _ => ∃ src opts,
          pending st' = pending st ++ [addImageToCanvas closure src result opts]
      end.

Section Attempt.
(** [optimizeImageForApi(src, 1376, 0.95)]: the payload, downscaled when a
    side exceeds the cap; it never rejects. *)
Variable optimizeImageForApi : string -> Ref.
(** [createPaddedImage]: the padded canvas as a data URL, or a rejection. *)
Variable createPaddedImage : string -> AspectRatio -> JsError + string.
(** The render the handler closed over, the service as it answers during
    this attempt, and the prompts. *)
Variable closure : AppState.
Variable svc : Service.
Variable prompt finalPrompt : string.
Variable negativePrompt : option string.

Let ratio := aspectRatio (doc closure).
Let effectivePrompt := effectivePromptOf finalPrompt negativePrompt.

Definition referenceLabel (i : nat) (what : string) : string :=
  "Reference " +:+ pretty (i + 1) +:+ " (" +:+ what +:+ ")".

(** [validReferenceData]: the optimized payloads of the items that have one. *)
Definition validReferenceData (items : list EditableItem) : list Ref :=
  omap (λ item, if truthy (e_src item) then Some (optimizeImageForApi (e_src item))
                else None) items.

(** [maskPart]. *)
Definition maskPartOf (items : list EditableItem) : option Ref :=
  if isSingleItem items && isMatchingAspectRatio items ratio then
    match items with
    | item :: _ =>
        if truthyOpt (e_maskSrc item)
        then Some (optimizeImageForApi (default "" (e_maskSrc item)))
        else None
    | [] => None
    end
  else None.

(** The single-step path. *)
Definition oneStepEdit (refs : list Ref) (model : string) (mask : option Ref) : Gen unit :=
  finalImageBase64 <~
    await (CallEditImage effectivePrompt refs model mask ratio)
          (editImage svc effectivePrompt refs model mask ratio) ;;
  let finalImgSrc := pngDataUrl finalImageBase64 in
  modify (setDebugImages (λ prev, prev ++ [("Final Result (1-Step)", finalImgSrc)])) ;;;
  startLoad (addImageToCanvas closure finalImgSrc result (resultOptions prompt ratio)).

(** The two-step path: edit, pad, outpaint. *)
Definition twoStepEdit (firstLabel : string) (refs : list Ref) (model : string) : Gen unit :=
  initialImageBase64 <~
    await (CallEditImage effectivePrompt refs model None ratio)
          (editImage svc effectivePrompt refs model None ratio) ;;
  modify (setDebugImages (λ prev, prev ++ [(firstLabel, pngDataUrl initialImageBase64)])) ;;;
  paddedImageSrc <~
    await (CallCreatePaddedImage initialImageBase64 ratio)
          (createPaddedImage initialImageBase64 ratio) ;;
  let padded := optimizeImageForApi paddedImageSrc in
  modify (setDebugImages
            (λ prev, prev ++ [("Step 2: Padded for Outpainting", paddedImageSrc)])) ;;;
  finalImageBase64 <~
    await (CallEditImage outpaintingPrompt [padded] model None ratio)
          (editImage svc outpaintingPrompt [padded] model None ratio) ;;
  let finalImgSrc := pngDataUrl finalImageBase64 in
  modify (setDebugImages (λ prev, prev ++ [("Step 3: Final Result", finalImgSrc)])) ;;;
  startLoad (addImageToCanvas closure finalImgSrc result (resultOptions prompt ratio)).

(** The branch [editableItems.length > 0]. *)
Definition editSelection (items : list EditableItem) (currentModel : string) : Gen unit :=
  let refs := validReferenceData items in
  match refs with
  | [] => throw (newError "Selected items have no data.")
  | _ =>
    modify (setDebugImages
              (const (imap (λ i item, (referenceLabel i (e_type item), e_src item)) items))) ;;;
    (if isSingleItem items && isMatchingAspectRatio items ratio
     then oneStepEdit refs currentModel (maskPartOf items)
     else twoStepEdit "Step 1: Initial Edit" refs currentModel) ;;;
    modify (setImages (clearMasksOf (selectedImageIds (sel closure)))) ;;;
    modify (setSelectedImageIds (const [])) ;;;
    modify (setSelectedDrawingCanvasIds (const []))
  end.

Definition namedOf (cls : ImageClassification) (img : ImageObject) : bool :=
  match cls, classification img with
  | character, character | background, background => truthyOpt (img_name img)
  | _, _ => false
  end.

(** [list.find(img => img.name === name)]. *)
Definition findNamed (name : string) (l : list ImageObject) : option ImageObject :=
  list_find (λ img, img_name img = Some name) l ≫= (λ r, Some r.2).

(** The plain text-to-image fallback. *)
Definition generateFromScratch (currentModel : string) : Gen unit :=
  base64Image <~
    await (CallGenerateImage finalPrompt currentModel ratio)
          (generateImage svc finalPrompt currentModel ratio) ;;
  let imgSrc := pngDataUrl base64Image in
  modify (setDebugImages (const [("Final Result (Imagen 4)", imgSrc)])) ;;;
  startLoad (addImageToCanvas closure imgSrc result (resultOptions prompt ratio)).

(** The branch without editable items: a named character and a named
    background the prompt refers to are combined, otherwise an image is
    generated from scratch. *)
Definition generateOrCombine (currentModel : string) : Gen unit :=
  let characterImages := List.filter (namedOf character) (images (doc closure)) in
  let backgroundImages := List.filter (namedOf background) (images (doc closure)) in
  match characterImages, backgroundImages with
  | _ :: _, _ :: _ =>
    let characterNames := (λ img, default "" (img_name img)) <$> characterImages in
    let backgroundNames := (λ img, default "" (img_name img)) <$> backgroundImages in
    names <~
      await (CallParsePrompt finalPrompt characterNames backgroundNames)
            (parsePromptForEntities svc finalPrompt characterNames backgroundNames) ;;
    let '(characterName, backgroundName) := names in
    if truthyOpt characterName && truthyOpt backgroundName then
      match findNamed (default "" characterName) characterImages,
            findNamed (default "" backgroundName) backgroundImages with
      | Some characterImage, Some backgroundImage =>
        let imagesToEdit := [characterImage; backgroundImage] in
        let refs := (λ img, optimizeImageForApi (img_src img)) <$> imagesToEdit in
        modify (setDebugImages
                  (const (imap (λ i img, (referenceLabel i (default "" (img_name img)),
                                          img_src img)) imagesToEdit))) ;;;
        twoStepEdit "Step 1: Initial Combination" refs "gemini-3-pro-image-preview"
      | _, _ => generateFromScratch currentModel
      end
    else generateFromScratch currentModel
  | _, _ => generateFromScratch currentModel
  end.

(** The body of the [try] block. *)
Definition attemptBody : Gen unit :=
  let items := editableItems (doc closure) (sel closure) in
  let currentModel := currentModelOf (activeModel (ui closure)) items in
  (match items with
   | _ :: _ => editSelection items currentModel
   | [] => generateOrCombine currentModel
   end) ;;;
  modify (setIsLoading false) ;;;
  modify (setLoadingMessage None) ;;;
  modify (setActiveTool select).

End Attempt.

(** *** The retry loop *)

Section RetryLoop.
Variable jsonIn : string -> option ParsedJson.
(** [rawStack.replace(/data:image\/[^;]+;base64,[a-zA-Z0-9+/=]+/g, ...)]. *)
Variable sanitizeStack : string -> string.
Variable optimizeImageForApi : string -> Ref.
Variable createPaddedImage : string -> AspectRatio -> JsError + string.
(** The template substitution of lines 583-607: [finalPrompt] and
    [negativePrompt] for a prompt and the active model. *)
Variable expandPrompt : string -> string -> string * option string.
(** The service as it answers during the n-th attempt. *)
Variable service : nat -> Service.

Definition safetyNotice : string :=
  "안전 정책 또는 금지된 콘텐츠로 인해 이미지가 차단되었습니다. 프롬프트를 수정해주세요.".
Definition payloadNotice : string :=
  "이미지 데이터가 너무 큽니다. 입력 이미지를 줄이거나 더 간단한 프롬프트로 시도해주세요.".
Definition overloadNotice : string :=
  "Google 서버가 현재 매우 혼잡합니다 (503 Overloaded). 잠시 후 다시 시도해주세요.".
Definition quotaNotice : string :=
  "API 사용량이 초과되었습니다 (429 Quota Exceeded). 잠시 후 다시 시도하거나 다른 계정을 사용하세요.".
Definition failureNotice : string :=
  "생성을 실패하였습니다. 문제가 지속되면 콘솔의 상세 에러를 확인하세요.".

Definition progress (attempt : nat) : string :=
  "(" +:+ pretty attempt +:+ "/" +:+ pretty maxRetries +:+ ")".

(** The status line shown while waiting; the delays are whole seconds, so
    [Math.round(delay/1000)] is the quotient. *)
Definition retryMessage (cls : RetryClass) (delay : Z) (attempt : nat) : string :=
  match cls with
  | Overload => "⚠️ 서버 과부하 (503). " +:+ pretty (delay / 1000)%Z
                +:+ "초 후 자동 재시도합니다... " +:+ progress attempt
  | Quota => "⏳ 사용량 한도 도달. 잠시 대기 중... " +:+ progress attempt
  | Unclassified => "오류 발생. 재시도 중... " +:+ progress attempt
  end.

Definition exhaustedNotice (cls : RetryClass) : string :=
  match cls with
  | Overload => overloadNotice
  | Quota => quotaNotice
  | Unclassified => failureNotice
  end.

(** [fullErrorDetails]. *)
Definition fullErrorDetails (error : JsError) : string :=
  "Reason: " +:+ cleanMessageOf jsonIn error +:+ newline +:+ newline
  +:+ "Technical Details:" +:+ newline +:+ sanitizeStack (default "" (e_stack error)).

Definition stopWith (notice : string) (s : AppState) : AppState :=
  s |> setErrorMessage (Some notice) |> setIsLoading false |> setLoadingMessage None.

(** The loop [for (attempt = 1; attempt <= maxRetries; attempt++)], entered
    at [attempt] with [remaining] iterations left. *)
Fixpoint attemptsFrom (closure : AppState) (prompt finalPrompt : string)
    (negativePrompt : option string) (remaining attempt : nat) (st : GenState)
  : GenState :=
  match remaining with
  | 0 => st
  | S rest =>
    match attemptBody optimizeImageForApi createPaddedImage closure (service attempt)
            prompt finalPrompt negativePrompt (beginAttempt attempt st) with
    | (st1, inr _) => st1
    | (st1, inl error) =>
      let st2 := onApp (setDetailedError (Some (fullErrorDetails error))) st1 in
      match catchVerdict jsonIn error attempt with
      | StopSafety => onApp (stopWith safetyNotice) st2
      | StopClient => onApp (stopWith payloadNotice) st2
      | RetryAfter cls delay =>
          let st3 := onApp (setLoadingMessage (Some (retryMessage cls delay attempt))) st2 in
          attemptsFrom closure prompt finalPrompt negativePrompt rest (S attempt)
            (sleep delay st3)
      | GiveUp cls =>
          attemptsFrom closure prompt finalPrompt negativePrompt rest (S attempt)
            (onApp (stopWith (exhaustedNotice cls)) st2)
      end
    end
  end.

Definition startRun (s : AppState) : GenState :=
  {| app := s; pending := []; calls := []; slept := []; tried := [] |}.

(** [handleGenerateImage]: [s] is the state of the render the handler closed
    over, which is also the current state when it is called. *)
Definition handleGenerateImage (prompt : string) (s : AppState) : GenState :=
  if negb (truthy prompt) || isLoading (ui s) then startRun s
  else if negb (truthy (apiKey (ui s))) then
    startRun (s |> setTempApiKeyInput "" |> setIsApiKeyModalOpen true)
  else
    let '(finalPrompt, negativePrompt) := expandPrompt prompt (activeModel (ui s)) in
    let s1 := s |> setIsLoading true |> setLoadingMessage None |> setErrorMessage None
                |> setDetailedError None |> setDebugImages (const []) in
    attemptsFrom s prompt finalPrompt negativePrompt maxRetries 1 (startRun s1).

(** The state once the loads the run started have completed; the result
    image decodes after the handler has returned. *)
Definition settle (browser : Browser) (now : string) (st : GenState) : AppState :=
  foldl (λ s p, onImageLoad browser now p s) (app st) (pending st).

Definition generate (browser : Browser) (now : string) (prompt : string) (s : AppState)
  : AppState :=
  settle browser now (handleGenerateImage prompt s).

End RetryLoop.

End Generation.

(** ** Project serialization: saving to and loading from an archive *)

Module Serialization.
Import Geometry Layers Model Interaction Text.

(** [s.split(',')] and its siblings. *)
Fixpoint splitOn (sep : ascii) (s : string) : list string :=
  match s with
  | EmptyString => [EmptyString]
  | String c rest =>
      if Ascii.eqb c sep then EmptyString :: splitOn sep rest
      else match splitOn sep rest with
           | head :: tail => String c head :: tail
           | [] => [String c EmptyString]
           end
  end.

(** The regular expression [/:(.*?);/]: the text between the first colon
    that a semicolon follows on the same line and that semicolon. *)
Definition isLineTerminator (c : ascii) : bool :=
  Ascii.eqb c "010"%char || Ascii.eqb c "013"%char.

Fixpoint untilSemicolon (s : string) : option string :=
  match s with
  | EmptyString => None
  | String c rest =>
      if Ascii.eqb c ";"%char then Some EmptyString
      else if isLineTerminator c then None
      else String c <$> untilSemicolon rest
  end.

Fixpoint matchMime (s : string) : option string :=
  match s with
  | EmptyString => None
  | String c rest =>
      if Ascii.eqb c ":"%char then
        match untilSemicolon rest with
        | Some mime => Some mime
        | None => matchMime rest
        end
      else matchMime rest
  end.

(** [parseDataUrl]: the pair of [mimeType] and [data]. *)
Definition parseDataUrl (dataUrl : string) : string * string :=
  if negb (truthy dataUrl) then ("image/png", "")
  else
    match splitOn ","%char dataUrl with
    | part0 :: part1 :: _ =>
        let mimeType := default "image/png" (matchMime part0) in
        let mimeType :=
          if bool_decide (mimeType = "application/octet-stream")
             || bool_decide (mimeType = "binary/octet-stream")
          then "image/png" else mimeType in
        (mimeType, part1)
    | _ => ("image/png", "")
    end.

(** [mimeType.split('/')[1] || 'bin']. *)
Definition extensionOf (mimeType : string) : string :=
  match splitOn "/"%char mimeType with
  | _ :: ext :: _ => if truthy ext then ext else "bin"
  | _ => "bin"
  end.

(** [file.name.replace(/\.[^/.]+$/, "")]: the name without its last
    extension. *)
Fixpoint hasDotOrSlash (s : string) : bool :=
  match s with
  | EmptyString => false
  | String c rest => Ascii.eqb c "."%char || Ascii.eqb c "/"%char || hasDotOrSlash rest
  end.

Fixpoint stripExtension (name : string) : string :=
  match name with
  | EmptyString => EmptyString
  | String c rest =>
      if Ascii.eqb c "."%char && truthy rest && negb (hasDotOrSlash rest)
      then EmptyString
      else String c (stripExtension rest)
  end.

(** A text without a comma. *)
Definition commaFree (s : string) : Prop := ","%char ∉ list_ascii_of_string s.

(** The document JSON of an archive.  A field the loader tests for presence
    is optional. *)
Record ProjectData := mkProjectData {
  pd_version : Z;
  pd_projectName : option string;
  pd_images : option (list ImageObject);
  pd_textObjects : option (list TextObject);
  pd_drawingCanvases : option (list DrawingCanvasObject);
  pd_layerOrder : option (list string);
  pd_aspectRatio : option AspectRatio;
  pd_transform : option CanvasTransform
}.

(** [{ ...img, src, modelSheetSrc, poses, videoSrc, maskSrc }]. *)
Definition withPayloads (src : string) (sheet : option string)
    (ps : option (list (option string))) (vid mask : option string)
    (img : ImageObject) : ImageObject :=
  {| img_id := img_id img; img_src := src; img_x := img_x img;
     img_y := img_y img; img_width := img_width img; img_height := img_height img;
     naturalWidth := naturalWidth img; naturalHeight := naturalHeight img;
     classification := classification img; img_name := img_name img;
     img_prompt := img_prompt img; targetAspectRatio := targetAspectRatio img;
     modelSheetSrc := sheet; poses := ps; videoSrc := vid; maskSrc := mask;
     poseIndex := poseIndex img; poseSrc := poseSrc img |}.

Definition withDrawingSrc (src : option string) (canvas : DrawingCanvasObject)
  : DrawingCanvasObject :=
  {| cv_id := cv_id canvas; cv_x := cv_x canvas; cv_y := cv_y canvas;
     cv_width := cv_width canvas; cv_height := cv_height canvas; drawingSrc := src |}.

Section Archive.
(** Base64, as the zip library decodes it and the file reader encodes it. *)
Variable base64_decode : string -> list byte.
Variable base64_encode : list byte -> string.
(** The text of a JSON document, with [JSON.stringify] and [JSON.parse]
    ([None]: the text does not parse), and its encoding as bytes. *)
Variable JsonText : Type.
Variable JSON_stringify : ProjectData -> JsonText.
Variable JSON_parse : JsonText -> option ProjectData.
Variable textBytes : JsonText -> list byte.
Variable bytesText : list byte -> JsonText.
(** The text [`${Date.now()}_${Math.random().toString(36).substr(2, 9)}`] of
    the n-th asset written during a save. *)
Variable stamp : nat -> string.

(** An entry of a zip container. *)
Inductive Entry :=
  | TextEntry (text : JsonText)
  | BlobEntry (bytes : list byte).

Definition entryBytes (e : Entry) : list byte :=
  match e with TextEntry t => textBytes t | BlobEntry b => b end.

Definition entryText (e : Entry) : JsonText :=
  match e with TextEntry t => t | BlobEntry b => bytesText b end.

(** A file the user picks: its name, and the zip container it holds
    ([None]: [JSZip.loadAsync] rejects it). *)
Record ProjectFile := mkFile {
  f_name : string;
  f_zip : option (gmap string Entry)
}.

(** *** Saving *)

(** The entries written so far, oldest first. *)
Definition Save (A : Type) : Type := list (string * list byte) -> A * list (string * list byte).

Definition sret {A} (a : A) : Save A := λ written, (a, written).

Definition sbind {A B} (c : Save A) (k : A -> Save B) : Save B :=
  λ written, let '(a, written') := c written in k a written'.

(** [addAsset]. *)
Definition addAsset (dataUrl prefix : string) : Save string :=
  λ written,
    let '(mimeType, data) := parseDataUrl dataUrl in
    let ext := extensionOf mimeType in
    let filename := prefix +:+ "_" +:+ stamp (length written) +:+ "." +:+ ext in
    ("assets/" +:+ filename, written ++ [("assets/" +:+ filename, base64_decode data)]).

(** [if (field) newObj.field = addAsset(field, prefix)]. *)
Definition addOptional (field : option string) (prefix : string) : Save (option string) :=
  if truthyOpt field then sbind (addAsset (default "" field) prefix) (λ path, sret (Some path))
  else sret field.

Fixpoint mapSave {A B} (f : A -> Save B) (l : list A) : Save (list B) :=
  match l with
  | [] => sret []
  | a :: rest => sbind (f a) (λ b, sbind (mapSave f rest) (λ bs, sret (b :: bs)))
  end.

(** [img.poses.map(p => p ? addAsset(p, 'pose') : p)]. *)
Definition addPoses (ps : option (list (option string))) : Save (option (list (option string))) :=
  match ps with
  | Some slots => sbind (mapSave (λ p, addOptional p "pose") slots) (λ r, sret (Some r))
  | None => sret None
  end.

Definition processImage (img : ImageObject) : Save ImageObject :=
  sbind (addAsset (img_src img) "img") (λ src,
  sbind (addOptional (modelSheetSrc img) "sheet") (λ sheet,
  sbind (addPoses (poses img)) (λ ps,
  sbind (addOptional (videoSrc img) "vid") (λ vid,
  sbind (addOptional (maskSrc img) "mask") (λ mask,
  sret (withPayloads src sheet ps vid mask img)))))).

Definition processDrawing (canvas : DrawingCanvasObject) : Save DrawingCanvasObject :=
  sbind (addOptional (drawingSrc canvas) "draw") (λ src, sret (withDrawingSrc src canvas)).

(** [zip.file(name, data)]: a later entry of the same name replaces an
    earlier one. *)
Definition zipOf (written : list (string * list byte)) : gmap string Entry :=
  foldl (λ zip entry, <[entry.1 := BlobEntry entry.2]> zip) ∅ written.

(** The two object lists as they go into the JSON, and the assets written. *)
Definition processDocument (d : Document)
  : (list ImageObject * list DrawingCanvasObject) * list (string * list byte) :=
  sbind (mapSave processImage (images d)) (λ processedImages,
  sbind (mapSave processDrawing (drawingCanvases d)) (λ processedDrawings,
  sret (processedImages, processedDrawings))) [].

(** The names of the asset entries a save of the document writes, in order. *)
Definition assetNames (d : Document) : list string := (processDocument d).2.*1.

Definition savedNotice : string := "프로젝트가 저장되었습니다.".
Definition loadFailedNotice : string := "Failed to load project.".

(** [handleSaveProject]: the file offered for download, and the state after
    the notice. *)
Definition handleSaveProject (s : AppState) : ProjectFile * AppState :=
  let d := doc s in
  let '((processedImages, processedDrawings), written) := processDocument d in
  let projectData :=
    {| pd_version := 1;
       pd_projectName := Some (projectName d);
       pd_images := Some processedImages;
       pd_textObjects := Some (textObjects d);
       pd_drawingCanvases := Some processedDrawings;
       pd_layerOrder := Some (layerOrder d);
       pd_aspectRatio := Some (aspectRatio d);
       pd_transform := Some (transform d) |} in
  let zip := <["project.json" := TextEntry (JSON_stringify projectData)]> (zipOf written) in
  ({| f_name := projectName d +:+ ".story"; f_zip := Some zip |}, s |> alert savedNotice).

(** *** Loading *)

(** [reader.readAsDataURL(blob)] for the untyped blob the zip library
    yields. *)
Definition readAsDataURL (bytes : list byte) : string :=
  "data:application/octet-stream;base64," +:+ base64_encode bytes.

(** [loadAsset]. *)
Definition loadAsset (zip : gmap string Entry) (path : string) : string :=
  match zip !! path with
  | None => ""
  | Some entry => readAsDataURL (entryBytes entry)
  end.

(** [if (field) obj.field = await loadAsset(field)]. *)
Definition loadOptional (zip : gmap string Entry) (field : option string) : option string :=
  if truthyOpt field then Some (loadAsset zip (default "" field)) else field.

Definition restoreImage (zip : gmap string Entry) (img : ImageObject) : ImageObject :=
  withPayloads (loadAsset zip (img_src img))
    (loadOptional zip (modelSheetSrc img))
    (fmap (M := list) (loadOptional zip) <$> poses img)
    (loadOptional zip (videoSrc img))
    (loadOptional zip (maskSrc img))
    img.

Definition restoreDrawing (zip : gmap string Entry) (canvas : DrawingCanvasObject)
  : DrawingCanvasObject :=
  withDrawingSrc (loadOptional zip (drawingSrc canvas)) canvas.

(** The part of [loadProjectFromFile] that can throw: everything up to the
    first setter. *)
Definition readProject (file : ProjectFile)
  : option (ProjectData * list ImageObject * list DrawingCanvasObject) :=
  match f_zip file with
  | None => None
  | Some zip =>
    match zip !! "project.json" with
    | None => None
    | Some projectFile =>
      match JSON_parse (entryText projectFile) with
      | None => None
      | Some projectData =>
        match pd_images projectData, pd_drawingCanvases projectData with
        | Some imgs, Some draws =>
            Some (projectData, restoreImage zip <$> imgs, restoreDrawing zip <$> draws)
        | _, _ => None
        end
      end
    end
  end.

(** [loadProjectFromFile]. *)
Definition loadProjectFromFile (file : ProjectFile) (s : AppState) : AppState :=
  match readProject file with
  | None => s |> alert loadFailedNotice
  | Some (projectData, restoredImages, restoredDrawings) =>
    let s1 := s |> setImages (const restoredImages)
                |> setTextObjects (const (default [] (pd_textObjects projectData)))
                |> setDrawingCanvases (const restoredDrawings) in
    let s2 := match pd_layerOrder projectData with
              | Some order => s1 |> setLayerOrder (const order)
              | None => s1
              end in
    let s3 := match pd_aspectRatio projectData with
              | Some ratio => s2 |> setAspectRatio ratio
              | None => s2
              end in
    let s4 := match pd_transform projectData with
              | Some t => s3 |> setTransform t
              | None => s3
              end in
    let s5 := if truthyOpt (pd_projectName projectData)
              then s4 |> setProjectName (default "" (pd_projectName projectData))
              else s4 |> setProjectName (stripExtension (f_name file)) in
    s5 |> setSelectedImageIds (const [])
       |> setSelectedTextIds (const [])
       |> setSelectedDrawingCanvasIds (const [])
  end.

(** A container holds the entries written when each of them reads back. *)
Definition Stored (zip : gmap string Entry) (written : list (string * list byte)) : Prop :=
  ∀ path bytes, (path, bytes) ∈ written → zip !! path = Some (BlobEntry bytes).

(** A saving step is sound for a relation [R] when it only appends asset
    entries, none named like the document JSON, and its result is related by
    [R] to every container that holds what has been written. *)
Definition Sound {A} (c : Save A) (R : gmap string Entry -> A -> Prop) : Prop :=
  ∀ written a written', c written = (a, written') →
    (∃ new, written' = written ++ new ∧ Forall (λ e, e.1 ≠ "project.json") new)
    ∧ ∀ zip, Stored zip written' → R zip a.

(** *** Equality of documents up to the MIME label of payloads *)

(** The base64 data URL that carries [bytes] under the MIME type [mime]. *)
Definition dataUrlOf (mime : string) (bytes : list byte) : string :=
  "data:" +:+ mime +:+ ";base64," +:+ base64_encode bytes.

(** A payload reference carries [bytes] when it is a data URL of them. *)
Definition carries (src : string) (bytes : list byte) : Prop :=
  ∃ mime, commaFree mime ∧ src = dataUrlOf mime bytes.

(** Two payload references are the same payload when they carry the same
    bytes. *)
Definition samePayload (a b : string) : Prop :=
  ∃ bytes, carries a bytes ∧ carries b bytes.

(** Optional payload fields: both absent, both the same empty string, or
    both present with the same payload. *)
Definition sameOptionalPayload (a b : option string) : Prop :=
  match a, b with
  | None, None => True
  | Some x, Some y => if truthy x then samePayload x y else y = x
  | _, _ => False
  end.

Definition samePoses (a b : option (list (option string))) : Prop :=
  match a, b with
  | None, None => True
  | Some x, Some y => Forall2 sameOptionalPayload x y
  | _, _ => False
  end.

Definition sameImage (a b : ImageObject) : Prop :=
  b = withPayloads (img_src b) (modelSheetSrc b) (poses b) (videoSrc b) (maskSrc b) a
  ∧ samePayload (img_src a) (img_src b)
  ∧ sameOptionalPayload (modelSheetSrc a) (modelSheetSrc b)
  ∧ samePoses (poses a) (poses b)
  ∧ sameOptionalPayload (videoSrc a) (videoSrc b)
  ∧ sameOptionalPayload (maskSrc a) (maskSrc b).

Definition sameDrawing (a b : DrawingCanvasObject) : Prop :=
  b = withDrawingSrc (drawingSrc b) a
  ∧ sameOptionalPayload (drawingSrc a) (drawingSrc b).

Definition sameProject (a b : Document) : Prop :=
  Forall2 sameImage (images a) (images b)
  ∧ textObjects a = textObjects b
  ∧ Forall2 sameDrawing (drawingCanvases a) (drawingCanvases b)
  ∧ layerOrder a = layerOrder b
  ∧ aspectRatio a = aspectRatio b
  ∧ transform a = transform b
  ∧ projectName a = projectName b.

(** The payload references of a document are data URLs: the source of every
    image, and every populated optional payload field. *)
Definition isDataUrl (src : string) : Prop := ∃ bytes, carries src bytes.

Definition populatedIsDataUrl (field : option string) : Prop :=
  truthyOpt field = true → isDataUrl (default "" field).

Definition imagePayloadsAreDataUrls (img : ImageObject) : Prop :=
  isDataUrl (img_src img)
  ∧ populatedIsDataUrl (modelSheetSrc img)
  ∧ Forall populatedIsDataUrl (default [] (poses img))
  ∧ populatedIsDataUrl (videoSrc img)
  ∧ populatedIsDataUrl (maskSrc img).

Definition payloadsAreDataUrls (d : Document) : Prop :=
  Forall imagePayloadsAreDataUrls (images d)
  ∧ Forall (λ canvas, populatedIsDataUrl (drawingSrc canvas)) (drawingCanvases d).

End Archive.

End Serialization.

(** ** A concrete environment and concrete scenes, for running the model *)

Module Scenario.
Import Geometry Layers Model Interaction Packing Text Generation.

Definition browser : Browser :=
  {| decodeSize := λ _, Some (768, 1376)%Q; clientWidth := 1000; clientHeight := 800 |}.

Definition noJson : string -> option ParsedJson := λ _, None.
Definition keepStack : string -> string := λ stack, stack.
Definition passThrough : string -> Ref :=
  λ src, {| mimeType := "image/png"; base64Data := src |}.
Definition padOk : string -> AspectRatio -> JsError + string :=
  λ base64Image _, inr (pngDataUrl base64Image).
Definition plainPrompt : string -> string -> string * option string :=
  λ prompt _, (prompt, None).

(** The error of an overloaded service, as the service reports it. *)
Definition overloadedError : JsError :=
  {| e_message := Some "The model is overloaded. Please try again later.";
     e_error := Some {| eb_code := Some 503%Z; eb_status := Some "UNAVAILABLE";
                        eb_message := Some "The model is overloaded. Please try again later." |};
     e_stack := None;
     e_json := "{}" |}.

(** An error that carries the code 503 and a message about a blocked
    request. *)
Definition overloadedBlockedError : JsError :=
  {| e_message := Some "Request blocked";
     e_error := Some {| eb_code := Some 503%Z; eb_status := Some "UNAVAILABLE";
                        eb_message := Some "Request blocked" |};
     e_stack := None;
     e_json := "{}" |}.

(** An error that carries the code 429 and a message that mentions that the
    service is unavailable. *)
Definition quotaUnavailableError : JsError :=
  {| e_message := Some "Quota exceeded; the service is unavailable";
     e_error := Some {| eb_code := Some 429%Z; eb_status := Some "RESOURCE_EXHAUSTED";
                        eb_message := Some "Quota exceeded; the service is unavailable" |};
     e_stack := None;
     e_json := "{}" |}.

Definition quotaError : JsError :=
  {| e_message := Some "You exceeded your current quota.";
     e_error := Some {| eb_code := Some 429%Z; eb_status := Some "RESOURCE_EXHAUSTED";
                        eb_message := Some "You exceeded your current quota." |};
     e_stack := None;
     e_json := "{}" |}.

Definition safetyError : JsError := newError "Image generation blocked: SAFETY_BLOCK".

Definition failing (error : JsError) : Service :=
  {| editImage := λ _ _ _ _ _, inl error;
     generateImage := λ _ _ _, inl error;
     parsePromptForEntities := λ _ _ _, inl error |}.

Definition answering : Service :=
  {| editImage := λ _ _ _ _ _, inr "RESULT";
     generateImage := λ _ _ _, inr "RESULT";
     parsePromptForEntities := λ _ _ _, inr (None, None) |}.

(** One image of 900 by 1600 with a painted mask, selected. *)
Definition maskedImage : ImageObject :=
  {| img_id := "img_1"; img_src := "data:image/png;base64,AAAA";
     img_x := 0; img_y := 0; img_width := 900; img_height := 1600;
     naturalWidth := 900; naturalHeight := 1600; classification := original;
     img_name := None; img_prompt := None; targetAspectRatio := None;
     modelSheetSrc := None; poses := None; videoSrc := None;
     maskSrc := Some "data:image/png;base64,MASK";
     poseIndex := None; poseSrc := None |}.

Definition otherImage : ImageObject :=
  {| img_id := "img_2"; img_src := "data:image/png;base64,BBBB";
     img_x := 2000; img_y := 0; img_width := 100; img_height := 100;
     naturalWidth := 100; naturalHeight := 100; classification := original;
     img_name := None; img_prompt := None; targetAspectRatio := None;
     modelSheetSrc := None; poses := None; videoSrc := None; maskSrc := None;
     poseIndex := None; poseSrc := None |}.

Definition maskedScene : AppState :=
  initialState "key"
    |> setImages (const [maskedImage; otherImage])
    |> setLayerOrder (const ["img_1"; "img_2"])
    |> setSelectedImageIds (const ["img_1"])
    |> setActiveTool select.

(** A blank drawing canvas, just created for the 9:16 target and selected. *)
Definition blankCanvasScene : AppState := addDrawingCanvas browser "1" (initialState "key").

(** An image at x = 50 and a text at x = 10, both selected. *)
Definition textAt (id : string) (x : Q) : TextObject :=
  {| txt_id := id; content := "caption"; txt_x := x; txt_y := 0;
     txt_width := 300; txt_height := 60; fontSize := 48; fontFamily := "Arial";
     color := "#000000" |}.

Definition imageAndTextDoc : Document :=
  {| images := [imageAt "a" 50]; textObjects := [textAt "t" 10];
     drawingCanvases := []; layerOrder := ["a"; "t"]; aspectRatio := ar_9_16;
     transform := {| t_x := 0; t_y := 0; t_scale := 1 |};
     projectName := "Untitled Story" |}.

Definition imageAndTextSelection : Selection :=
  {| selectedImageIds := ["a"]; selectedTextIds := ["t"];
     selectedDrawingCanvasIds := [] |}.

(** A run of [handleGenerateImage] in this environment. *)
Definition runWith (service : nat -> Service) (prompt : string) (s : AppState) : GenState :=
  handleGenerateImage noJson keepStack passThrough padOk plainPrompt service prompt s.

Definition generateWith (service : nat -> Service) (prompt : string) (s : AppState)
  : AppState :=
  generate noJson keepStack passThrough padOk plainPrompt service browser "2" prompt s.

(** A two-characters-per-byte codec over the letters A to P, to run the
    archive model with. *)
Definition nibbleChar (n : N) : ascii := ascii_of_N (65 + n).

Definition encodeByte (b : byte) : string :=
  let n := Byte.to_N b in
  String (nibbleChar (n / 16)) (String (nibbleChar (n mod 16)) EmptyString).

Fixpoint lettersEncode (bytes : list byte) : string :=
  match bytes with
  | [] => EmptyString
  | b :: rest => encodeByte b +:+ lettersEncode rest
  end.

Definition decodeByte (c1 c2 : ascii) : byte :=
  default x00 (Byte.of_N ((N_of_ascii c1 - 65) * 16 + (N_of_ascii c2 - 65))).

Fixpoint lettersDecode (s : string) : list byte :=
  match s with
  | String c1 (String c2 rest) => decodeByte c1 c2 :: lettersDecode rest
  | _ => []
  end.

(** A document JSON without content, and an archive without entries. *)
Definition blankProject : Serialization.ProjectData :=
  {| Serialization.pd_version := 1; Serialization.pd_projectName := None;
     Serialization.pd_images := None; Serialization.pd_textObjects := None;
     Serialization.pd_drawingCanvases := None; Serialization.pd_layerOrder := None;
     Serialization.pd_aspectRatio := None; Serialization.pd_transform := None |}.

Definition emptyArchive : Serialization.ProjectFile Serialization.ProjectData :=
  {| Serialization.f_name := "holiday.story"; Serialization.f_zip := Some ∅ |}.

(** Saving and loading with the letters codec, the document JSON kept as
    the data it describes, and the assets numbered in the order written. *)
Definition saveWith (s : AppState) : Serialization.ProjectFile Serialization.ProjectData :=
  (Serialization.handleSaveProject lettersDecode Serialization.ProjectData (λ pd, pd)
     (λ n, pretty n) s).1.

Definition loadWith (file : Serialization.ProjectFile Serialization.ProjectData)
    (s : AppState) : AppState :=
  Serialization.loadProjectFromFile lettersEncode Serialization.ProjectData Some
    (λ _, []) (λ _, blankProject) file s.

End Scenario.

(** ** Sequences of add and delete operations, and the document invariants *)

Module Lifecycle.
Import Geometry Layers Model Interaction.

(** An operation that adds or deletes objects, with the values the
    environment supplies (the clock, the loaded image). *)
Inductive Op :=
  | OpImageLoaded (now : string) (p : PendingLoad)
  | OpAddText (now : string) (x y : Q)
  | OpAddDrawingCanvas (now : string)
  | OpAddVideo (now : string) (source : option ImageObject) (video_src : string)
      (ratio : AspectRatio)
  | OpDeleteImages (ids : list string)
  | OpDeleteTextObjects (ids : list string)
  | OpDeleteDrawingCanvases (ids : list string)
  | OpPressDelete
  | OpDropOnTrash.

Definition step (browser : Browser) (op : Op) (s : AppState) : AppState :=
  match op with
  | OpImageLoaded now p => onImageLoad browser now p s
  | OpAddText now x y => addTextToCanvas now x y s
  | OpAddDrawingCanvas now => addDrawingCanvas browser now s
  | OpAddVideo now source video_src ratio =>
      handleAddVideoToCanvas now source video_src ratio s
  | OpDeleteImages ids => deleteImages ids s
  | OpDeleteTextObjects ids => deleteTextObjects ids s
  | OpDeleteDrawingCanvases ids => deleteDrawingCanvases ids s
  | OpPressDelete => pressDelete s
  | OpDropOnTrash => dropOnTrash s
  end.

Definition run (browser : Browser) (ops : list Op) (s : AppState) : AppState :=
  foldl (λ acc op, step browser op acc) s ops.

Definition imageIds (s : AppState) : list string := img_id <$> images (doc s).
Definition textIds (s : AppState) : list string := txt_id <$> textObjects (doc s).
Definition canvasIds (s : AppState) : list string := cv_id <$> drawingCanvases (doc s).

(** The ids of the live objects of all three kinds. *)
Definition liveIds (s : AppState) : list string :=
  imageIds s ++ textIds s ++ canvasIds s.

(** Every selected id is the id of a live object of its kind. *)
Definition selectionLive (s : AppState) : Prop :=
  selectedImageIds (sel s) ⊆ imageIds s
  ∧ selectedTextIds (sel s) ⊆ textIds s
  ∧ selectedDrawingCanvasIds (sel s) ⊆ canvasIds s.

(** Object ids are unique and the layer order lists each of them once. *)
Definition layersExact (s : AppState) : Prop :=
  NoDup (liveIds s) ∧ layerOrder (doc s) ≡ₚ liveIds s.

Definition wellFormed (s : AppState) : Prop := selectionLive s ∧ layersExact s.

(** The number of times [id] occurs in a layer order. *)
Definition occurrences (id : string) (l : list string) : nat :=
  length (filter (λ x, x = id) l).

(** What deleting the object [id] with the id list [ids] must achieve, from
    state [s] to state [s']: [id] is in no selection set and names no live
    object, its single entry in the layer order is gone, and the entries of
    the ids that were not deleted are as they were. *)
Definition removedEverywhere (ids : list string) (id : string) (s s' : AppState) : Prop :=
  (id ∉ selectedImageIds (sel s'))
  ∧ (id ∉ selectedTextIds (sel s'))
  ∧ (id ∉ selectedDrawingCanvasIds (sel s'))
  ∧ (id ∉ liveIds s')
  ∧ occurrences id (layerOrder (doc s)) = 1
  ∧ occurrences id (layerOrder (doc s')) = 0
  ∧ ∀ other, other ∉ ids →
      occurrences other (layerOrder (doc s')) = occurrences other (layerOrder (doc s)).

(** The id an operation gives the object it adds, if it adds one. *)
Definition addedId (browser : Browser) (op : Op) : option string :=
  match op with
  | OpImageLoaded now p =>
      match decodeSize browser (pl_src p) with
      | None => None
      | Some _ =>
          Some (if truthyOpt (o_id (pl_options p)) then default "" (o_id (pl_options p))
                else "img_" +:+ now)
      end
  | OpAddText now _ _ => Some ("txt_" +:+ now)
  | OpAddDrawingCanvas now => Some ("canvas_" +:+ now)
  | OpAddVideo now (Some _) _ _ => Some ("vid_" +:+ now)
  | _ => None
  end.

(** An operation respects identity when the id it adds is not in use, and a
    direct call of a delete function names no object of another kind. *)
Definition respectsIdentity (browser : Browser) (op : Op) (s : AppState) : Prop :=
  match op with
  | OpDeleteImages ids => ∀ id, id ∈ ids → (id ∉ textIds s) ∧ (id ∉ canvasIds s)
  | OpDeleteTextObjects ids => ∀ id, id ∈ ids → (id ∉ imageIds s) ∧ (id ∉ canvasIds s)
  | OpDeleteDrawingCanvases ids => ∀ id, id ∈ ids → (id ∉ imageIds s) ∧ (id ∉ textIds s)
  | _ => ∀ id, addedId browser op = Some id → id ∉ liveIds s
  end.

Fixpoint allRespectIdentity (browser : Browser) (ops : list Op) (s : AppState) : Prop :=
  match ops with
  | [] => True
  | op :: rest =>
      respectsIdentity browser op s ∧ allRespectIdentity browser rest (step browser op s)
  end.

End Lifecycle.

(** ** The canvas component: pointer gestures and what is rendered *)

Module Viewport.
Import Geometry Layers Model Interaction.

(** [Math.round(scale * 100)]: the zoom the header shows. *)
Definition zoomPercentage (scale : Q) : Q := jsRound (scale * 100).

(** Where the content layer, styled
    [translate(${transform.x}px, ${transform.y}px) scale(${transform.scale})]
    with its origin at the top left, puts a canvas point: screen coordinates
    relative to the canvas element. *)
Definition canvasToScreen (p : Q * Q) (transform : CanvasTransform) : Q * Q :=
  ((t_x transform + t_scale transform * fst p)%Q,
   (t_y transform + t_scale transform * snd p)%Q).

(** [layerOrder.indexOf(id)]; [None] stands for [-1]. *)
Fixpoint indexOf (id : string) (l : list string) : option nat :=
  match l with
  | [] => None
  | item :: rest => if decide (item = id) then Some 0 else S <$> indexOf id rest
  end.

(** [layerOrder.indexOf(id) !== -1 ? layerOrder.indexOf(id) : 0]. *)
Definition zIndex (layerOrder : list string) (id : string) : nat :=
  default 0 (indexOf id layerOrder).

(** [selectionBox]. *)
Record SelectionBox := mkBox {
  box_x : Q;
  box_y : Q;
  box_width : Q;
  box_height : Q
}.

(** The refs and the local state of the canvas component. *)
Record CanvasLocal := mkLocal {
  isPanning : bool;
  isSelecting : bool;
  lastMousePos : Q * Q;
  selectionStart : Q * Q;
  selectionBox : option SelectionBox
}.

Definition initialLocal : CanvasLocal :=
  {| isPanning := false; isSelecting := false; lastMousePos := (0, 0)%Q;
     selectionStart := (0, 0)%Q; selectionBox := None |}.

(** The part of a mouse event the canvas handlers read; [onBackground] is
    [e.target === e.currentTarget]. *)
Record MouseEvent := mkMouse {
  mouseX : Q;
  mouseY : Q;
  onBackground : bool
}.

(** The event position relative to the canvas element. *)
Definition relativeTo (rect : Rect) (e : MouseEvent) : Q * Q :=
  ((mouseX e - r_left rect)%Q, (mouseY e - r_top rect)%Q).

(** [onBackgroundClick] as a callback of the render [closure], run when the
    state is [s]. *)
Definition onBackgroundClickFrom (closure s : AppState) : AppState :=
  let ids := selectedImageIds (sel closure) in
  let s1 := s |> setActiveImageUI None in
  let s2 :=
    match ids with
    | [] => s1
    | _ => s1 |> setImages (λ prev,
             (λ img, if bool_decide (img_id img ∈ ids) && truthyOpt (maskSrc img)
                     then withMaskSrc None img else img) <$> prev)
    end in
  let s3 := s2 |> setSelectedImageIds (const [])
               |> setSelectedTextIds (const [])
               |> setSelectedDrawingCanvasIds (const []) in
  if isContextTool (activeTool (ui closure)) then s3 |> setActiveTool pan else s3.

(** [handleMouseDown] of the canvas component; [now] is the text of
    [Date.now()] for the text object the text tool adds. *)
Definition handleMouseDown (now : string) (rect : Rect) (e : MouseEvent)
    (st : AppState * CanvasLocal) : AppState * CanvasLocal :=
  let '(s, c) := st in
  if negb (onBackground e) then st
  else
    let start := screenToCanvas (relativeTo rect e) (transform (doc s)) in
    let '(s1, c1) :=
      match activeTool (ui s) with
      | pan =>
          (s, {| isPanning := true; isSelecting := isSelecting c;
                 lastMousePos := (mouseX e, mouseY e);
                 selectionStart := selectionStart c; selectionBox := selectionBox c |})
      | select =>
          (s, {| isPanning := isPanning c; isSelecting := true;
                 lastMousePos := lastMousePos c; selectionStart := start;
                 selectionBox := Some {| box_x := fst start; box_y := snd start;
                                         box_width := 0; box_height := 0 |} |})
      | text =>
          (s |> addTextToCanvas now (fst start) (snd start) |> setActiveTool select, c)
      | _ => (s, c)
      end in
    (onBackgroundClickFrom s s1, c1).

Definition isPanTool (t : Tool) : bool := match t with pan => true | _ => false end.
Definition isSelectTool (t : Tool) : bool := match t with select => true | _ => false end.

(** [handleMouseMove]. *)
Definition handleMouseMove (rect : Rect) (e : MouseEvent) (st : AppState * CanvasLocal)
  : AppState * CanvasLocal :=
  let '(s, c) := st in
  if isPanning c && isPanTool (activeTool (ui s)) then
    let dx := (mouseX e - fst (lastMousePos c))%Q in
    let dy := (mouseY e - snd (lastMousePos c))%Q in
    (s |> setTransform (panBy dx dy (transform (doc s))),
     {| isPanning := isPanning c; isSelecting := isSelecting c;
        lastMousePos := (mouseX e, mouseY e);
        selectionStart := selectionStart c; selectionBox := selectionBox c |})
  else if isSelecting c && isSelectTool (activeTool (ui s)) then
    let current := screenToCanvas (relativeTo rect e) (transform (doc s)) in
    let newX := Qmin (fst (selectionStart c)) (fst current) in
    let newY := Qmin (snd (selectionStart c)) (snd current) in
    let newWidth := Qabs (fst current - fst (selectionStart c)) in
    let newHeight := Qabs (snd current - snd (selectionStart c)) in
    (s, {| isPanning := isPanning c; isSelecting := isSelecting c;
           lastMousePos := lastMousePos c; selectionStart := selectionStart c;
           selectionBox := Some {| box_x := newX; box_y := newY;
                                   box_width := newWidth; box_height := newHeight |} |})
  else st.

(** [a < b] on numbers. *)
Definition lessThan (a b : Q) : bool := if Qlt_le_dec a b then true else false.

(** [isInside] of [handleMouseUpOrLeave]. *)
Definition isInside (box : SelectionBox) (x y width height : Q) : bool :=
  let boxRight := (box_x box + box_width box)%Q in
  let boxBottom := (box_y box + box_height box)%Q in
  let objRight := (x + width)%Q in
  let objBottom := (y + height)%Q in
  lessThan x boxRight && lessThan (box_x box) objRight
  && lessThan y boxBottom && lessThan (box_y box) objBottom.

(** [handleMouseUpOrLeave]. *)
Definition handleMouseUpOrLeave (st : AppState * CanvasLocal) : AppState * CanvasLocal :=
  let '(s, c) := st in
  let panning := if isPanning c then false else isPanning c in
  if isSelecting c then
    let s1 :=
      match selectionBox c with
      | Some box =>
          s |> setSelectedImageIds
                 (const (img_id <$> List.filter
                    (λ img, isInside box (img_x img) (img_y img) (img_width img)
                                     (img_height img)) (images (doc s))))
            |> setSelectedTextIds
                 (const (txt_id <$> List.filter
                    (λ txt, isInside box (txt_x txt) (txt_y txt) (txt_width txt)
                                     (txt_height txt)) (textObjects (doc s))))
            |> setSelectedDrawingCanvasIds
                 (const (cv_id <$> List.filter
                    (λ can, isInside box (cv_x can) (cv_y can) (cv_width can)
                                     (cv_height can)) (drawingCanvases (doc s))))
      | None => s
      end in
    (s1, {| isPanning := panning; isSelecting := false;
            lastMousePos := lastMousePos c; selectionStart := selectionStart c;
            selectionBox := None |})
  else
    (s, {| isPanning := panning; isSelecting := isSelecting c;
           lastMousePos := lastMousePos c; selectionStart := selectionStart c;
           selectionBox := selectionBox c |}).

(** The rectangle spanned by two canvas points overlaps the rectangle of an
    object. *)
Definition spanOverlaps (p q : Q * Q) (x y width height : Q) : Prop :=
  (x < Qmax (fst p) (fst q))%Q ∧ (Qmin (fst p) (fst q) < x + width)%Q
  ∧ (y < Qmax (snd p) (snd q))%Q ∧ (Qmin (snd p) (snd q) < y + height)%Q.

(** The mouse moves of a gesture, in order. *)
Definition mouseMoves (rect : Rect) (es : list MouseEvent) (st : AppState * CanvasLocal)
  : AppState * CanvasLocal :=
  foldl (λ acc e, handleMouseMove rect e acc) st es.

(** What holds during a pan gesture that started at [e0] in state [s]. *)
Definition panning (s : AppState) (e0 : MouseEvent) (st : AppState * CanvasLocal)
  : Prop :=
  isPanning st.2 = true ∧ activeTool (ui st.1) = pan
  ∧ t_scale (transform (doc st.1)) = t_scale (transform (doc s))
  ∧ (t_x (transform (doc st.1)) - fst (lastMousePos st.2)
     == t_x (transform (doc s)) - mouseX e0)%Q
  ∧ (t_y (transform (doc st.1)) - snd (lastMousePos st.2)
     == t_y (transform (doc s)) - mouseY e0)%Q.

(** A selection box spans the rectangle between two canvas points. *)
Definition spans (box : SelectionBox) (p q : Q * Q) : Prop :=
  (box_x box == Qmin (fst p) (fst q))%Q
  ∧ (box_x box + box_width box == Qmax (fst p) (fst q))%Q
  ∧ (box_y box == Qmin (snd p) (snd q))%Q
  ∧ (box_y box + box_height box == Qmax (snd p) (snd q))%Q.

(** What holds during a marquee gesture that started at the canvas point
    [p] with the application in state [s1], when the pointer is at [q]. *)
Definition selecting (s1 : AppState) (p q : Q * Q) (st : AppState * CanvasLocal) : Prop :=
  st.1 = s1 ∧ isSelecting st.2 = true ∧ selectionStart st.2 = p
  ∧ ∃ box, selectionBox st.2 = Some box ∧ spans box p q.

End Viewport.

(** ** Editing objects in place: the update callbacks of [App] *)

Module Updates.
Import Geometry Layers Model Interaction.

(** A key of a [Partial<ImageObject>] with its value. *)
Inductive ImageProp :=
  | ImgId (v : string)
  | ImgSrc (v : string)
  | ImgX (v : Q)
  | ImgY (v : Q)
  | ImgWidth (v : Q)
  | ImgHeight (v : Q)
  | ImgNaturalWidth (v : Q)
  | ImgNaturalHeight (v : Q)
  | ImgClassification (v : ImageClassification)
  | ImgName (v : option string)
  | ImgPrompt (v : option string)
  | ImgTargetAspectRatio (v : option AspectRatio)
  | ImgModelSheetSrc (v : option string)
  | ImgPoses (v : option (list (option string)))
  | ImgVideoSrc (v : option string)
  | ImgMaskSrc (v : option string)
  | ImgPoseIndex (v : option Q)
  | ImgPoseSrc (v : option string).

(** [{ ...img, key: v }]. *)
Definition setImageProp (p : ImageProp) (img : ImageObject) : ImageObject :=
  let '(mkImage id src x y width height nw nh cls name prompt target sheet ps vid mask
        pidx psrc) := img in
  match p with
  | ImgId v => mkImage v src x y width height nw nh cls name prompt target sheet ps vid
      mask pidx psrc
  | ImgSrc v => mkImage id v x y width height nw nh cls name prompt target sheet ps vid
      mask pidx psrc
  | ImgX v => mkImage id src v y width height nw nh cls name prompt target sheet ps vid
      mask pidx psrc
  | ImgY v => mkImage id src x v width height nw nh cls name prompt target sheet ps vid
      mask pidx psrc
  | ImgWidth v => mkImage id src x y v height nw nh cls name prompt target sheet ps vid
      mask pidx psrc
  | ImgHeight v => mkImage id src x y width v nw nh cls name prompt target sheet ps vid
      mask pidx psrc
  | ImgNaturalWidth v => mkImage id src x y width height v nh cls name prompt target
      sheet ps vid mask pidx psrc
  | ImgNaturalHeight v => mkImage id src x y width height nw v cls name prompt target
      sheet ps vid mask pidx psrc
  | ImgClassification v => mkImage id src x y width height nw nh v name prompt target
      sheet ps vid mask pidx psrc
  | ImgName v => mkImage id src x y width height nw nh cls v prompt target sheet ps vid
      mask pidx psrc
  | ImgPrompt v => mkImage id src x y width height nw nh cls name v target sheet ps vid
      mask pidx psrc
  | ImgTargetAspectRatio v => mkImage id src x y width height nw nh cls name prompt v
      sheet ps vid mask pidx psrc
  | ImgModelSheetSrc v => mkImage id src x y width height nw nh cls name prompt target v
      ps vid mask pidx psrc
  | ImgPoses v => mkImage id src x y width height nw nh cls name prompt target sheet v
      vid mask pidx psrc
  | ImgVideoSrc v => mkImage id src x y width height nw nh cls name prompt target sheet
      ps v mask pidx psrc
  | ImgMaskSrc v => mkImage id src x y width height nw nh cls name prompt target sheet
      ps vid v pidx psrc
  | ImgPoseIndex v => mkImage id src x y width height nw nh cls name prompt target sheet
      ps vid mask v psrc
  | ImgPoseSrc v => mkImage id src x y width height nw nh cls name prompt target sheet
      ps vid mask pidx v
  end.

(** [{ ...img, ...newProps }]: the keys are assigned in order. *)
Definition applyImageProps (newProps : list ImageProp) (img : ImageObject) : ImageObject :=
  foldl (λ acc p, setImageProp p acc) img newProps.

(** A key of a [Partial<TextObject>] with its value. *)
Inductive TextProp :=
  | TxtId (v : string)
  | TxtContent (v : string)
  | TxtX (v : Q)
  | TxtY (v : Q)
  | TxtWidth (v : Q)
  | TxtHeight (v : Q)
  | TxtFontSize (v : Q)
  | TxtFontFamily (v : string)
  | TxtColor (v : string).

(** [{ ...txt, key: v }]. *)
Definition setTextProp (p : TextProp) (txt : TextObject) : TextObject :=
  let '(mkText id body x y width height size family colour) := txt in
  match p with
  | TxtId v => mkText v body x y width height size family colour
  | TxtContent v => mkText id v x y width height size family colour
  | TxtX v => mkText id body v y width height size family colour
  | TxtY v => mkText id body x v width height size family colour
  | TxtWidth v => mkText id body x y v height size family colour
  | TxtHeight v => mkText id body x y width v size family colour
  | TxtFontSize v => mkText id body x y width height v family colour
  | TxtFontFamily v => mkText id body x y width height size v colour
  | TxtColor v => mkText id body x y width height size family v
  end.

(** [{ ...txt, ...newProps }]: the keys are assigned in order. *)
Definition applyTextProps (newProps : list TextProp) (txt : TextObject) : TextObject :=
  foldl (λ acc p, setTextProp p acc) txt newProps.

(** A key of a [Partial<DrawingCanvasObject>] with its value. *)
Inductive CanvasProp :=
  | CvId (v : string)
  | CvX (v : Q)
  | CvY (v : Q)
  | CvWidth (v : Q)
  | CvHeight (v : Q)
  | CvDrawingSrc (v : option string).

(** [{ ...canvas, key: v }]. *)
Definition setCanvasProp (p : CanvasProp) (canvas : DrawingCanvasObject) : DrawingCanvasObject :=
  let '(mkCanvas id x y width height src) := canvas in
  match p with
  | CvId v => mkCanvas v x y width height src
  | CvX v => mkCanvas id v y width height src
  | CvY v => mkCanvas id x v width height src
  | CvWidth v => mkCanvas id x y v height src
  | CvHeight v => mkCanvas id x y width v src
  | CvDrawingSrc v => mkCanvas id x y width height v
  end.

(** [{ ...canvas, ...newProps }]: the keys are assigned in order. *)
Definition applyCanvasProps (newProps : list CanvasProp) (canvas : DrawingCanvasObject) : DrawingCanvasObject :=
  foldl (λ acc p, setCanvasProp p acc) canvas newProps.

(** [updateImage], [updateTextObject], [updateDrawingCanvas]. *)
Definition updateImage (id : string) (newProps : list ImageProp) : AppState → AppState :=
  setImages (λ prevImages,
    (λ img, if decide (img_id img = id) then applyImageProps newProps img else img)
      <$> prevImages).

Definition updateTextObject (id : string) (newProps : list TextProp) : AppState → AppState :=
  setTextObjects (λ prev,
    (λ txt, if decide (txt_id txt = id) then applyTextProps newProps txt else txt) <$> prev).

Definition updateDrawingCanvas (id : string) (newProps : list CanvasProp)
  : AppState → AppState :=
  setDrawingCanvases (λ prev,
    (λ canvas, if decide (cv_id canvas = id) then applyCanvasProps newProps canvas
               else canvas) <$> prev).

(** The keys of a patch that replace the id. *)
Definition setsImageId (p : ImageProp) : bool :=
  match p with ImgId _ => true | _ => false end.
Definition setsTextId (p : TextProp) : bool :=
  match p with TxtId _ => true | _ => false end.
Definition setsCanvasId (p : CanvasProp) : bool :=
  match p with CvId _ => true | _ => false end.

(** The [details] argument of [handleUpdateImageDetails]:
    [Partial<Pick<ImageObject, 'classification' | 'name'>>]. *)
Record ImageDetails := mkDetails {
  d_classification : option ImageClassification;
  d_name : option string
}.

Definition isModelSheet (c : option ImageClassification) : bool :=
  match c with Some modelSheet => true | _ => false end.

(** [handleUpdateImageDetails]. *)
Definition handleUpdateImageDetails (id : string) (details : ImageDetails) (s : AppState)
  : AppState :=
  let newProps :=
    match d_classification details with Some c => [ImgClassification c] | None => [] end
    ++ match d_name details with Some n => [ImgName (Some n)] | None => [] end in
  let s1 := s |> setImages (λ prevImages,
              (λ img, if decide (img_id img = id) then applyImageProps newProps img
                      else img) <$> prevImages) in
  if truthyOpt (d_name details) || isModelSheet (d_classification details)
  then s1 |> setActiveImageUI (Some id) else s1.

(** The [update] argument of [handleUpdateCharacterImage]; [poseIndex] is an
    array index. *)
Record CharacterUpdate := mkCharacterUpdate {
  u_modelSheetSrc : option string;
  u_poseIndex : option nat;
  u_poseSrc : option string
}.

(** [newPoses[index] = v] on an array: an index past the end extends the
    array, and the slots in between read as [undefined]. *)
Definition assignAt {A} (index : nat) (v : option A) (l : list (option A))
  : list (option A) :=
  if decide (index < length l) then <[index := v]> l
  else l ++ replicate (index - length l) None ++ [v].

(** The function [handleUpdateCharacterImage] maps over the images. *)
Definition updateCharacter (characterId : string) (update : CharacterUpdate)
    (img : ImageObject) : ImageObject :=
  if decide (img_id img = characterId) then
    let updatedImage :=
      if truthyOpt (u_modelSheetSrc update)
      then setImageProp (ImgModelSheetSrc (u_modelSheetSrc update)) img
      else img in
    match u_poseIndex update with
    | Some index =>
        if truthyOpt (u_poseSrc update) then
          let newPoses :=
            assignAt index (u_poseSrc update)
              (default (replicate 4 None) (poses updatedImage)) in
          setImageProp (ImgPoses (Some newPoses)) updatedImage
        else updatedImage
    | None => updatedImage
    end
  else img.

(** [handleUpdateCharacterImage]. *)
Definition handleUpdateCharacterImage (characterId : string) (update : CharacterUpdate)
  : AppState → AppState :=
  setImages (λ prevImages, updateCharacter characterId update <$> prevImages).

End Updates.

(** ** The nodes: dragging, resizing, the brush and the ratio label *)

Module Nodes.
Import Geometry Layers Model Interaction Text Viewport Updates.

(** [ResizeHandle] of [types.ts]. *)
Inductive ResizeHandle := TL | TM | TR | ML | MR | BL | BM | BR.

Definition handleName (handle : ResizeHandle) : string :=
  match handle with
  | TL => "tl" | TM => "tm" | TR => "tr" | ML => "ml"
  | MR => "mr" | BL => "bl" | BM => "bm" | BR => "br"
  end.

(** [handle.includes(c)]. *)
Definition handleIncludes (handle : ResizeHandle) (c : string) : bool :=
  includes (handleName handle) c.

Inductive ActionType := drag | resize.

(** [actionRef.current] of a node; [a_type] is [None] for [null] and
    [a_handle] is [None] for [undefined]. *)
Record Action (H A : Type) := mkAction {
  a_type : option ActionType;
  a_handle : option H;
  a_initialMouse : Q * Q;
  a_initial : A
}.
Arguments mkAction {H A}.
Arguments a_type {H A}.
Arguments a_handle {H A}.
Arguments a_initialMouse {H A}.
Arguments a_initial {H A}.

(** The destructured [{ x, y, width, height }] of a resize. *)
Record Frame := mkFrame {
  f_x : Q;
  f_y : Q;
  f_width : Q;
  f_height : Q
}.

(** The resize branch of [handleMouseMove] of an image node. *)
Definition resizeImage (handle : ResizeHandle) (initialImage : ImageObject) (dx dy : Q)
  : Frame :=
  let minSize := 20%Q in
  let isCornerHandle := negb (handleIncludes handle "m") in
  if isCornerHandle then
    let aspectRatio := (img_width initialImage / img_height initialImage)%Q in
    let newWidth :=
      if handleIncludes handle "r" then (img_width initialImage + dx)%Q
      else (img_width initialImage - dx)%Q in
    let newWidth := if lessThan newWidth minSize then minSize else newWidth in
    let newHeight := (newWidth / aspectRatio)%Q in
    {| f_x := if handleIncludes handle "l"
              then (img_x initialImage + img_width initialImage - newWidth)%Q
              else img_x initialImage;
       f_y := if handleIncludes handle "t"
              then (img_y initialImage + img_height initialImage - newHeight)%Q
              else img_y initialImage;
       f_width := newWidth;
       f_height := newHeight |}
  else
    let '(width, x) :=
      if handleIncludes handle "l"
      then ((img_width initialImage - dx)%Q, (img_x initialImage + dx)%Q)
      else (img_width initialImage, img_x initialImage) in
    let width := if handleIncludes handle "r" then (width + dx)%Q else width in
    let '(height, y) :=
      if handleIncludes handle "t"
      then ((img_height initialImage - dy)%Q, (img_y initialImage + dy)%Q)
      else (img_height initialImage, img_y initialImage) in
    let height := if handleIncludes handle "b" then (height + dy)%Q else height in
    let '(width, x) :=
      if lessThan width minSize
      then (minSize,
            if handleIncludes handle "l"
            then (img_x initialImage + img_width initialImage - minSize)%Q else x)
      else (width, x) in
    let '(height, y) :=
      if lessThan height minSize
      then (minSize,
            if handleIncludes handle "t"
            then (img_y initialImage + img_height initialImage - minSize)%Q else y)
      else (height, y) in
    {| f_x := x; f_y := y; f_width := width; f_height := height |}.

(** The calls a handler of an image node makes on its props. *)
Inductive ImageNodeCall :=
  | OnDragMove (e : MouseEvent)
  | UpdateImage (id : string) (newProps : list ImageProp).

(** [handleMouseMove] of an image node, for the image [id] at zoom [scale]. *)
Definition imageMouseMove (id : string) (scale : Q) (action : Action ResizeHandle ImageObject)
    (e : MouseEvent) : list ImageNodeCall :=
  match a_type action with
  | None => []
  | Some type =>
    let initialImage := a_initial action in
    let dx := ((mouseX e - fst (a_initialMouse action)) / scale)%Q in
    let dy := ((mouseY e - snd (a_initialMouse action)) / scale)%Q in
    match type, a_handle action with
    | drag, _ =>
        [OnDragMove e;
         UpdateImage id [ImgX (img_x initialImage + dx)%Q; ImgY (img_y initialImage + dy)%Q]]
    | resize, Some handle =>
        let r := resizeImage handle initialImage dx dy in
        [UpdateImage id [ImgX (f_x r); ImgY (f_y r); ImgWidth (f_width r);
                         ImgHeight (f_height r)]]
    | resize, None => []
    end
  end.

(** The resize branch of [handleActionMouseMove] of a drawing canvas node. *)
Definition resizeCanvas (handle : ResizeHandle) (initialCanvas : DrawingCanvasObject)
    (dx dy : Q) : Frame :=
  let minSize := 20%Q in
  let width := cv_width initialCanvas in
  let x := cv_x initialCanvas in
  let height := cv_height initialCanvas in
  let y := cv_y initialCanvas in
  let width := if handleIncludes handle "r" then (width + dx)%Q else width in
  let '(width, x) :=
    if handleIncludes handle "l" then ((width - dx)%Q, (x + dx)%Q) else (width, x) in
  let height := if handleIncludes handle "b" then (height + dy)%Q else height in
  let '(height, y) :=
    if handleIncludes handle "t" then ((height - dy)%Q, (y + dy)%Q) else (height, y) in
  let '(width, x) :=
    if lessThan width minSize
    then (minSize,
          if handleIncludes handle "l"
          then (cv_x initialCanvas + cv_width initialCanvas - minSize)%Q else x)
    else (width, x) in
  let '(height, y) :=
    if lessThan height minSize
    then (minSize,
          if handleIncludes handle "t"
          then (cv_y initialCanvas + cv_height initialCanvas - minSize)%Q else y)
    else (height, y) in
  {| f_x := x; f_y := y; f_width := width; f_height := height |}.

Inductive CanvasNodeCall :=
  | CanvasOnDragMove (e : MouseEvent)
  | UpdateDrawingCanvas (id : string) (newProps : list CanvasProp).

(** [handleActionMouseMove] of a drawing canvas node. *)
Definition canvasMouseMove (id : string) (scale : Q) (action : Action ResizeHandle DrawingCanvasObject)
    (e : MouseEvent) : list CanvasNodeCall :=
  match a_type action with
  | None => []
  | Some type =>
    let initialCanvas := a_initial action in
    let dx := ((mouseX e - fst (a_initialMouse action)) / scale)%Q in
    let dy := ((mouseY e - snd (a_initialMouse action)) / scale)%Q in
    match type, a_handle action with
    | drag, _ =>
        [CanvasOnDragMove e;
         UpdateDrawingCanvas id
           [CvX (cv_x initialCanvas + dx)%Q; CvY (cv_y initialCanvas + dy)%Q]]
    | resize, Some handle =>
        let r := resizeCanvas handle initialCanvas dx dy in
        [UpdateDrawingCanvas id
           [CvX (f_x r); CvY (f_y r); CvWidth (f_width r); CvHeight (f_height r)]]
    | resize, None => []
    end
  end.

(** The handles of a text node. *)
Inductive TextHandle := TextML | TextMR.

Inductive TextNodeCall :=
  | TextOnDragMove (e : MouseEvent)
  | UpdateTextObject (id : string) (newProps : list TextProp).

(** The resize branch of [handleMouseMove] of a text node: the new [x] and
    [width]. *)
Definition resizeText (handle : TextHandle) (initialText : TextObject) (dx : Q) : Q * Q :=
  let minWidth := 50%Q in
  match handle with
  | TextML =>
      let newWidth := (txt_width initialText - dx)%Q in
      if lessThan minWidth newWidth then ((txt_x initialText + dx)%Q, newWidth)
      else (txt_x initialText, txt_width initialText)
  | TextMR =>
      let newWidth := (txt_width initialText + dx)%Q in
      if lessThan minWidth newWidth then (txt_x initialText, newWidth)
      else (txt_x initialText, txt_width initialText)
  end.

(** [handleMouseMove] of a text node. *)
Definition textMouseMove (id : string) (scale : Q) (isEditing : bool)
    (action : Action TextHandle TextObject) (e : MouseEvent) : list TextNodeCall :=
  match a_type action with
  | None => []
  | Some type =>
    if isEditing then []
    else
      let initialText := a_initial action in
      let dx := ((mouseX e - fst (a_initialMouse action)) / scale)%Q in
      match type, a_handle action with
      | drag, _ =>
          let dy := ((mouseY e - snd (a_initialMouse action)) / scale)%Q in
          [TextOnDragMove e;
           UpdateTextObject id
             [TxtX (txt_x initialText + dx)%Q; TxtY (txt_y initialText + dy)%Q]]
      | resize, Some handle =>
          let '(x, width) := resizeText handle initialText dx in
          [UpdateTextObject id [TxtX x; TxtWidth width]]
      | resize, None => []
      end
  end.

(** [updateSlider] of an image node: the brush size for a pointer at
    [clientY] over a track whose bounding rectangle starts at [top] and is
    [height] high. *)
Definition updateSlider (clientY top height : Q) : Q :=
  let percentage := (1 - Qmin (Qmax ((clientY - top) / height) 0) 1)%Q in
  let minSize := 5%Q in
  let maxSize := 100%Q in
  jsRound (minSize + percentage * (maxSize - minSize)).

(** [commonRatios] of the image overlay. *)
Definition commonRatios : list (string * Q) :=
  [("1:1", 1); ("5:4", 5 / 4); ("4:3", 4 / 3); ("3:2", 3 / 2); ("16:9", 16 / 9);
   ("2:1", 2); ("4:5", 4 / 5); ("3:4", 3 / 4); ("2:3", 2 / 3); ("9:16", 9 / 16)]%Q.

(** [commonRatios.reduce((prev, curr) =>
      Math.abs(curr.value - actualRatio) < Math.abs(prev.value - actualRatio)
        ? curr : prev)]. *)
Definition closer (actualRatio : Q) (prev curr : string * Q) : string * Q :=
  if lessThan (Qabs (curr.2 - actualRatio)) (Qabs (prev.2 - actualRatio)) then curr
  else prev.

(** [findClosestRatio]. *)
Definition findClosestRatio (w h : Q) : string :=
  if Qeq_bool w 0 || Qeq_bool h 0 then "N/A"
  else
    let actualRatio := (w / h)%Q in
    match commonRatios with
    | first :: rest => (foldl (closer actualRatio) first rest).1
    | [] => "N/A"
    end.

(** An [AspectRatio] is the string of its two numbers (types.ts). *)
Definition ratioText (a : AspectRatio) : string :=
  match a with
  | ar_1_1 => "1:1"
  | ar_3_4 => "3:4"
  | ar_4_3 => "4:3"
  | ar_9_16 => "9:16"
  | ar_16_9 => "16:9"
  end.

(** [getRatioString] of the image overlay: the label shown beside the pixel
    size.  Every [AspectRatio] is a non-empty string, so a target ratio that
    is set is truthy; [!n] holds of the number 0. *)
Definition getRatioString (image : ImageObject) : string :=
  match targetAspectRatio image with
  | Some ratio => ratioText ratio
  | None =>
      if Qeq_bool (naturalWidth image) 0 || Qeq_bool (naturalHeight image) 0 then "N/A"
      else findClosestRatio (jsRound (naturalWidth image)) (jsRound (naturalHeight image))
  end.

End Nodes.

(** ** Raster work: downscaling a reference and padding for outpainting *)

Module Raster.
Import Geometry Model Interaction Text Generation Serialization Viewport.

(** The size of a [canvas] element after [canvas.width = v]: the attribute
    is an unsigned 32-bit integer, so the number is truncated towards zero
    and wrapped. *)
Definition canvasSize (v : Q) : Z :=
  (if Qlt_le_dec v 0 then Qceiling v else Qfloor v) mod 2 ^ 32.

(** What the two functions ask of the browser: the intrinsic size the source
    decodes to ([None]: [onerror] fires), whether a 2d context is available,
    and the data URL [canvas.toDataURL(type, quality)] gives for a canvas of
    the given size on which the source was drawn with the given rectangle
    over the given fill. *)
Record Canvas2d := mkCanvas2d {
  decode : string → option (Q * Q);
  hasContext : bool;
  toDataURL : string → option Q → Z * Z → option string → string → Q * Q * Q * Q → string
}.

(** The resize step of [optimizeImageForApi]: the size the image is redrawn
    at, [None] when no side exceeds [maxWidth]. *)
Definition optimizedSize (maxWidth naturalWidth naturalHeight : Q) : option (Q * Q) :=
  let width := naturalWidth in
  let height := naturalHeight in
  if lessThan maxWidth width || lessThan maxWidth height then
    if lessThan height width
    then Some (maxWidth, (height * (maxWidth / width))%Q)
    else Some ((width * (maxWidth / height))%Q, maxWidth)
  else None.

(** [optimizeImageForApi(base64Str, maxWidth, quality)]; it never rejects. *)
Definition optimizeImageForApi (browser : Canvas2d) (base64Str : string)
    (maxWidth quality : Q) : string * string :=
  match decode browser base64Str with
  | None => parseDataUrl base64Str
  | Some (naturalWidth, naturalHeight) =>
    match optimizedSize maxWidth naturalWidth naturalHeight with
    | None => parseDataUrl base64Str
    | Some (width, height) =>
      if hasContext browser then
        let optimizedDataUrl :=
          toDataURL browser "image/jpeg" (Some quality)
            (canvasSize width, canvasSize height) None base64Str (0, 0, width, height)%Q in
        parseDataUrl optimizedDataUrl
      else parseDataUrl base64Str
    end
  end.

(** The layout [createPaddedImage] computes for an image of the given
    intrinsic size: the canvas size as computed and as the element takes it,
    and the rectangle the image is drawn into. *)
Record PaddedLayout := mkLayout {
  canvasWidth : Q;
  canvasHeight : Q;
  elementWidth : Z;
  elementHeight : Z;
  finalImgWidth : Q;
  finalImgHeight : Q;
  drawX : Q;
  drawY : Q
}.

Definition paddedLayout (targetAspectRatio : AspectRatio) (naturalWidth naturalHeight : Q)
  : PaddedLayout :=
  let '(w, h) := ratioParts targetAspectRatio in
  let targetRatio := (w / h)%Q in
  let imageRatio := (naturalWidth / naturalHeight)%Q in
  let '(canvasWidth, canvasHeight) :=
    if lessThan targetRatio imageRatio
    then (naturalWidth, (naturalWidth / targetRatio)%Q)
    else ((naturalHeight * targetRatio)%Q, naturalHeight) in
  let MAX_DIMENSION := 1376%Q in
  let scaleFactor :=
    if lessThan MAX_DIMENSION canvasWidth || lessThan MAX_DIMENSION canvasHeight
    then Qmin (MAX_DIMENSION / canvasWidth) (MAX_DIMENSION / canvasHeight)
    else 1%Q in
  let canvasWidth := (canvasWidth * scaleFactor)%Q in
  let canvasHeight := (canvasHeight * scaleFactor)%Q in
  let finalImgWidth := (naturalWidth * scaleFactor)%Q in
  let finalImgHeight := (naturalHeight * scaleFactor)%Q in
  let elementWidth := canvasSize canvasWidth in
  let elementHeight := canvasSize canvasHeight in
  {| canvasWidth := canvasWidth; canvasHeight := canvasHeight;
     elementWidth := elementWidth; elementHeight := elementHeight;
     finalImgWidth := finalImgWidth; finalImgHeight := finalImgHeight;
     drawX := ((inject_Z elementWidth - finalImgWidth) / 2)%Q;
     drawY := ((inject_Z elementHeight - finalImgHeight) / 2)%Q |}.

(** [createPaddedImage]: the padded canvas as a data URL, or a rejection
    (with the load error event, which carries no message). *)
Definition createPaddedImage (browser : Canvas2d) (loadError : JsError)
    (base64Image : string) (targetAspectRatio : AspectRatio) : JsError + string :=
  let src := "data:image/png;base64," +:+ base64Image in
  match decode browser src with
  | None => inl loadError
  | Some (naturalWidth, naturalHeight) =>
    let layout := paddedLayout targetAspectRatio naturalWidth naturalHeight in
    if hasContext browser then
      inr (toDataURL browser "image/png" None
             (elementWidth layout, elementHeight layout) (Some "#00ff00") src
             (drawX layout, drawY layout, finalImgWidth layout, finalImgHeight layout))
    else inl (newError "Could not get canvas context")
  end.

End Raster.

(** ** Merging the selected objects into one image *)

Module Merging.
Import Geometry Layers Model Interaction Packing Viewport.

Definition item_y (i : CanvasItem) : Q :=
  match i with
  | ItemImage img => img_y img
  | ItemText txt => txt_y txt
  | ItemCanvas canvas => cv_y canvas
  end.

Definition item_width (i : CanvasItem) : Q :=
  match i with
  | ItemImage img => img_width img
  | ItemText txt => txt_width txt
  | ItemCanvas canvas => cv_width canvas
  end.

Definition item_height (i : CanvasItem) : Q :=
  match i with
  | ItemImage img => img_height img
  | ItemText txt => txt_height txt
  | ItemCanvas canvas => cv_height canvas
  end.

(** [Math.min(...values)] and [Math.max(...values)] of a non-empty list,
    given by its first value and the others. *)
Definition mathMin (first : Q) (others : list Q) : Q := foldl Qmin first others.
Definition mathMax (first : Q) (others : list Q) : Q := foldl Qmax first others.

(** An element appended to the capture container, with its [left] and [top]
    offsets, and the container with its size. *)
Record Placed := mkPlaced {
  p_item : CanvasItem;
  p_left : Q;
  p_top : Q
}.

Record Capture := mkCapture {
  c_width : Q;
  c_height : Q;
  c_elements : list Placed
}.

(** [allSelectedObjects] of [handleMergeSelected]. *)
Definition allSelectedObjects (s : AppState) : list CanvasItem :=
  (ItemImage <$> selectedImagesOf (doc s) (sel s))
  ++ (ItemText <$> selectedTextsOf (doc s) (sel s))
  ++ (ItemCanvas <$> selectedCanvasesOf (doc s) (sel s)).

(** The element made for an object: an image has a [src], a text has a
    [content]; a drawing canvas gets one when it has the [drawingSrc] key. *)
Definition hasElement (obj : CanvasItem) : bool :=
  match obj with
  | ItemCanvas canvas => bool_decide (drawingSrc canvas ≠ None)
  | _ => true
  end.

(** The first part of [handleMergeSelected]: [minX], [minY] and the capture
    container; [None] when at most one object is selected. *)
Definition captureContainer (s : AppState) : option (Q * Q * Capture) :=
  match allSelectedObjects s with
  | first :: ((_ :: _) as others) =>
    let minX := mathMin (item_x first) (item_x <$> others) in
    let minY := mathMin (item_y first) (item_y <$> others) in
    let maxX := mathMax (item_x first + item_width first)%Q
                  ((λ obj, item_x obj + item_width obj)%Q <$> others) in
    let maxY := mathMax (item_y first + item_height first)%Q
                  ((λ obj, item_y obj + item_height obj)%Q <$> others) in
    let captureWidth := (maxX - minX)%Q in
    let captureHeight := (maxY - minY)%Q in
    Some (minX, minY,
          {| c_width := captureWidth; c_height := captureHeight;
             c_elements :=
               (λ obj, {| p_item := obj; p_left := (item_x obj - minX)%Q;
                          p_top := (item_y obj - minY)%Q |})
                 <$> List.filter hasElement (first :: others) |})
  | _ => None
  end.

Definition mergeFailedNotice : string := "Could not merge items. See console for details.".

(** [handleMergeSelected]: the state after the handler and the image load it
    started; [html2canvas] gives the data URL of the rendered container
    ([None]: it throws). *)
Definition handleMergeSelected (html2canvas : Capture → option string) (s : AppState)
  : AppState * list PendingLoad :=
  match captureContainer s with
  | None => (s, [])
  | Some (minX, minY, container) =>
    match html2canvas container with
    | Some mergedImageSrc =>
        (s |> deleteImages (selectedImageIds (sel s))
           |> deleteTextObjects (selectedTextIds (sel s))
           |> deleteDrawingCanvases (selectedDrawingCanvasIds (sel s)),
         [addImageToCanvas s mergedImageSrc result
            {| o_prompt := None; o_targetAspectRatio := None;
               o_x := Some minX; o_y := Some minY;
               o_width := Some (c_width container);
               o_height := Some (c_height container); o_id := None |}])
    | None => (s |> alert mergeFailedNotice, [])
    end
  end.

(** The state once the merged image has loaded. *)
Definition mergeSelected (browser : Browser) (now : string)
    (html2canvas : Capture → option string) (s : AppState) : AppState :=
  let '(s1, loads) := handleMergeSelected html2canvas s in
  foldl (λ acc p, onImageLoad browser now p acc) s1 loads.

End Merging.

(** ** Keyboard shortcuts for the tools *)

Module Shortcuts.
Import Model Interaction Viewport.

(** The part of a keyboard event the handlers read. *)
Record KeyEvent := mkKey {
  code : string;
  key : string;
  repeat : bool;
  metaKey : bool;
  ctrlKey : bool
}.

(** [handleKeyDown] of [App]; [inputFocused] says whether the active element
    is an input or a text area, and the second component of the state is
    [previousToolRef.current]. *)
Definition handleKeyDown (inputFocused : bool) (e : KeyEvent) (st : AppState * Tool)
  : AppState * Tool :=
  let '(s, previousTool) := st in
  let activeTool := activeTool (ui s) in
  if inputFocused then st
  else if repeat e then st
  else
    let byKey (s1 : AppState) : AppState * Tool :=
      if decide (key e = " ") then
        if negb (isPanTool activeTool) then (s1 |> setActiveTool pan, activeTool)
        else (s1, previousTool)
      else if bool_decide (key e = "Control") || bool_decide (key e = "Meta") then
        if negb (isSelectTool activeTool) then (s1 |> setActiveTool select, activeTool)
        else (s1, previousTool)
      else (s1, previousTool) in
    if decide (code e = "KeyV") then byKey (s |> setActiveTool select)
    else if decide (code e = "KeyA") then byKey (s |> setActiveTool pan)
    else if decide (code e = "KeyP") then byKey (s |> setActiveTool pen)
    else if decide (code e = "KeyE") then byKey (s |> setActiveTool eraser)
    else if decide (code e = "KeyT") then
      if metaKey e || ctrlKey e then st else byKey (s |> setActiveTool text)
    else byKey s.

(** [handleKeyUp]. *)
Definition handleKeyUp (e : KeyEvent) (st : AppState * Tool) : AppState * Tool :=
  let '(s, previousTool) := st in
  if decide (key e = " ") then
    if negb (isPanTool previousTool) then (s |> setActiveTool previousTool, previousTool)
    else st
  else if bool_decide (key e = "Control") || bool_decide (key e = "Meta") then
    if negb (isSelectTool previousTool) then (s |> setActiveTool previousTool, previousTool)
    else st
  else st.

End Shortcuts.

(** ** The generation service ([geminiService.ts]) over the API client *)

Module GeminiService.
Import Model Text Generation.

(** A part of a request or of a response. *)
Inductive Part :=
  | TextPart (content : string)
  | InlineData (mimeType data : string).

(** A request of [ai.models.generateContent]: the model, the parts and the
    aspect ratio of the image configuration, if any. *)
Record Request := mkRequest {
  rq_model : string;
  rq_parts : list Part;
  rq_aspectRatio : option string
}.

(** What the functions read of a response: [candidates] with the
    [finishReason] and the [content.parts] of each, and [text]. *)
Record Candidate := mkCandidate {
  finishReason : option string;
  contentParts : option (list Part)
}.

Record Response := mkResponse {
  candidates : option (list Candidate);
  responseText : option string
}.

(** A response of [ai.models.generateImages]: the [imageBytes] of the
    generated images. *)
Record ImagesResponse := mkImagesResponse {
  generatedImages : option (list (option string))
}.

(** The API client. *)
Record Client := mkClient {
  generateContent : Request → JsError + Response;
  generateImages : string → string → option string → JsError + ImagesResponse
}.

(** [response.candidates?.[0]]. *)
Definition firstCandidate (response : Response) : option Candidate :=
  match candidates response with
  | Some (candidate :: _) => Some candidate
  | _ => None
  end.

(** [candidate?.finishReason]. *)
Definition finishReasonOf (candidate : option Candidate) : option string :=
  match candidate with
  | Some c => finishReason c
  | None => None
  end.

(** The explicit check for a blocked candidate. *)
Definition blockedError (candidate : option Candidate) : option JsError :=
  match finishReasonOf candidate with
  | Some reason =>
      if bool_decide (reason = "SAFETY") then
        Some (newError "SAFETY_BLOCK: The request was blocked by safety filters.")
      else if bool_decide (reason = "PROHIBITED_CONTENT") then
        Some (newError "PROHIBITED_CONTENT: The request was blocked because it contains prohibited content.")
      else if bool_decide (reason = "BLOCKLIST") then
        Some (newError "BLOCKLIST: The request was blocked by blocklist.")
      else if bool_decide (reason = "RECITATION") then
        Some (newError "RECITATION: The request was blocked due to recitation.")
      else None
  | None => None
  end.

(** [for (const part of candidate.content.parts) if (part.inlineData)
    return part.inlineData.data]. *)
Fixpoint firstInlineData (parts : list Part) : option string :=
  match parts with
  | [] => None
  | InlineData _ data :: _ => Some data
  | TextPart _ :: rest => firstInlineData rest
  end.

Definition imageOf (candidate : option Candidate) : option string :=
  match candidate with
  | Some c =>
      match contentParts c with
      | Some parts => firstInlineData parts
      | None => None
      end
  | None => None
  end.

Definition aspectConfig (aspectRatio : string) : option string :=
  if truthy aspectRatio then Some aspectRatio else None.

(** [editImage]. *)
Definition editImage (ai : Client) (prompt : string) (images : list Ref) (model : string)
    (maskPart : option Ref) (aspectRatio : string) : JsError + string :=
  let parts :=
    [TextPart prompt]
    ++ ((λ image, InlineData (mimeType image) (base64Data image)) <$> images)
    ++ match maskPart with
       | Some mask => [InlineData (mimeType mask) (base64Data mask)]
       | None => []
       end in
  match generateContent ai {| rq_model := model; rq_parts := parts;
                              rq_aspectRatio := aspectConfig aspectRatio |} with
  | inl error => inl error
  | inr response =>
    let candidate := firstCandidate response in
    match blockedError candidate with
    | Some error => inl error
    | None =>
      match imageOf candidate with
      | Some data => inr data
      | None => inl (newError "No edited image was returned from the API. The model might have been blocked or returned text.")
      end
    end
  end.

(** [generateImage]. *)
Definition generateImage (ai : Client) (prompt model aspectRatio : string)
  : JsError + string :=
  if includes model "gemini" || includes model "flash" || includes model "pro-image" then
    match generateContent ai {| rq_model := model; rq_parts := [TextPart prompt];
                                rq_aspectRatio := aspectConfig aspectRatio |} with
    | inl error => inl error
    | inr response =>
      let candidate := firstCandidate response in
      match blockedError candidate with
      | Some error => inl error
      | None =>
        match imageOf candidate with
        | Some data => inr data
        | None => inl (newError "No image generated. The model might have returned text instead of an image, or the content was filtered.")
        end
      end
    end
  else
    let enhancedPrompt :=
      prompt +:+ " . Photorealistic, 8k, highly detailed, professional photography, natural lighting." in
    match generateImages ai "imagen-4.0-generate-001" enhancedPrompt
            (aspectConfig aspectRatio) with
    | inl error => inl error
    | inr response =>
      match generatedImages response with
      | Some (Some imageBytes :: _) =>
          if truthy imageBytes then inr imageBytes
          else inl (newError "No images were generated. This might be due to safety filters.")
      | _ => inl (newError "No images were generated. This might be due to safety filters.")
      end
    end.

(** [names.join(', ')]. *)
Fixpoint join (sep : string) (names : list string) : string :=
  match names with
  | [] => ""
  | [name] => name
  | name :: rest => name +:+ sep +:+ join sep rest
  end.

(** [list.includes(name)]. *)
Definition listIncludes (names : list string) (name : string) : bool :=
  bool_decide (name ∈ names).

(** [parsePromptForEntities]; [trim] is [String.prototype.trim] and
    [parseNames] is [JSON.parse] followed by the reading of [characterName]
    and [backgroundName] ([None]: one of them throws). *)
Definition parsePromptForEntities (trim : string → string)
    (parseNames : string → option (option string * option string))
    (ai : Client) (prompt : string) (characterNames backgroundNames : list string)
  : option string * option string :=
  match characterNames, backgroundNames with
  | [], _ | _, [] => (None, None)
  | _, _ =>
    let contents :=
      "User Prompt: " +:+ dquote +:+ prompt +:+ dquote +:+ newline +:+ newline
      +:+ "Character List: [" +:+ join ", " characterNames +:+ "]" +:+ newline
      +:+ "Background List: [" +:+ join ", " backgroundNames +:+ "]" in
    match generateContent ai {| rq_model := "gemini-2.5-flash";
                                rq_parts := [TextPart contents];
                                rq_aspectRatio := None |} with
    | inl _ => (None, None)
    | inr response =>
      match responseText response with
      | None => (None, None)
      | Some answer =>
        let jsonText := trim answer in
        if negb (truthy jsonText) then (None, None)
        else
          match parseNames jsonText with
          | None => (None, None)
          | Some (characterName, backgroundName) =>
            let validCharName :=
              if truthyOpt characterName
                 && listIncludes characterNames (default "" characterName)
              then characterName else None in
            let validBgName :=
              if truthyOpt backgroundName
                 && listIncludes backgroundNames (default "" backgroundName)
              then backgroundName else None in
            (validCharName, validBgName)
          end
      end
    end
  end.

(** One round of polling in [generateVideo]: the inner loop
    [while (pollRetryCount < maxPollRetries)].  [poll n] is the outcome of
    the n-th call of [getVideosOperation] of the round; the result comes
    with the number of calls made and the pauses slept. *)
Definition maxPollRetries : nat := 3.

(** [pollError.message || JSON.stringify(pollError)]. *)
Definition pollMessage (pollError : JsError) : string :=
  if truthyOpt (e_message pollError) then default "" (e_message pollError)
  else e_json pollError.

Definition isTransient (pollError : JsError) : bool :=
  includes (pollMessage pollError) "503" || includes (pollMessage pollError) "UNAVAILABLE".

Fixpoint pollFrom {A} (poll : nat → JsError + A) (remaining pollRetryCount : nat)
  : option (JsError + A) * nat * list Z :=
  match remaining with
  | 0 => (None, 0, [])
  | S rest =>
    match poll pollRetryCount with
    | inr operation => (Some (inr operation), 1, [])
    | inl pollError =>
        if isTransient pollError && bool_decide (pollRetryCount < maxPollRetries - 1) then
          let '(outcome, calls, pauses) := pollFrom poll rest (S pollRetryCount) in
          (outcome, S calls, 5000%Z :: pauses)
        else (Some (inl pollError), 1, [])
    end
  end.

Definition pollRound {A} (poll : nat → JsError + A) : option (JsError + A) * nat * list Z :=
  pollFrom poll maxPollRetries 0.

End GeminiService.

(** ** The context menu over the selection, and the selection by kind *)

Module Overlay.
Import Geometry Layers Model Interaction Packing Viewport Merging.

(** [selectedImages[0].classification === 'video']. *)
Definition firstIsVideo (selectedImages : list ImageObject) : bool :=
  match selectedImages with
  | img :: _ => match classification img with video => true | _ => false end
  | [] => false
  end.

(** The effect of the canvas component that places the context menu:
    the value it gives [setMergeButtonPosition] ([None] for [null]). *)
Definition mergeButtonPosition (s : AppState) : option (Q * Q) :=
  let totalSelected :=
    length (selectedImageIds (sel s)) + length (selectedTextIds (sel s))
    + length (selectedDrawingCanvasIds (sel s)) in
  if bool_decide (1 ≤ totalSelected) then
    let selectedImages := selectedImagesOf (doc s) (sel s) in
    if bool_decide (totalSelected = 1) && bool_decide (length selectedImages = 1)
       && firstIsVideo selectedImages
    then None
    else
      match allSelectedObjects s with
      | first :: others =>
          let minX := mathMin (item_x first) (item_x <$> others) in
          let minY := mathMin (item_y first) (item_y <$> others) in
          let maxX := mathMax (item_x first + item_width first)%Q
                        ((λ obj, item_x obj + item_width obj)%Q <$> others) in
          Some ((minX + (maxX - minX) / 2)%Q, minY)
      | [] => None
      end
  else None.

(** The selected ids of one kind of node. *)
Definition selectedOf (k : NodeKind) (x : Selection) : list string :=
  match k with
  | node_image => selectedImageIds x
  | node_text => selectedTextIds x
  | node_drawingCanvas => selectedDrawingCanvasIds x
  end.

End Overlay.

(** ** Concrete gestures, scenes and service answers, for running the
    editing and service models *)

Module Gallery.
Import Geometry Layers Model Interaction Packing Text Generation Scenario.
Import Viewport Updates Nodes Raster Merging Shortcuts GeminiService.

(** A view zoomed to 200 % and panned, and a canvas element placed below a
    header and beside a tool bar. *)
Definition zoomedView : CanvasTransform := {| t_x := 40; t_y := -25; t_scale := 2 |}.
Definition canvasRect : Rect := {| r_left := 64; r_top := 48 |}.

(** A mouse event on the canvas background. *)
Definition pressAt (x y : Q) : MouseEvent :=
  {| mouseX := x; mouseY := y; onBackground := true |}.

(** Two images and a caption, nothing selected, with each of three tools. *)
Definition panScene : AppState :=
  initialState "key"
    |> setImages (const [imageAt "a" 50; imageAt "b" 400])
    |> setTextObjects (const [textAt "t" 10])
    |> setLayerOrder (const ["a"; "b"; "t"]).

Definition selectScene : AppState := panScene |> setActiveTool select.
Definition textScene : AppState := panScene |> setActiveTool text.

(** The same objects with one image and the caption selected. *)
Definition mergeScene : AppState :=
  panScene |> setSelectedImageIds (const ["b"]) |> setSelectedTextIds (const ["t"]).

(** The select tool with one image selected. *)
Definition pickedScene : AppState := selectScene |> setSelectedImageIds (const ["a"]).

(** A renderer that answers with a fixed picture. *)
Definition snapshot : Capture → option string := λ _, Some "data:image/png;base64,MERGED".

(** A browser that decodes every source to a landscape photograph of 2752
    by 1376 pixels. *)
Definition photoStudio : Canvas2d :=
  {| decode := λ _, Some (2752, 1376)%Q;
     hasContext := true;
     toDataURL := λ type _ _ _ _ _, "data:" +:+ type +:+ ";base64,PIXELS" |}.

(** The space bar, pressed and released. *)
Definition spaceBar : KeyEvent :=
  {| code := "Space"; key := " "; repeat := false; metaKey := false; ctrlKey := false |}.

(** An archive written before layers, ratio and transform were saved. *)
Definition legacyProject : Serialization.ProjectData :=
  {| Serialization.pd_version := 1; Serialization.pd_projectName := None;
     Serialization.pd_images := Some []; Serialization.pd_textObjects := None;
     Serialization.pd_drawingCanvases := Some []; Serialization.pd_layerOrder := None;
     Serialization.pd_aspectRatio := None; Serialization.pd_transform := None |}.

Definition legacyArchive : Serialization.ProjectFile Serialization.ProjectData :=
  {| Serialization.f_name := "holiday.story";
     Serialization.f_zip :=
       Some {[ "project.json" := Serialization.TextEntry Serialization.ProjectData
                                   legacyProject ]} |}.

(** A client whose content model reports a blocked candidate and whose image
    model returns no image. *)
Definition blockedResponse : Response :=
  {| candidates := Some [{| finishReason := Some "SAFETY"; contentParts := None |}];
     responseText := None |}.

Definition noImages : ImagesResponse := {| generatedImages := Some [] |}.

Definition refusingClient : Client :=
  {| generateContent := λ _, inr blockedResponse;
     generateImages := λ _ _ _, inr noImages |}.

(** A character with model sheet, two pose slots (one filled), a video and
    a painted mask, and a drawing canvas with strokes; every payload is a
    data URL over the letters codec. *)
Definition archivedImage : ImageObject :=
  {| img_id := "img_1"; img_src := "data:image/png;base64,AAAA";
     img_x := 0; img_y := 0; img_width := 900; img_height := 1600;
     naturalWidth := 900; naturalHeight := 1600; classification := character;
     img_name := Some "Mina"; img_prompt := None; targetAspectRatio := None;
     modelSheetSrc := Some "data:image/png;base64,FACE";
     poses := Some [Some "data:image/jpeg;base64,DEAD"; None];
     videoSrc := Some "data:video/mp4;base64,CAFE";
     maskSrc := Some "data:image/png;base64,BEEF";
     poseIndex := None; poseSrc := None |}.

Definition archivedCanvas : DrawingCanvasObject :=
  {| cv_id := "canvas_1"; cv_x := 1200; cv_y := 0; cv_width := 1024; cv_height := 1820;
     drawingSrc := Some "data:image/png;base64,FEED" |}.

Definition archiveScene : AppState :=
  initialState "key"
    |> setImages (const [archivedImage; imageAt "a" 50])
    |> setTextObjects (const [textAt "t" 10])
    |> setDrawingCanvases (const [archivedCanvas])
    |> setLayerOrder (const ["img_1"; "a"; "t"; "canvas_1"])
    |> setSelectedImageIds (const ["img_1"]).

(** The masked scene after a generated video has been placed beside its
    source image: the video is held by an object URL. *)
Definition videoScene : AppState :=
  handleAddVideoToCanvas "2" (Some maskedImage)
    "blob:http://localhost:3000/6f1c2a9e-5d0b-4c57-9a53-0f3f6f0c8e11" ar_9_16 maskedScene.

(** A blank drawing canvas at x = 10 and an image at x = 50, both
    selected. *)
Definition canvasAndImageDoc : Document :=
  {| images := [imageAt "a" 50]; textObjects := [];
     drawingCanvases := [{| cv_id := "canvas_1"; cv_x := 10; cv_y := 0; cv_width := 1024;
                            cv_height := 1820; drawingSrc := None |}];
     layerOrder := ["a"; "canvas_1"]; aspectRatio := ar_9_16;
     transform := {| t_x := 0; t_y := 0; t_scale := 1 |};
     projectName := "Untitled Story" |}.

Definition canvasAndImageSelection : Selection :=
  {| selectedImageIds := ["a"]; selectedTextIds := [];
     selectedDrawingCanvasIds := ["canvas_1"] |}.

(** The masked scene with the 1:1 target. *)
Definition squareTargetScene : AppState := maskedScene |> setAspectRatio ar_1_1.

(** Two dropped files whose images finish loading within the same
    millisecond. *)
Definition sameInstantLoads : AppState :=
  Lifecycle.run browser
    [Lifecycle.OpImageLoaded "1700000000000"
       (addImageToCanvas (initialState "key") "data:image/png;base64,AAAA" original
          noOptions);
     Lifecycle.OpImageLoaded "1700000000000"
       (addImageToCanvas (initialState "key") "data:image/png;base64,BBBB" original
          noOptions)]
    (initialState "key").

End Gallery.

(** * Properties *)

Section GeometryFacts.
Import Geometry.

Lemma clampScale_lower v : (0.1 <= clampScale v)%Q.
Proof.
  unfold clampScale. apply Q.min_glb.
  - apply Q.le_max_l.
  - unfold Qle; simpl; lia.
Qed.

Lemma clampScale_upper v : (clampScale v <= 5)%Q.
Proof. unfold clampScale. apply Q.le_min_r. Qed.

Lemma clampScale_nonzero v : ~ (clampScale v == 0)%Q.
Proof.
  intros H. pose proof (clampScale_lower v) as Hl. rewrite H in Hl.
  unfold Qle in Hl; simpl in Hl; lia.
Qed.

Lemma anchored_axis (p o s n : Q) :
  ~ (s == 0)%Q -> ~ (n == 0)%Q ->
  ((p - (p - (p - o) * (n / s))) / n == (p - o) / s)%Q.
Proof. intros Hs Hn. field. split; assumption. Qed.

(** C1. Zooming with the wheel at a screen point [P] (taken relative to the
    canvas element) clamps the new scale to [0.1, 5], moves the origin to
    [P - (P - origin) * (newScale / oldScale)], and leaves the canvas point
    under [P] where it was. *)
Theorem zoom_keeps_point_under_cursor (T : CanvasTransform) (e : WheelEvent) (rect : Rect) :
  (0.1 <= t_scale T)%Q -> (t_scale T <= 5)%Q ->
  let P := ((clientX e - r_left rect)%Q, (clientY e - r_top rect)%Q) in
  let delta := (- deltaY e * 0.001)%Q in
  let T' := handleWheel T e rect in
  t_scale T' = Qmin (Qmax 0.1 (t_scale T + delta)) 5
  /\ (0.1 <= t_scale T' <= 5)%Q
  /\ t_x T' = (fst P - (fst P - t_x T) * (t_scale T' / t_scale T))%Q
  /\ t_y T' = (snd P - (snd P - t_y T) * (t_scale T' / t_scale T))%Q
  /\ (fst (screenToCanvas P T') == fst (screenToCanvas P T))%Q
  /\ (snd (screenToCanvas P T') == snd (screenToCanvas P T))%Q.
Proof.
  intros Hlo Hhi P delta T'.
  assert (Hs : ~ (t_scale T == 0)%Q).
  { intros H. rewrite H in Hlo. unfold Qle in Hlo; simpl in Hlo; lia. }
  repeat split.
  - apply clampScale_lower.
  - apply clampScale_upper.
  - apply anchored_axis; [exact Hs | apply clampScale_nonzero].
  - apply anchored_axis; [exact Hs | apply clampScale_nonzero].
Qed.

Lemma zoom_keeps_point_under_cursor_witness :
  let T := {| t_x := 0; t_y := 0; t_scale := 0.2 |} in
  let e := {| deltaY := -100; clientX := 10; clientY := 20 |} in
  let rect := {| r_left := 0; r_top := 0 |} in
  (fst (screenToCanvas (10 - 0, 20 - 0) (handleWheel T e rect))
   == fst (screenToCanvas (10 - 0, 20 - 0) T))%Q.
Proof.
  intros T e rect.
  destruct (zoom_keeps_point_under_cursor T e rect) as (_ & _ & _ & _ & H & _).
  - unfold Qle; simpl; lia.
  - unfold Qle; simpl; lia.
  - exact H.
Defined.

End GeometryFacts.

Section LayerFacts.
Import Layers Model Interaction.

Lemma handleMoveToFront_last id prev : last (handleMoveToFront id prev) = Some id.
Proof.
  unfold handleMoveToFront, lastId. case_decide; [done | apply last_snoc].
Qed.

Lemma handleMoveToFront_others id prev :
  filter (λ item, item ≠ id) (handleMoveToFront id prev) = filter (λ item, item ≠ id) prev.
Proof.
  unfold handleMoveToFront. case_decide; [done |].
  rewrite filter_app, list_filter_filter. simpl.
  rewrite filter_cons_False by (intros ?; congruence).
  rewrite filter_nil, app_nil_r.
  apply list_filter_iff. intros x; tauto.
Qed.

(** C7. Moving an id to the front twice in a row gives the same layer order
    as moving it once. *)
Theorem handleMoveToFront_idempotent (id : string) (prev : list string) :
  handleMoveToFront id (handleMoveToFront id prev) = handleMoveToFront id prev.
Proof.
  pose proof (handleMoveToFront_last id prev) as Hlast.
  unfold handleMoveToFront at 1. unfold lastId.
  case_decide; [done | contradiction].
Qed.

Lemma handleNodeSelect_layerOrder shiftKey id k s :
  layerOrder (doc (handleNodeSelect shiftKey id k s))
  = handleMoveToFront id (layerOrder (doc s)).
Proof.
  unfold handleNodeSelect, selectOnly.
  destruct (activeTool (ui s)), shiftKey, k; simpl;
    repeat match goal with |- context [if ?b then _ else _] => destruct b; simpl end;
    reflexivity.
Qed.

(** C10. Whatever the tool, the modifier key and the kind of the node, the
    selection handler a node's pointer-down calls moves the node's id to the
    end of the layer order; the other ids keep their relative order. *)
Theorem select_moves_to_front (shiftKey : bool) (id : string) (k : NodeKind) (s : AppState) :
  let s' := handleNodeSelect shiftKey id k s in
  layerOrder (doc s') = handleMoveToFront id (layerOrder (doc s))
  ∧ last (layerOrder (doc s')) = Some id
  ∧ filter (λ item, item ≠ id) (layerOrder (doc s'))
    = filter (λ item, item ≠ id) (layerOrder (doc s)).
Proof.
  simpl. rewrite handleNodeSelect_layerOrder. split; [done |]. split.
  - apply handleMoveToFront_last.
  - apply handleMoveToFront_others.
Qed.

End LayerFacts.

Section LifecycleFacts.
Import Layers Model Interaction Lifecycle.
Variable browser : Browser.

Lemma selectionLive_onImageLoad now p s :
  selectionLive s → selectionLive (onImageLoad browser now p s).
Proof.
  unfold onImageLoad, selectionLive, imageIds, textIds, canvasIds.
  destruct (decodeSize browser (pl_src p)) as [[nw nh]|]; simpl; [| done].
  intros _. rewrite fmap_app. simpl. set_solver.
Qed.

Lemma selectionLive_addTextToCanvas now x y s :
  selectionLive s → selectionLive (addTextToCanvas now x y s).
Proof.
  unfold addTextToCanvas, selectionLive, imageIds, textIds, canvasIds. simpl.
  intros _. rewrite fmap_app. simpl. set_solver.
Qed.

Lemma selectionLive_addDrawingCanvas now s :
  selectionLive s → selectionLive (addDrawingCanvas browser now s).
Proof.
  unfold addDrawingCanvas, selectionLive, imageIds, textIds, canvasIds.
  destruct (ratioParts _) as [w h]. destruct (Qle_bool _ _); simpl;
    intros _; rewrite fmap_app; simpl; set_solver.
Qed.

Lemma selectionLive_handleAddVideoToCanvas now source v r s :
  selectionLive s → selectionLive (handleAddVideoToCanvas now source v r s).
Proof.
  unfold handleAddVideoToCanvas, selectionLive, imageIds, textIds, canvasIds.
  destruct source; simpl; [| done].
  intros (_ & ? & ?). rewrite fmap_app. simpl. set_solver.
Qed.

Lemma selectionLive_deleteImages ids s :
  selectionLive s → selectionLive (deleteImages ids s).
Proof.
  unfold deleteImages, selectionLive, imageIds, textIds, canvasIds.
  destruct ids; simpl; [done |]. intros (_ & ? & ?). set_solver.
Qed.

Lemma selectionLive_deleteTextObjects ids s :
  selectionLive s → selectionLive (deleteTextObjects ids s).
Proof.
  unfold deleteTextObjects, selectionLive, imageIds, textIds, canvasIds.
  destruct ids; simpl; [done |]. intros (? & _ & ?). set_solver.
Qed.

Lemma selectionLive_deleteDrawingCanvases ids s :
  selectionLive s → selectionLive (deleteDrawingCanvases ids s).
Proof.
  unfold deleteDrawingCanvases, selectionLive, imageIds, textIds, canvasIds.
  destruct ids; simpl; [done |]. intros (? & ? & _). set_solver.
Qed.

Lemma pressDelete_unfold s :
  pressDelete s
  = deleteDrawingCanvases (selectedDrawingCanvasIds (sel s))
      (deleteTextObjects (selectedTextIds (sel s))
         (deleteImages (selectedImageIds (sel s)) s)).
Proof.
  unfold pressDelete.
  destruct (selectedImageIds (sel s)), (selectedTextIds (sel s)),
    (selectedDrawingCanvasIds (sel s)); reflexivity.
Qed.

Lemma selectionLive_step op s : selectionLive s → selectionLive (step browser op s).
Proof.
  destruct op; simpl.
  - apply selectionLive_onImageLoad.
  - apply selectionLive_addTextToCanvas.
  - apply selectionLive_addDrawingCanvas.
  - apply selectionLive_handleAddVideoToCanvas.
  - apply selectionLive_deleteImages.
  - apply selectionLive_deleteTextObjects.
  - apply selectionLive_deleteDrawingCanvases.
  - rewrite pressDelete_unfold. intros H.
    by apply selectionLive_deleteDrawingCanvases, selectionLive_deleteTextObjects,
      selectionLive_deleteImages.
  - unfold dropOnTrash. intros H.
    by apply selectionLive_deleteDrawingCanvases, selectionLive_deleteTextObjects,
      selectionLive_deleteImages.
Qed.

Lemma selectionLive_run ops s : selectionLive s → selectionLive (run browser ops s).
Proof.
  unfold run. revert s. induction ops as [| op ops IH]; intros s Hs; simpl; [done |].
  apply IH, selectionLive_step, Hs.
Qed.

Lemma fmap_filter_key {A B} (f : A → B) (P : B → Prop)
    `{!∀ y, Decision (P y)} `{!∀ x, Decision (P (f x))} (l : list A) :
  f <$> filter (λ x, P (f x)) l = filter P (f <$> l).
Proof.
  induction l as [| a l IH]; [done |].
  rewrite fmap_cons, !filter_cons.
  repeat case_decide; try contradiction; [rewrite fmap_cons |]; by rewrite IH.
Qed.

Lemma filter_all {A} (P : A → Prop) `{∀ y, Decision (P y)} (l : list A) :
  (∀ x, x ∈ l → P x) → filter P l = l.
Proof.
  induction l as [| a l IH]; intros Hall; [done |].
  rewrite filter_cons_True by (apply Hall; left).
  f_equal. apply IH. intros x Hx. apply Hall. by right.
Qed.

Lemma layersExact_add s s' id :
  liveIds s' ≡ₚ id :: liveIds s →
  layerOrder (doc s') = layerOrder (doc s) ++ [id] →
  id ∉ liveIds s →
  layersExact s → layersExact s'.
Proof.
  intros Hlive Hlayer Hfresh [Hnd Hperm]. split.
  - rewrite Hlive. by apply NoDup_cons.
  - rewrite Hlayer, Hlive, Hperm. by rewrite <- Permutation_cons_append.
Qed.

Lemma layersExact_remove s s' (ids : list string) :
  liveIds s' = filter (λ id, id ∉ ids) (liveIds s) →
  layerOrder (doc s') = filter (λ id, id ∉ ids) (layerOrder (doc s)) →
  layersExact s → layersExact s'.
Proof.
  intros Hlive Hlayer [Hnd Hperm]. split.
  - rewrite Hlive. by apply NoDup_filter.
  - by rewrite Hlayer, Hlive, Hperm.
Qed.

Lemma layersExact_onImageLoad now p s :
  respectsIdentity browser (OpImageLoaded now p) s →
  layersExact s → layersExact (onImageLoad browser now p s).
Proof.
  unfold respectsIdentity, addedId, onImageLoad.
  destruct (decodeSize browser (pl_src p)) as [[nw nh]|]; [| done].
  intros Hfresh. eapply layersExact_add; [| reflexivity | by apply Hfresh].
  unfold liveIds, imageIds, textIds, canvasIds. simpl. rewrite fmap_app. simpl.
  rewrite <- app_assoc. simpl. by rewrite <- Permutation_middle.
Qed.

Lemma layersExact_addTextToCanvas now x y s :
  respectsIdentity browser (OpAddText now x y) s →
  layersExact s → layersExact (addTextToCanvas now x y s).
Proof.
  unfold respectsIdentity, addedId, addTextToCanvas.
  intros Hfresh. eapply layersExact_add; [| reflexivity | by apply Hfresh].
  unfold liveIds, imageIds, textIds, canvasIds. simpl. rewrite fmap_app. simpl.
  rewrite <- app_assoc. simpl. by rewrite <- !Permutation_middle.
Qed.

Lemma layersExact_addDrawingCanvas now s :
  respectsIdentity browser (OpAddDrawingCanvas now) s →
  layersExact s → layersExact (addDrawingCanvas browser now s).
Proof.
  unfold respectsIdentity, addedId, addDrawingCanvas.
  intros Hfresh. destruct (ratioParts _) as [w h].
  destruct (Qle_bool _ _);
    (eapply layersExact_add; [| reflexivity | by apply Hfresh]);
    unfold liveIds, imageIds, textIds, canvasIds; simpl; rewrite fmap_app; simpl;
    rewrite !app_assoc; by rewrite <- Permutation_cons_append.
Qed.

Lemma layersExact_handleAddVideoToCanvas now source v r s :
  respectsIdentity browser (OpAddVideo now source v r) s →
  layersExact s → layersExact (handleAddVideoToCanvas now source v r s).
Proof.
  unfold respectsIdentity, addedId, handleAddVideoToCanvas.
  destruct source as [src |]; [| done].
  intros Hfresh. eapply layersExact_add; [| reflexivity | by apply Hfresh].
  unfold liveIds, imageIds, textIds, canvasIds. simpl. rewrite fmap_app. simpl.
  rewrite <- app_assoc. simpl. by rewrite <- Permutation_middle.
Qed.

Lemma layersExact_deleteImages ids s :
  (∀ id, id ∈ ids → (id ∉ textIds s) ∧ (id ∉ canvasIds s)) →
  layersExact s → layersExact (deleteImages ids s).
Proof.
  intros Hkind. unfold deleteImages. destruct ids as [| i ids]; [done |].
  apply layersExact_remove with (ids := i :: ids); [| reflexivity].
  unfold liveIds, imageIds, textIds, canvasIds. simpl.
  rewrite !filter_app, (fmap_filter_key img_id (λ id, id ∉ i :: ids)).
  rewrite (filter_all _ (txt_id <$> _)), (filter_all _ (cv_id <$> _)); [done | |];
    intros x Hx Hin; by destruct (Hkind x Hin).
Qed.

Lemma layersExact_deleteTextObjects ids s :
  (∀ id, id ∈ ids → (id ∉ imageIds s) ∧ (id ∉ canvasIds s)) →
  layersExact s → layersExact (deleteTextObjects ids s).
Proof.
  intros Hkind. unfold deleteTextObjects. destruct ids as [| i ids]; [done |].
  apply layersExact_remove with (ids := i :: ids); [| reflexivity].
  unfold liveIds, imageIds, textIds, canvasIds. simpl.
  rewrite !filter_app, (fmap_filter_key txt_id (λ id, id ∉ i :: ids)).
  rewrite (filter_all _ (img_id <$> _)), (filter_all _ (cv_id <$> _)); [done | |];
    intros x Hx Hin; by destruct (Hkind x Hin).
Qed.

Lemma layersExact_deleteDrawingCanvases ids s :
  (∀ id, id ∈ ids → (id ∉ imageIds s) ∧ (id ∉ textIds s)) →
  layersExact s → layersExact (deleteDrawingCanvases ids s).
Proof.
  intros Hkind. unfold deleteDrawingCanvases. destruct ids as [| i ids]; [done |].
  apply layersExact_remove with (ids := i :: ids); [| reflexivity].
  unfold liveIds, imageIds, textIds, canvasIds. simpl.
  rewrite !filter_app, (fmap_filter_key cv_id (λ id, id ∉ i :: ids)).
  rewrite (filter_all _ (img_id <$> _)), (filter_all _ (txt_id <$> _)); [done | |];
    intros x Hx Hin; by destruct (Hkind x Hin).
Qed.

Lemma kinds_disjoint s :
  NoDup (liveIds s) →
  (∀ x, x ∈ imageIds s → (x ∉ textIds s) ∧ (x ∉ canvasIds s))
  ∧ (∀ x, x ∈ textIds s → (x ∉ imageIds s) ∧ (x ∉ canvasIds s))
  ∧ (∀ x, x ∈ canvasIds s → (x ∉ imageIds s) ∧ (x ∉ textIds s)).
Proof.
  unfold liveIds. rewrite !NoDup_app. intros (_ & Hi & _ & Ht & _).
  repeat split; intros Hx; set_solver.
Qed.

Lemma wellFormed_deleteImages ids s :
  ids ⊆ imageIds s → wellFormed s → wellFormed (deleteImages ids s).
Proof.
  intros Hsub [Hsel [Hnd Hperm]]. split.
  - by apply selectionLive_deleteImages.
  - apply layersExact_deleteImages; [| done].
    intros id Hid. by apply (kinds_disjoint s Hnd), Hsub.
Qed.

Lemma wellFormed_deleteTextObjects ids s :
  ids ⊆ textIds s → wellFormed s → wellFormed (deleteTextObjects ids s).
Proof.
  intros Hsub [Hsel [Hnd Hperm]]. split.
  - by apply selectionLive_deleteTextObjects.
  - apply layersExact_deleteTextObjects; [| done].
    intros id Hid. by apply (kinds_disjoint s Hnd), Hsub.
Qed.

Lemma wellFormed_deleteDrawingCanvases ids s :
  ids ⊆ canvasIds s → wellFormed s → wellFormed (deleteDrawingCanvases ids s).
Proof.
  intros Hsub [Hsel [Hnd Hperm]]. split.
  - by apply selectionLive_deleteDrawingCanvases.
  - apply layersExact_deleteDrawingCanvases; [| done].
    intros id Hid. by apply (kinds_disjoint s Hnd), Hsub.
Qed.

Lemma deleteImages_frame ids s :
  textIds (deleteImages ids s) = textIds s
  ∧ canvasIds (deleteImages ids s) = canvasIds s
  ∧ selectedTextIds (sel (deleteImages ids s)) = selectedTextIds (sel s)
  ∧ selectedDrawingCanvasIds (sel (deleteImages ids s)) = selectedDrawingCanvasIds (sel s).
Proof. unfold deleteImages. by destruct ids. Qed.

Lemma deleteTextObjects_frame ids s :
  imageIds (deleteTextObjects ids s) = imageIds s
  ∧ canvasIds (deleteTextObjects ids s) = canvasIds s
  ∧ selectedImageIds (sel (deleteTextObjects ids s)) = selectedImageIds (sel s)
  ∧ selectedDrawingCanvasIds (sel (deleteTextObjects ids s))
    = selectedDrawingCanvasIds (sel s).
Proof. unfold deleteTextObjects. by destruct ids. Qed.

Lemma wellFormed_deleteSelection s :
  wellFormed s →
  wellFormed
    (deleteDrawingCanvases (selectedDrawingCanvasIds (sel s))
       (deleteTextObjects (selectedTextIds (sel s))
          (deleteImages (selectedImageIds (sel s)) s))).
Proof.
  intros Hwf. pose proof Hwf as [(Hi & Ht & Hc) _].
  destruct (deleteImages_frame (selectedImageIds (sel s)) s) as (Et & Ec & _ & _).
  apply wellFormed_deleteDrawingCanvases.
  { destruct (deleteTextObjects_frame (selectedTextIds (sel s))
               (deleteImages (selectedImageIds (sel s)) s)) as (_ & Ec' & _ & _).
    by rewrite Ec', Ec. }
  apply wellFormed_deleteTextObjects; [by rewrite Et |].
  by apply wellFormed_deleteImages.
Qed.

Lemma wellFormed_step op s :
  wellFormed s → respectsIdentity browser op s → wellFormed (step browser op s).
Proof.
  intros Hwf Hresp. pose proof Hwf as [Hsel Hlay].
  destruct op; simpl.
  - split; [by apply selectionLive_onImageLoad | by apply layersExact_onImageLoad].
  - split; [by apply selectionLive_addTextToCanvas | by apply layersExact_addTextToCanvas].
  - split; [by apply selectionLive_addDrawingCanvas | by apply layersExact_addDrawingCanvas].
  - split; [by apply selectionLive_handleAddVideoToCanvas
           | by apply layersExact_handleAddVideoToCanvas].
  - split; [by apply selectionLive_deleteImages | by apply layersExact_deleteImages].
  - split; [by apply selectionLive_deleteTextObjects | by apply layersExact_deleteTextObjects].
  - split; [by apply selectionLive_deleteDrawingCanvases
           | by apply layersExact_deleteDrawingCanvases].
  - rewrite pressDelete_unfold. by apply wellFormed_deleteSelection.
  - by apply wellFormed_deleteSelection.
Qed.

Lemma wellFormed_run ops s :
  wellFormed s → allRespectIdentity browser ops s → wellFormed (run browser ops s).
Proof.
  unfold run. revert s. induction ops as [| op ops IH]; intros s Hwf Hall; [done |].
  destruct Hall as [Hop Hrest]. simpl. apply IH; [by apply wellFormed_step | done].
Qed.

Lemma occurrences_absent id (l : list string) : id ∉ l → occurrences id l = 0.
Proof.
  unfold occurrences. induction l as [| x l IH]; intros Hin; [done |].
  apply not_elem_of_cons in Hin as [Hne Hin].
  rewrite filter_cons_False by congruence. by apply IH.
Qed.

Lemma occurrences_NoDup id (l : list string) : NoDup l → id ∈ l → occurrences id l = 1.
Proof.
  induction 1 as [| x l Hx Hnd IH]; intros Hin.
  - by apply elem_of_nil in Hin.
  - unfold occurrences. rewrite filter_cons. case_decide as Hxi.
    + subst x. simpl. f_equal. by apply occurrences_absent.
    + apply elem_of_cons in Hin as [-> | Hin]; [done |]. by apply IH.
Qed.

Lemma occurrences_filter_kept id (ids l : list string) :
  id ∉ ids → occurrences id (filter (λ x, x ∉ ids) l) = occurrences id l.
Proof.
  intros Hid. unfold occurrences. rewrite list_filter_filter. f_equal.
  apply list_filter_iff. intros x. split; [tauto |]. intros ->. done.
Qed.

Lemma occurrences_filter_dropped id (ids l : list string) :
  id ∈ ids → occurrences id (filter (λ x, x ∉ ids) l) = 0.
Proof.
  intros Hid. apply occurrences_absent. rewrite list_elem_of_filter. tauto.
Qed.

Lemma layer_effect (ids : list string) id s :
  layersExact s → id ∈ ids → id ∈ liveIds s →
  occurrences id (layerOrder (doc s)) = 1
  ∧ occurrences id (filter (λ x, x ∉ ids) (layerOrder (doc s))) = 0
  ∧ ∀ other, other ∉ ids →
      occurrences other (filter (λ x, x ∉ ids) (layerOrder (doc s)))
      = occurrences other (layerOrder (doc s)).
Proof.
  intros [Hnd Hperm] Hid Hlive. repeat split.
  - apply occurrences_NoDup; by rewrite Hperm.
  - by apply occurrences_filter_dropped.
  - intros other Hother. by apply occurrences_filter_kept.
Qed.

Lemma deleteImages_removes ids id s :
  wellFormed s → id ∈ ids → id ∈ imageIds s →
  removedEverywhere ids id s (deleteImages ids s).
Proof.
  intros [(Hi & Ht & Hc) Hlay] Hid Hlive.
  destruct (kinds_disjoint s (proj1 Hlay)) as (Hdis & _ & _).
  destruct (Hdis id Hlive) as [Hnt Hnc].
  assert (Hne : deleteImages ids s
                = s |> setImages (λ prev, filter (λ img, img_id img ∉ ids) prev)
                    |> setLayerOrder (λ prev, filter (λ x, x ∉ ids) prev)
                    |> setSelectedImageIds (const [])).
  { unfold deleteImages. destruct ids; [by apply elem_of_nil in Hid | done]. }
  rewrite Hne. unfold removedEverywhere. simpl.
  split; [apply not_elem_of_nil |]. split; [set_solver |]. split; [set_solver |].
  split.
  - unfold liveIds, imageIds, textIds, canvasIds in *. simpl.
    rewrite (fmap_filter_key img_id (λ x, x ∉ ids)).
    rewrite !elem_of_app, list_elem_of_filter. tauto.
  - apply (layer_effect ids id s); [done | done |].
    unfold liveIds. rewrite elem_of_app. by left.
Qed.

Lemma deleteTextObjects_removes ids id s :
  wellFormed s → id ∈ ids → id ∈ textIds s →
  removedEverywhere ids id s (deleteTextObjects ids s).
Proof.
  intros [(Hi & Ht & Hc) Hlay] Hid Hlive.
  destruct (kinds_disjoint s (proj1 Hlay)) as (_ & Hdis & _).
  destruct (Hdis id Hlive) as [Hnt Hnc].
  assert (Hne : deleteTextObjects ids s
                = s |> setTextObjects (λ prev, filter (λ txt, txt_id txt ∉ ids) prev)
                    |> setLayerOrder (λ prev, filter (λ x, x ∉ ids) prev)
                    |> setSelectedTextIds (const [])).
  { unfold deleteTextObjects. destruct ids; [by apply elem_of_nil in Hid | done]. }
  rewrite Hne. unfold removedEverywhere. simpl.
  split; [set_solver |]. split; [apply not_elem_of_nil |]. split; [set_solver |].
  split.
  - unfold liveIds, imageIds, textIds, canvasIds in *. simpl.
    rewrite (fmap_filter_key txt_id (λ x, x ∉ ids)).
    rewrite !elem_of_app, list_elem_of_filter. tauto.
  - apply (layer_effect ids id s); [done | done |].
    unfold liveIds. rewrite !elem_of_app. right. by left.
Qed.

Lemma deleteDrawingCanvases_removes ids id s :
  wellFormed s → id ∈ ids → id ∈ canvasIds s →
  removedEverywhere ids id s (deleteDrawingCanvases ids s).
Proof.
  intros [(Hi & Ht & Hc) Hlay] Hid Hlive.
  destruct (kinds_disjoint s (proj1 Hlay)) as (_ & _ & Hdis).
  destruct (Hdis id Hlive) as [Hnt Hnc].
  assert (Hne : deleteDrawingCanvases ids s
                = s |> setDrawingCanvases (λ prev, filter (λ c, cv_id c ∉ ids) prev)
                    |> setLayerOrder (λ prev, filter (λ x, x ∉ ids) prev)
                    |> setSelectedDrawingCanvasIds (const [])).
  { unfold deleteDrawingCanvases. destruct ids; [by apply elem_of_nil in Hid | done]. }
  rewrite Hne. unfold removedEverywhere. simpl.
  split; [set_solver |]. split; [set_solver |]. split; [apply not_elem_of_nil |].
  split.
  - unfold liveIds, imageIds, textIds, canvasIds in *. simpl.
    rewrite (fmap_filter_key cv_id (λ x, x ∉ ids)).
    rewrite !elem_of_app, list_elem_of_filter. tauto.
  - apply (layer_effect ids id s); [done | done |].
    unfold liveIds. rewrite !elem_of_app. right. by right.
Qed.

(** Whatever the state, a delete leaves no object of its kind with a named
    id, no entry of the id in the layer order, and an empty selection of the
    kind. *)
Lemma delete_takes_all ids id s :
  id ∈ ids →
  ((id ∉ selectedImageIds (sel (deleteImages ids s)))
   ∧ (id ∉ imageIds (deleteImages ids s))
   ∧ occurrences id (layerOrder (doc (deleteImages ids s))) = 0)
  ∧ ((id ∉ selectedTextIds (sel (deleteTextObjects ids s)))
     ∧ (id ∉ textIds (deleteTextObjects ids s))
     ∧ occurrences id (layerOrder (doc (deleteTextObjects ids s))) = 0)
  ∧ ((id ∉ selectedDrawingCanvasIds (sel (deleteDrawingCanvases ids s)))
     ∧ (id ∉ canvasIds (deleteDrawingCanvases ids s))
     ∧ occurrences id (layerOrder (doc (deleteDrawingCanvases ids s))) = 0).
Proof.
  intros Hid. destruct ids as [| first rest]; [by apply elem_of_nil in Hid |].
  unfold deleteImages, deleteTextObjects, deleteDrawingCanvases,
    imageIds, textIds, canvasIds. simpl.
  rewrite (fmap_filter_key img_id (λ x, x ∉ first :: rest)).
  rewrite (fmap_filter_key txt_id (λ x, x ∉ first :: rest)).
  rewrite (fmap_filter_key cv_id (λ x, x ∉ first :: rest)).
  rewrite !list_elem_of_filter.
  repeat split; try apply not_elem_of_nil; try tauto;
    by apply occurrences_filter_dropped.
Qed.

(** C6 (amended). Along any sequence of add and delete operations every
    selected id names a live object of its kind.  When the operations
    respect identity (an added id is not in use) the ids stay unique and the
    layer order lists each live id exactly once; in such a state deleting a
    live object takes its id out of all three selection sets and takes its
    single entry out of the layer order, leaving the entries of the other
    objects alone.  In any state a delete removes every object of its kind
    that carries a named id, and every entry of the id in the layer
    order. *)
Theorem selections_live_and_delete_prunes :
  (∀ ops s, selectionLive s → selectionLive (run browser ops s))
  ∧ (∀ ops key, selectionLive (run browser ops (initialState key)))
  ∧ (∀ ops s, wellFormed s → allRespectIdentity browser ops s →
       wellFormed (run browser ops s))
  ∧ (∀ s ids id, wellFormed s → id ∈ ids →
       (id ∈ imageIds s → removedEverywhere ids id s (deleteImages ids s))
       ∧ (id ∈ textIds s → removedEverywhere ids id s (deleteTextObjects ids s))
       ∧ (id ∈ canvasIds s → removedEverywhere ids id s (deleteDrawingCanvases ids s)))
  ∧ (∀ s ids id, id ∈ ids →
       ((id ∉ selectedImageIds (sel (deleteImages ids s)))
        ∧ (id ∉ imageIds (deleteImages ids s))
        ∧ occurrences id (layerOrder (doc (deleteImages ids s))) = 0)
       ∧ ((id ∉ selectedTextIds (sel (deleteTextObjects ids s)))
          ∧ (id ∉ textIds (deleteTextObjects ids s))
          ∧ occurrences id (layerOrder (doc (deleteTextObjects ids s))) = 0)
       ∧ ((id ∉ selectedDrawingCanvasIds (sel (deleteDrawingCanvases ids s)))
          ∧ (id ∉ canvasIds (deleteDrawingCanvases ids s))
          ∧ occurrences id (layerOrder (doc (deleteDrawingCanvases ids s))) = 0)).
Proof.
  split; [apply selectionLive_run |].
  split; [intros ops key; apply selectionLive_run; by repeat split |].
  split; [apply wellFormed_run |].
  split; [| intros s ids id; apply delete_takes_all].
  intros s ids id Hwf Hid. split; [| split]; intros Hlive.
  - by apply deleteImages_removes.
  - by apply deleteTextObjects_removes.
  - by apply deleteDrawingCanvases_removes.
Qed.

End LifecycleFacts.

Section PackingFacts.
Import Geometry Model Packing Text Generation.

Section SortFacts.
Context {A : Type} (key : A → Q).
#[local] Abbreviation cmp := (λ a b, key a - key b)%Q.

Lemma cmp_le a b : Qle_bool (cmp a b) 0 = true ↔ (key a <= key b)%Q.
Proof. rewrite Qle_bool_iff. split; intros H; lra. Qed.

Lemma insertSorted_Permutation a l : insertSorted cmp a l ≡ₚ a :: l.
Proof.
  induction l as [| b l IH]; simpl; [done |].
  destruct (Qle_bool (cmp a b) 0); [done |].
  rewrite IH. apply Permutation_swap.
Qed.

Lemma sortBy_Permutation l : sortBy cmp l ≡ₚ l.
Proof.
  induction l as [| a l IH]; simpl; [done |].
  fold (sortBy cmp l). by rewrite insertSorted_Permutation, IH.
Qed.

Lemma ascending_cons a l :
  (∀ b, b ∈ l → (key a <= key b)%Q) → ascending key l → ascending key (a :: l).
Proof.
  intros Hhead Htail [| i] [| j] x y Hij Hx Hy; simpl in *; simplify_eq.
  - apply Qle_refl.
  - apply Hhead. by eapply list_elem_of_lookup_2.
  - lia.
  - eapply Htail; [| done | done]. lia.
Qed.

Lemma ascending_inv a l :
  ascending key (a :: l) → (∀ b, b ∈ l → (key a <= key b)%Q) ∧ ascending key l.
Proof.
  intros H. split.
  - intros b [j Hj]%list_elem_of_lookup_1. apply (H 0 (S j) a b); [lia | done | done].
  - intros i j x y Hij Hx Hy. apply (H (S i) (S j)); [lia | done | done].
Qed.

Lemma insertSorted_ascending a l : ascending key l → ascending key (insertSorted cmp a l).
Proof.
  induction l as [| b l IH]; intros Hl; simpl.
  - apply ascending_cons; [| done]. intros b Hb. by apply elem_of_nil in Hb.
  - destruct (Qle_bool (cmp a b) 0) eqn:Hab.
    + apply cmp_le in Hab. destruct (ascending_inv _ _ Hl) as [Hb _].
      apply ascending_cons; [| done].
      intros c [-> | Hc]%elem_of_cons; [done |].
      eapply Qle_trans; [exact Hab | by apply Hb].
    + assert (Hba : (key b <= key a)%Q).
      { destruct (Qlt_le_dec (key b) (key a)) as [Hlt | Hle]; [by apply Qlt_le_weak |].
        apply cmp_le in Hle. congruence. }
      destruct (ascending_inv _ _ Hl) as [Hb Htl].
      apply ascending_cons; [| by apply IH].
      intros c Hc. rewrite insertSorted_Permutation in Hc.
      apply elem_of_cons in Hc as [-> | Hc]; [done | by apply Hb].
Qed.

Lemma sortBy_ascending l : ascending key (sortBy cmp l).
Proof.
  induction l as [| a l IH]; simpl.
  - intros i j a b _ Ha. by rewrite lookup_nil in Ha.
  - by apply insertSorted_ascending.
Qed.

(** The sort is stable: the elements of one key keep their order. *)
Lemma insertSorted_stable a l v :
  filter (λ x, Qeq_bool (key x) v = true) (insertSorted cmp a l)
  = filter (λ x, Qeq_bool (key x) v = true) (a :: l).
Proof.
  induction l as [| b l IH]; [done |]. simpl.
  destruct (Qle_bool (cmp a b) 0) eqn:Hab; [done |].
  assert (Hlt : (key b < key a)%Q).
  { destruct (Qlt_le_dec (key b) (key a)) as [Hlt | Hle]; [done |].
    apply cmp_le in Hle. congruence. }
  rewrite (filter_cons _ b), IH, (filter_cons _ a), (filter_cons _ a), (filter_cons _ b).
  destruct (decide (Qeq_bool (key b) v = true)) as [Hb | Hb],
           (decide (Qeq_bool (key a) v = true)) as [Ha | Ha]; try done.
  apply Qeq_bool_eq in Ha, Hb. rewrite Ha, Hb in Hlt. by apply Qlt_irrefl in Hlt.
Qed.

Lemma sortBy_stable l v :
  filter (λ x, Qeq_bool (key x) v = true) (sortBy cmp l)
  = filter (λ x, Qeq_bool (key x) v = true) l.
Proof.
  induction l as [| a l IH]; [done |]. simpl. fold (sortBy cmp l).
  rewrite insertSorted_stable, !filter_cons. by rewrite IH.
Qed.

End SortFacts.

Lemma insertSorted_fmap {A B} (f : A → B) (cmpA : A → A → Q) (cmpB : B → B → Q) a k :
  (∀ a b, cmpA a b = cmpB (f a) (f b)) →
  f <$> insertSorted cmpA a k = insertSorted cmpB (f a) (f <$> k).
Proof.
  intros Hcmp. induction k as [| b k IHk]; [done |].
  cbn [insertSorted fmap list_fmap]. rewrite <- Hcmp.
  destruct (Qle_bool (cmpA a b) 0); [done |].
  rewrite fmap_cons. f_equal. exact IHk.
Qed.

Lemma sortBy_fmap {A B} (f : A → B) (cmpA : A → A → Q) (cmpB : B → B → Q) (l : list A) :
  (∀ a b, cmpA a b = cmpB (f a) (f b)) →
  f <$> sortBy cmpA l = sortBy cmpB (f <$> l).
Proof.
  intros Hcmp. unfold sortBy. induction l as [| a l IH]; [done |].
  rewrite fmap_cons. cbn [foldr]. rewrite <- IH. by apply insertSorted_fmap.
Qed.

Lemma assignOrder_other id k (l : list CanvasItem) (m : gmap string nat) :
  id ∉ item_id <$> l → assignOrder k l m !! id = m !! id.
Proof.
  revert k m. induction l as [| it l IH]; intros k m Hid; [done |].
  rewrite fmap_cons in Hid. apply not_elem_of_cons in Hid as [Hne Hid].
  simpl. rewrite IH by done. by rewrite lookup_insert_ne.
Qed.

Lemma assignOrder_lookup k (l : list CanvasItem) (m : gmap string nat) i it :
  NoDup (item_id <$> l) → l !! i = Some it →
  assignOrder k l m !! item_id it = Some (k + i + 1).
Proof.
  revert k m i. induction l as [| a l IH]; intros k m i Hnd Hi; [done |].
  rewrite fmap_cons in Hnd. apply NoDup_cons in Hnd as [Ha Hnd].
  destruct i as [| i]; simpl in *.
  - simplify_eq. rewrite assignOrder_other by done.
    rewrite lookup_insert_eq. f_equal. lia.
  - rewrite (IH (S k) _ i) by done. f_equal. lia.
Qed.

Lemma sorted_keys_agree d x :
  selectedTextsOf d x = [] →
  e_key <$> editableItems d x
  = item_key <$> sortBy (λ a b, item_x a - item_x b)%Q
      ((ItemImage <$> selectedImagesOf d x) ++ (ItemText <$> selectedTextsOf d x)
       ++ (ItemCanvas <$> selectedCanvasesOf d x)).
Proof.
  intros Hnotext. unfold editableItems. rewrite Hnotext. simpl.
  rewrite (sortBy_fmap e_key _ (λ a b, a.2 - b.2)%Q) by done.
  rewrite (sortBy_fmap item_key _ (λ a b, a.2 - b.2)%Q) by done.
  f_equal. rewrite !fmap_app, <- !list_fmap_compose. done.
Qed.

(** [validReferenceData] keeps, in order, the payloads of the items that
    have one. *)
Lemma validReferenceData_filter (optimizeImageForApi : string → Ref) items :
  validReferenceData optimizeImageForApi items
  = (λ item, optimizeImageForApi (e_src item))
      <$> filter (λ item, truthy (e_src item) = true) items.
Proof.
  unfold validReferenceData. induction items as [| item items IH]; [done |].
  rewrite filter_cons.
  set (pack := λ item, if truthy (e_src item)
                       then Some (optimizeImageForApi (e_src item)) else None) in *.
  change (omap pack (item :: items))
    with (match pack item with Some r => r :: omap pack items | None => omap pack items end).
  unfold pack at 1. destruct (truthy (e_src item)) eqn:Hsrc.
  - rewrite decide_True by done. by rewrite fmap_cons, IH.
  - rewrite decide_False by done. exact IH.
Qed.

(** C5 (amended). The references sent to the service are the payloads of
    the selected images and drawing canvases that have one, taken from the
    list of these objects sorted by ascending x, objects at the same x
    keeping the order of the selection lists (images, then canvases).  The
    badge of a selected object, when more than one object is selected and
    the selected objects have distinct ids, is its 1-based position among
    the selected objects of all three kinds sorted by ascending x: selected
    texts are counted.  So when moreover no text is selected and every
    selected image and canvas has a payload, the badge of each packed item
    is the 1-based position of its payload in the packed list.  Three
    selected images at x = 50, 10, 30 are packed as
    [item@10, item@30, item@50] with badges 1, 2, 3. *)
Theorem packing_order_and_badges :
  (∀ (optimizeImageForApi : string → Ref) (d : Document) (x : Selection),
     let items := editableItems d x in
     let selected :=
       (EditImage <$> selectedImagesOf d x) ++ (EditCanvas <$> selectedCanvasesOf d x) in
     let allSelected :=
       sortBy (λ a b, item_x a - item_x b)%Q
         ((ItemImage <$> selectedImagesOf d x) ++ (ItemText <$> selectedTextsOf d x)
          ++ (ItemCanvas <$> selectedCanvasesOf d x)) in
     let total :=
       length (selectedImageIds x) + length (selectedTextIds x)
       + length (selectedDrawingCanvasIds x) in
     validReferenceData optimizeImageForApi items
     = (λ item, optimizeImageForApi (e_src item))
         <$> filter (λ item, truthy (e_src item) = true) items
     ∧ items ≡ₚ selected
     ∧ (∀ i j a b, i ≤ j → items !! i = Some a → items !! j = Some b →
          (e_x a <= e_x b)%Q)
     ∧ (∀ v, filter (λ item, Qeq_bool (e_x item) v = true) items
             = filter (λ item, Qeq_bool (e_x item) v = true) selected)
     ∧ (NoDup (item_id <$> allSelected) → 1 < total →
        ∀ i it, allSelected !! i = Some it → selectionOrder d x (item_id it) = i + 1)
     ∧ (selectedTextsOf d x = [] →
        Forall (λ item, truthy (e_src item) = true) items →
        NoDup (e_id <$> items) → 1 < total →
        ∀ i item, items !! i = Some item →
          validReferenceData optimizeImageForApi items !! i
          = Some (optimizeImageForApi (e_src item))
          ∧ selectionOrder d x (e_id item) = i + 1))
  ∧ (e_id <$> editableItems threeItemsDoc threeItemsSelection = ["b"; "c"; "a"]
     ∧ e_x <$> editableItems threeItemsDoc threeItemsSelection = [10; 30; 50]%Q
     ∧ selectionOrder threeItemsDoc threeItemsSelection "b" = 1
     ∧ selectionOrder threeItemsDoc threeItemsSelection "c" = 2
     ∧ selectionOrder threeItemsDoc threeItemsSelection "a" = 3).
Proof.
  split.
  - intros optimizeImageForApi d x items selected allSelected total.
    split; [apply validReferenceData_filter |].
    split; [apply sortBy_Permutation |].
    split; [apply (sortBy_ascending e_x) |].
    split; [intros v; apply (sortBy_stable e_x) |].
    assert (Hbadge : NoDup (item_id <$> allSelected) → 1 < total →
              ∀ i it, allSelected !! i = Some it →
                selectionOrder d x (item_id it) = i + 1).
    { intros Hnd Hmany i it Hit. unfold selectionOrder, selectionOrderMap.
      fold total. rewrite decide_False by lia. fold allSelected.
      by rewrite (assignOrder_lookup 0 allSelected ∅ i it). }
    split; [exact Hbadge |].
    intros Hnotext Hall Hnd Hmany i item Hi. split.
    + rewrite validReferenceData_filter, filter_all by (by apply Forall_forall).
      by rewrite list_lookup_fmap, Hi.
    + pose proof (sorted_keys_agree d x Hnotext) as Hkeys.
      fold items allSelected in Hkeys.
      assert (Hids : e_id <$> items = item_id <$> allSelected).
      { change e_id with (fst ∘ e_key). change item_id with (fst ∘ item_key).
        rewrite !list_fmap_compose. by rewrite Hkeys. }
      assert (Hith : (item_id <$> allSelected) !! i = Some (e_id item)).
      { rewrite <- Hids, list_lookup_fmap, Hi. done. }
      rewrite list_lookup_fmap in Hith.
      destruct (allSelected !! i) as [it |] eqn:Hit; [| done].
      simpl in Hith. injection Hith as <-.
      apply Hbadge; [by rewrite <- Hids | done | done].
  - repeat split; vm_compute; reflexivity.
Qed.

End PackingFacts.

Section AttemptFacts.
Import Geometry Layers Model Interaction Packing Text Generation.
Variable optimizeImageForApi : string → Ref.
Variable createPaddedImage : string → AspectRatio → JsError + string.
Variable closure : AppState.
Variable svc : Service.
Variable prompt finalPrompt : string.
Variable negativePrompt : option string.

Lemma quiet_await {A} call (outcome : JsError + A) : Quiet (await call outcome).
Proof. intros st st' r [= <- <-]. by repeat split. Qed.

Lemma quiet_modify f :
  (∀ s, doc (f s) = doc s ∧ sel (f s) = sel s
        ∧ errorMessage (ui (f s)) = errorMessage (ui s)) →
  Quiet (modify f).
Proof.
  intros Hf st st' r [= <- <-]. destruct (Hf (app st)) as (Hd & Hs & He).
  by repeat split.
Qed.

Lemma quiet_then_loads {A B} (c : Gen A) (k : A → Gen B) :
  Quiet c → (∀ a, LoadsOneResult closure (k a)) → LoadsOneResult closure (gbind c k).
Proof.
  intros Hc Hk st st' r. unfold gbind.
  destruct (c st) as [st1 [e | a]] eqn:Hrun; intros Hrest.
  - injection Hrest as <- <-.
    destruct (Hc _ _ _ Hrun) as ([Hd Hs] & (Hl & Ht & He) & Hp). by repeat split.
  - destruct (Hc _ _ _ Hrun) as ([Hd Hs] & (Hl & Ht & He) & Hp).
    destruct (Hk a _ _ _ Hrest) as ([Hd' Hs'] & (Hl' & Ht' & He') & Hr).
    split; [split; congruence |]. split; [repeat split; congruence |].
    destruct r; [congruence |]. destruct Hr as (src & opts & Hr).
    exists src, opts. congruence.
Qed.

Lemma startLoad_loads src opts :
  LoadsOneResult closure (startLoad (addImageToCanvas closure src result opts)).
Proof. intros st st' r [= <- <-]. repeat split. by exists src, opts. Qed.

Ltac loads :=
  repeat first
    [ apply startLoad_loads
    | apply quiet_then_loads;
      [ first [ apply quiet_await | apply quiet_modify; intros ?; by repeat split ]
      | intros ? ] ].

Lemma oneStepEdit_loads refs model mask :
  LoadsOneResult closure
    (oneStepEdit closure svc prompt finalPrompt negativePrompt refs model mask).
Proof. unfold oneStepEdit. loads. Qed.

Lemma twoStepEdit_loads label refs model :
  LoadsOneResult closure
    (twoStepEdit optimizeImageForApi createPaddedImage closure svc prompt finalPrompt
       negativePrompt label refs model).
Proof. unfold twoStepEdit. loads. Qed.

Lemma generateFromScratch_loads model :
  LoadsOneResult closure (generateFromScratch closure svc prompt finalPrompt model).
Proof. unfold generateFromScratch. loads. Qed.

Lemma generateOrCombine_loads model :
  LoadsOneResult closure
    (generateOrCombine optimizeImageForApi createPaddedImage closure svc prompt
       finalPrompt negativePrompt model).
Proof.
  unfold generateOrCombine.
  destruct (List.filter _ _) as [| c cs]; [apply generateFromScratch_loads |].
  destruct (List.filter _ _) as [| b bs]; [apply generateFromScratch_loads |].
  apply quiet_then_loads; [apply quiet_await |]. intros [characterName backgroundName].
  destruct (truthyOpt characterName && truthyOpt backgroundName);
    [| apply generateFromScratch_loads].
  destruct (findNamed _ _); [| apply generateFromScratch_loads].
  destruct (findNamed _ _); [| apply generateFromScratch_loads].
  apply quiet_then_loads; [apply quiet_modify; intros ?; by repeat split |]. intros _.
  apply twoStepEdit_loads.
Qed.

Lemma gbind_run {A B} (c : Gen A) (k : A → Gen B) st st' r :
  gbind c k st = (st', r) →
  (∃ e, c st = (st', inl e) ∧ r = inl e)
  ∨ (∃ a st1, c st = (st1, inr a) ∧ k a st1 = (st', r)).
Proof.
  unfold gbind. destruct (c st) as [st1 [e | a]]; intros H.
  - left. exists e. by injection H as <- <-.
  - right. by exists a, st1.
Qed.

Lemma editOrOutpaint_loads items model :
  LoadsOneResult closure
    (if isSingleItem items && isMatchingAspectRatio items (aspectRatio (doc closure))
     then oneStepEdit closure svc prompt finalPrompt negativePrompt
            (validReferenceData optimizeImageForApi items) model
            (maskPartOf optimizeImageForApi closure items)
     else twoStepEdit optimizeImageForApi createPaddedImage closure svc prompt finalPrompt
            negativePrompt "Step 1: Initial Edit"
            (validReferenceData optimizeImageForApi items) model).
Proof. destruct (_ && _); [apply oneStepEdit_loads | apply twoStepEdit_loads]. Qed.

(** What the selection branch does: a failure changes nothing of the
    document; a success clears the masks of the selected images, empties the
    image and canvas selections and starts the load of one result image. *)
Lemma editSelection_run items model st st' r :
  editSelection optimizeImageForApi createPaddedImage closure svc prompt finalPrompt
    negativePrompt items model st = (st', r) →
  sameLogs st st'
  ∧ match r with
    | inl _ => sameDocument st st' ∧ pending st' = pending st
    | inr _ =>
        doc (app st')
        = doc (setImages (clearMasksOf (selectedImageIds (sel closure))) (app st))
        ∧ selectedImageIds (sel (app st')) = []
        ∧ selectedTextIds (sel (app st')) = selectedTextIds (sel (app st))
        ∧ selectedDrawingCanvasIds (sel (app st')) = []
        ∧ ∃ src opts,
            pending st' = pending st ++ [addImageToCanvas closure src result opts]
    end.
Proof.
  unfold editSelection.
  destruct (validReferenceData optimizeImageForApi items) as [| ref refs] eqn:Hrefs.
  { intros [= <- <-]. by repeat split. }
  rewrite <- Hrefs. clear Hrefs ref refs.
  intros H. apply gbind_run in H as [(e & [=] & _) | ([] & st1 & [= <-] & H)].
  apply gbind_run in H as [(e & H & ->) | ([] & st2 & H2 & H)].
  - destruct (editOrOutpaint_loads items model _ _ _ H) as ([Hd Hs] & (Hl & Ht & He) & Hp).
    simpl in *. by repeat split.
  - destruct (editOrOutpaint_loads items model _ _ _ H2)
      as ([Hd Hs] & (Hl & Ht & He) & (src & opts & Hp)).
    unfold gbind, modify in H. simpl in H. injection H as <- <-. simpl in *.
    split; [by repeat split |]. rewrite Hd, Hs. repeat split. by exists src, opts.
Qed.

(** What one attempt does.  A thrown attempt has changed neither document
    nor selection and has started no load.  A returned attempt has started
    the load of one result image; when editable items were selected it has
    cleared the masks of the selected images and emptied the image and
    canvas selections. *)
Lemma attemptBody_run st st' r :
  attemptBody optimizeImageForApi createPaddedImage closure svc prompt finalPrompt
    negativePrompt st = (st', r) →
  sameLogs st st'
  ∧ match r with
    | inl _ => sameDocument st st' ∧ pending st' = pending st
    | inr _ =>
        (∃ src opts, pending st' = pending st ++ [addImageToCanvas closure src result opts])
        ∧ match editableItems (doc closure) (sel closure) with
          | [] => sameDocument st st'
          | _ :: _ =>
              doc (app st')
              = doc (setImages (clearMasksOf (selectedImageIds (sel closure))) (app st))
              ∧ selectedImageIds (sel (app st')) = []
              ∧ selectedTextIds (sel (app st')) = selectedTextIds (sel (app st))
              ∧ selectedDrawingCanvasIds (sel (app st')) = []
          end
    end.
Proof.
  unfold attemptBody. intros H.
  apply gbind_run in H as [(e & H & ->) | ([] & st1 & H1 & H)].
  - destruct (editableItems (doc closure) (sel closure)) as [| item items].
    + destruct (generateOrCombine_loads _ _ _ _ H) as (Hd & Hl & Hp). by split.
    + by apply editSelection_run in H.
  - unfold gbind, modify in H. simpl in H. injection H as <- <-.
    destruct (editableItems (doc closure) (sel closure)) as [| item items].
    + destruct (generateOrCombine_loads _ _ _ _ H1) as ([Hd Hs] & (Hl & Ht & He) & Hp).
      by repeat split.
    + apply editSelection_run in H1 as ((Hl & Ht & He) & Hd & Hi & Htx & Hc & Hp).
      by repeat split.
Qed.

Lemma await_inv {A} call (outcome : JsError + A) st st' r :
  await call outcome st = (st', r) → r = outcome ∧ calls st' = calls st ++ [call].
Proof. by intros [= <- <-]. Qed.

Lemma modify_inv f st st' r :
  modify f st = (st', r) → r = inr tt ∧ calls st' = calls st.
Proof. by intros [= <- <-]. Qed.

Lemma startLoad_inv p st st' r :
  startLoad p st = (st', r) → r = inr tt ∧ calls st' = calls st.
Proof. by intros [= <- <-]. Qed.

Lemma oneStepEdit_path refs model mask st st' r :
  oneStepEdit closure svc prompt finalPrompt negativePrompt refs model mask st = (st', r) →
  let edit := editImage svc (effectivePromptOf finalPrompt negativePrompt) refs model mask
                (aspectRatio (doc closure)) in
  calls st'
  = calls st ++ [CallEditImage (effectivePromptOf finalPrompt negativePrompt) refs model
                   mask (aspectRatio (doc closure))]
  ∧ r = match edit with inl error => inl error | inr _ => inr tt end.
Proof.
  unfold oneStepEdit. intros H.
  apply gbind_run in H as [(e & [<- H1]%await_inv & ->)
                          | (final & st1 & [<- H1]%await_inv & H)]; [done |].
  apply gbind_run in H as [(e & [[=] _]%modify_inv & _)
                          | ([] & st2 & [_ H2]%modify_inv & H)].
  apply startLoad_inv in H as [-> H]. split; [congruence | done].
Qed.

Lemma twoStepEdit_path label refs model st st' r :
  twoStepEdit optimizeImageForApi createPaddedImage closure svc prompt finalPrompt
    negativePrompt label refs model st = (st', r) →
  let ratio := aspectRatio (doc closure) in
  let effectivePrompt := effectivePromptOf finalPrompt negativePrompt in
  match editImage svc effectivePrompt refs model None ratio with
  | inl error =>
      calls st' = calls st ++ [CallEditImage effectivePrompt refs model None ratio]
      ∧ r = inl error
  | inr initial =>
      match createPaddedImage initial ratio with
      | inl error =>
          calls st'
          = calls st ++ [CallEditImage effectivePrompt refs model None ratio;
                         CallCreatePaddedImage initial ratio]
          ∧ r = inl error
      | inr padded =>
          calls st'
          = calls st ++ [CallEditImage effectivePrompt refs model None ratio;
                         CallCreatePaddedImage initial ratio;
                         CallEditImage outpaintingPrompt [optimizeImageForApi padded]
                           model None ratio]
          ∧ r = match editImage svc outpaintingPrompt [optimizeImageForApi padded] model
                        None ratio with
                | inl error => inl error
                | inr _ => inr tt
                end
      end
  end.
Proof.
  unfold twoStepEdit. intros H. cbv zeta.
  apply gbind_run in H as [(e & [<- H1]%await_inv & ->)
                          | (initial & st1 & [<- H1]%await_inv & H)]; [done |].
  apply gbind_run in H as [(e & [[=] _]%modify_inv & _)
                          | ([] & st2 & [_ H2]%modify_inv & H)].
  apply gbind_run in H as [(e & [<- H3]%await_inv & ->)
                          | (padded & st3 & [<- H3]%await_inv & H)].
  { split; [| done]. rewrite H3, H2, H1. by rewrite <- app_assoc. }
  apply gbind_run in H as [(e & [[=] _]%modify_inv & _)
                          | ([] & st4 & [_ H4]%modify_inv & H)].
  apply gbind_run in H as [(e & [<- H5]%await_inv & ->)
                          | (final & st5 & [<- H5]%await_inv & H)].
  { split; [| done]. rewrite H5, H4, H3, H2, H1. by rewrite <- !app_assoc. }
  apply gbind_run in H as [(e & [[=] _]%modify_inv & _)
                          | ([] & st6 & [_ H6]%modify_inv & H)].
  apply startLoad_inv in H as [-> H]. split; [| done].
  rewrite H, H6, H5, H4, H3, H2, H1. by rewrite <- !app_assoc.
Qed.

(** The calls of the selection branch and its outcome, whatever the
    service answers: the single-step path makes the edit call and returns
    exactly when it does; the two-step path makes the edit call, then pads
    its result, then makes the outpainting call, stopping at the first step
    that fails. *)
Lemma editSelection_path items model st :
  validReferenceData optimizeImageForApi items ≠ [] →
  let ratio := aspectRatio (doc closure) in
  let refs := validReferenceData optimizeImageForApi items in
  let effectivePrompt := effectivePromptOf finalPrompt negativePrompt in
  let mask := maskPartOf optimizeImageForApi closure items in
  let attempt :=
    editSelection optimizeImageForApi createPaddedImage closure svc prompt finalPrompt
      negativePrompt items model st in
  if isSingleItem items && isMatchingAspectRatio items ratio then
    calls attempt.1 = calls st ++ [CallEditImage effectivePrompt refs model mask ratio]
    ∧ attempt.2 = match editImage svc effectivePrompt refs model mask ratio with
                  | inl error => inl error
                  | inr _ => inr tt
                  end
  else
    match editImage svc effectivePrompt refs model None ratio with
    | inl error =>
        calls attempt.1 = calls st ++ [CallEditImage effectivePrompt refs model None ratio]
        ∧ attempt.2 = inl error
    | inr initial =>
        match createPaddedImage initial ratio with
        | inl error =>
            calls attempt.1
            = calls st ++ [CallEditImage effectivePrompt refs model None ratio;
                           CallCreatePaddedImage initial ratio]
            ∧ attempt.2 = inl error
        | inr padded =>
            calls attempt.1
            = calls st ++ [CallEditImage effectivePrompt refs model None ratio;
                           CallCreatePaddedImage initial ratio;
                           CallEditImage outpaintingPrompt [optimizeImageForApi padded]
                             model None ratio]
            ∧ attempt.2
              = match editImage svc outpaintingPrompt [optimizeImageForApi padded] model
                        None ratio with
                | inl error => inl error
                | inr _ => inr tt
                end
        end
    end.
Proof.
  intros Hrefs. cbv zeta.
  destruct (editSelection _ _ _ _ _ _ _ items model st) as [st' r] eqn:H.
  cbn [fst snd]. unfold editSelection in H.
  destruct (validReferenceData optimizeImageForApi items) as [| ref refs] eqn:Hdata;
    [done |].
  rewrite <- Hdata in *. clear Hdata ref refs.
  apply gbind_run in H as [(e & [[=] _]%modify_inv & _)
                          | ([] & st1 & [_ H1]%modify_inv & H)].
  assert (Htail : ∀ stA r',
            (modify (setImages (clearMasksOf (selectedImageIds (sel closure)))) ;;;
             modify (setSelectedImageIds (const [])) ;;;
             modify (setSelectedDrawingCanvasIds (const []))) stA = (st', r') →
            calls st' = calls stA ∧ r' = inr tt).
  { intros stA r' Ht. unfold gbind, modify in Ht. by injection Ht as <- <-. }
  destruct (isSingleItem items && isMatchingAspectRatio items (aspectRatio (doc closure))).
  - apply gbind_run in H as [(e & H & ->) | ([] & st2 & H2 & H)].
    + apply oneStepEdit_path in H as [Hc Hr]. split; [congruence | done].
    + apply oneStepEdit_path in H2 as [Hc Hr]. apply Htail in H as [Hc' ->].
      split; [congruence | done].
  - apply gbind_run in H as [(e & H & ->) | ([] & st2 & H2 & H)].
    + apply twoStepEdit_path in H. rewrite <- H1.
      destruct (editImage svc _ _ _ _ _) as [error | initial]; [done |].
      destruct (createPaddedImage initial _) as [error | padded]; [done |]. done.
    + apply twoStepEdit_path in H2. apply Htail in H as [Hc' ->]. rewrite <- H1, Hc'.
      destruct (editImage svc _ _ _ _ _) as [error | initial]; [done |].
      destruct (createPaddedImage initial _) as [error | padded]; [done |]. done.
Qed.

(** The guard of the selection branch: without a payload no call is made. *)
Lemma editSelection_no_data items model st :
  validReferenceData optimizeImageForApi items = [] →
  editSelection optimizeImageForApi createPaddedImage closure svc prompt finalPrompt
    negativePrompt items model st = (st, inl (newError "Selected items have no data.")).
Proof. intros H. unfold editSelection. by rewrite H. Qed.

Lemma matching_iff item target :
  isMatchingAspectRatio [item] target = true
  ↔ (Qabs (e_width item / e_height item - (ratioParts target).1 / (ratioParts target).2)
     < 0.01)%Q.
Proof.
  unfold isMatchingAspectRatio, ratioWithinTolerance.
  destruct (ratioParts target) as [w h]. simpl.
  destruct (Qlt_le_dec _ _) as [Hlt | Hle]; split; intros H; try done.
  by apply Qlt_not_le in H.
Qed.

(** C4 (amended). A single selected item matches the target aspect ratio
    exactly when its width/height ratio is within 0.01 of the target's; a
    selection of several items never matches.  When at least one selected
    item has a payload the flag selects the path, whatever the service
    answers: for a single matching item the attempt makes one edit call,
    carrying the item's mask when it has one, and returns exactly when that
    call does; otherwise it makes the edit call without mask, pads its
    result and makes the outpainting call, stopping at the first of the
    three steps that fails and returning when all three have succeeded.
    When no selected item has a payload the attempt throws before any call.
    An item of 900 by 1600 matches 9:16 and does not match 1:1. *)
Theorem aspect_match_selects_path :
  (∀ item target,
     isMatchingAspectRatio [item] target = true
     ↔ (Qabs (e_width item / e_height item - (ratioParts target).1 / (ratioParts target).2)
        < 0.01)%Q)
  ∧ (∀ items target, isMatchingAspectRatio items target = true → length items = 1)
  ∧ (∀ items model st,
       validReferenceData optimizeImageForApi items ≠ [] →
       let ratio := aspectRatio (doc closure) in
       let refs := validReferenceData optimizeImageForApi items in
       let effectivePrompt := effectivePromptOf finalPrompt negativePrompt in
       let mask := maskPartOf optimizeImageForApi closure items in
       let attempt :=
         editSelection optimizeImageForApi createPaddedImage closure svc prompt
           finalPrompt negativePrompt items model st in
       if isSingleItem items && isMatchingAspectRatio items ratio then
         calls attempt.1
         = calls st ++ [CallEditImage effectivePrompt refs model mask ratio]
         ∧ attempt.2 = match editImage svc effectivePrompt refs model mask ratio with
                       | inl error => inl error
                       | inr _ => inr tt
                       end
       else
         match editImage svc effectivePrompt refs model None ratio with
         | inl error =>
             calls attempt.1
             = calls st ++ [CallEditImage effectivePrompt refs model None ratio]
             ∧ attempt.2 = inl error
         | inr initial =>
             match createPaddedImage initial ratio with
             | inl error =>
                 calls attempt.1
                 = calls st ++ [CallEditImage effectivePrompt refs model None ratio;
                                CallCreatePaddedImage initial ratio]
                 ∧ attempt.2 = inl error
             | inr padded =>
                 calls attempt.1
                 = calls st ++ [CallEditImage effectivePrompt refs model None ratio;
                                CallCreatePaddedImage initial ratio;
                                CallEditImage outpaintingPrompt
                                  [optimizeImageForApi padded] model None ratio]
                 ∧ attempt.2
                   = match editImage svc outpaintingPrompt [optimizeImageForApi padded]
                             model None ratio with
                     | inl error => inl error
                     | inr _ => inr tt
                     end
             end
         end)
  ∧ (∀ item,
       isMatchingAspectRatio [item] (aspectRatio (doc closure)) = true →
       maskPartOf optimizeImageForApi closure [item]
       = if truthyOpt (e_maskSrc item)
         then Some (optimizeImageForApi (default "" (e_maskSrc item))) else None)
  ∧ (∀ items model st,
       validReferenceData optimizeImageForApi items = [] →
       editSelection optimizeImageForApi createPaddedImage closure svc prompt finalPrompt
         negativePrompt items model st
       = (st, inl (newError "Selected items have no data.")))
  ∧ isMatchingAspectRatio [EditImage Scenario.maskedImage] ar_9_16 = true
  ∧ isMatchingAspectRatio [EditImage Scenario.maskedImage] ar_1_1 = false.
Proof.
  split; [apply matching_iff |].
  split; [by intros [| a [| b l]] target |].
  split; [apply editSelection_path |].
  split.
  { intros item Hm. unfold maskPartOf. rewrite Hm. done. }
  split; [apply editSelection_no_data |].
  split; reflexivity.
Qed.

End AttemptFacts.

Section RunFacts.
Import Geometry Layers Model Interaction Packing Text Generation.
Variable jsonIn : string → option ParsedJson.
Variable sanitizeStack : string → string.
Variable optimizeImageForApi : string → Ref.
Variable createPaddedImage : string → AspectRatio → JsError + string.
Variable expandPrompt : string → string → string * option string.
Variable service : nat → Service.

#[local] Abbreviation loop :=
  (attemptsFrom jsonIn sanitizeStack optimizeImageForApi createPaddedImage service).
#[local] Abbreviation body := (attemptBody optimizeImageForApi createPaddedImage).
#[local] Abbreviation handle :=
  (handleGenerateImage jsonIn sanitizeStack optimizeImageForApi createPaddedImage
     expandPrompt service).
#[local] Abbreviation generated :=
  (generate jsonIn sanitizeStack optimizeImageForApi createPaddedImage expandPrompt service).

(** How a run of the loop ends: either no attempt returned, and then the
    document, the selection and the pending loads are those the loop started
    with and an error message is on display; or some attempt [n] returned,
    having started from a state with the same document, selection, pending
    loads and error message as the loop. *)
Lemma attemptsFrom_run closure prompt finalPrompt negativePrompt remaining attempt st :
  attempt + remaining = S maxRetries →
  let st' := loop closure prompt finalPrompt negativePrompt remaining attempt st in
  (sameDocument st st' ∧ pending st' = pending st
   ∧ (0 < remaining → is_Some (errorMessage (ui (app st')))))
  ∨ (∃ n stn,
       attempt ≤ n < attempt + remaining
       ∧ sameDocument st stn ∧ pending stn = pending st
       ∧ errorMessage (ui (app stn)) = errorMessage (ui (app st))
       ∧ body closure (service n) prompt finalPrompt negativePrompt stn = (st', inr tt)).
Proof.
  revert attempt st. induction remaining as [| rest IH]; intros attempt st Hsum; simpl.
  { left. repeat split. lia. }
  destruct (body closure (service attempt) prompt finalPrompt negativePrompt
              (beginAttempt attempt st)) as [st1 [error | []]] eqn:Hrun.
  - apply attemptBody_run in Hrun as ((Hl & Ht & He) & [Hd Hs] & Hp). simpl in *.
    unfold catchVerdict.
    destruct (isSafetyBlock jsonIn error); [left; repeat split; eauto |].
    destruct (isClientError jsonIn error); [left; repeat split; eauto |].
    case_bool_decide as Hlt.
    + match goal with |- context [loop _ _ _ _ rest (S attempt) ?x] => set (st3 := x) end.
      destruct (IH (S attempt) st3 ltac:(lia))
        as [([Hd' Hs'] & Hp' & Herr) | (n & stn & Hn & [Hd' Hs'] & Hp' & He' & Hrun')].
      * left. subst st3. simpl in *. split; [split; congruence |].
        split; [congruence |]. intros _. apply Herr. unfold maxRetries in *. lia.
      * right. exists n, stn. subst st3. simpl in *.
        split; [lia |]. split; [split; congruence |]. split; [congruence |].
        split; [congruence | done].
    + assert (rest = 0) as -> by (unfold maxRetries in *; lia). simpl.
      left. repeat split; eauto.
  - right. exists attempt, (beginAttempt attempt st). split; [lia |]. by repeat split.
Qed.

(** A run that has passed the guards of [handleGenerateImage]. *)
Lemma handle_unfold prompt s :
  truthy prompt = true → isLoading (ui s) = false → truthy (apiKey (ui s)) = true →
  handle prompt s
  = loop s prompt (expandPrompt prompt (activeModel (ui s))).1
      (expandPrompt prompt (activeModel (ui s))).2 maxRetries 1
      (startRun (s |> setIsLoading true |> setLoadingMessage None |> setErrorMessage None
                   |> setDetailedError None |> setDebugImages (const []))).
Proof.
  intros Hp Hl Hk. unfold handleGenerateImage. rewrite Hp, Hl, Hk. simpl.
  by destruct (expandPrompt prompt (activeModel (ui s))).
Qed.

Lemma handle_guarded prompt s :
  ¬ (truthy prompt = true ∧ isLoading (ui s) = false ∧ truthy (apiKey (ui s)) = true) →
  doc (app (handle prompt s)) = doc s ∧ sel (app (handle prompt s)) = sel s
  ∧ pending (handle prompt s) = []
  ∧ errorMessage (ui (app (handle prompt s))) = errorMessage (ui s).
Proof.
  intros Hg. unfold handleGenerateImage.
  destruct (truthy prompt), (isLoading (ui s)), (truthy (apiKey (ui s)));
    simpl; try done.
  destruct Hg. done.
Qed.

(** A run that ends with an error message on display has changed neither
    the document nor the selection and has started no load. *)
Lemma failed_run_untouched prompt s :
  is_Some (errorMessage (ui (app (handle prompt s)))) →
  doc (app (handle prompt s)) = doc s ∧ sel (app (handle prompt s)) = sel s
  ∧ pending (handle prompt s) = [].
Proof.
  intros Herr.
  destruct (decide (truthy prompt = true ∧ isLoading (ui s) = false
                    ∧ truthy (apiKey (ui s)) = true)) as [(Hp & Hl & Hk) | Hg].
  2: { by destruct (handle_guarded prompt s Hg) as (? & ? & ? & _). }
  rewrite handle_unfold in * by done.
  match goal with |- context [loop _ _ ?fp ?np _ _ ?st0] =>
    destruct (attemptsFrom_run s prompt fp np maxRetries 1 st0 eq_refl)
      as [([Hd Hs] & Hpend & _) | (n & stn & _ & _ & _ & He & Hrun)]
  end.
  - by rewrite Hd, Hs, Hpend.
  - apply attemptBody_run in Hrun as ((_ & _ & He') & _).
    rewrite He', He in Herr. simpl in Herr. by destruct Herr.
Qed.

(** A run past the guards that ends without an error message is a run one
    of whose attempts returned. *)
Lemma clean_run_returned prompt s :
  truthy prompt = true → isLoading (ui s) = false → truthy (apiKey (ui s)) = true →
  errorMessage (ui (app (handle prompt s))) = None →
  ∃ n stn, 1 ≤ n ≤ maxRetries
    ∧ doc (app stn) = doc s ∧ sel (app stn) = sel s ∧ pending stn = []
    ∧ body s (service n) prompt (expandPrompt prompt (activeModel (ui s))).1
        (expandPrompt prompt (activeModel (ui s))).2 stn = (handle prompt s, inr tt).
Proof.
  intros Hp Hl Hk Hnone. rewrite handle_unfold in * by done.
  match goal with |- context [loop _ _ ?fp ?np _ _ ?st0] =>
    destruct (attemptsFrom_run s prompt fp np maxRetries 1 st0 eq_refl)
      as [(_ & _ & Herr) | (n & stn & Hn & [Hd Hs] & Hpend & _ & Hrun)]
  end.
  - destruct Herr as [m Hm]; [unfold maxRetries; lia | congruence].
  - exists n, stn. split; [unfold maxRetries in *; lia |]. by repeat split.
Qed.

Lemma overloadDelay_capped attempt : (overloadDelay attempt ≤ 5000)%Z.
Proof. unfold overloadDelay. apply Z.le_min_r. Qed.

Lemma overloadDelay_grows attempt :
  1 ≤ attempt → (overloadDelay attempt < 5000)%Z →
  (overloadDelay attempt < overloadDelay (S attempt))%Z.
Proof.
  unfold overloadDelay. intros Ha Hlt.
  replace (Z.of_nat (S attempt) - 1)%Z with (Z.succ (Z.of_nat attempt - 1)) by lia.
  rewrite Z.pow_succ_r by lia.
  assert (0 < 2 ^ (Z.of_nat attempt - 1))%Z by (apply Z.pow_pos_nonneg; lia).
  lia.
Qed.

Lemma overloadDelay_saturates attempt : 4 ≤ attempt → overloadDelay attempt = 5000%Z.
Proof.
  unfold overloadDelay. intros Ha.
  assert (2 ^ 3 ≤ 2 ^ (Z.of_nat attempt - 1))%Z by (apply Z.pow_le_mono_r; lia).
  change (2 ^ 3)%Z with 8%Z in *. lia.
Qed.

Lemma loop_stops_on_safety closure prompt finalPrompt negativePrompt rest attempt st st1 error :
  body closure (service attempt) prompt finalPrompt negativePrompt
    (beginAttempt attempt st) = (st1, inl error) →
  isSafetyBlock jsonIn error = true →
  let st' := loop closure prompt finalPrompt negativePrompt (S rest) attempt st in
  tried st' = tried st ++ [attempt] ∧ slept st' = slept st
  ∧ errorMessage (ui (app st')) = Some safetyNotice
  ∧ isLoading (ui (app st')) = false.
Proof.
  intros Hrun Hsafe. simpl. rewrite Hrun. unfold catchVerdict. rewrite Hsafe.
  apply attemptBody_run in Hrun as ((Hl & Ht & _) & _). simpl in *. by repeat split.
Qed.

Lemma loop_retries closure prompt finalPrompt negativePrompt rest attempt st st1 error :
  body closure (service attempt) prompt finalPrompt negativePrompt
    (beginAttempt attempt st) = (st1, inl error) →
  isSafetyBlock jsonIn error = false → isClientError jsonIn error = false →
  attempt < maxRetries →
  ∃ st3,
    slept st3 = slept st ++ [retryDelay jsonIn error attempt]
    ∧ tried st3 = tried st ++ [attempt]
    ∧ loop closure prompt finalPrompt negativePrompt (S rest) attempt st
      = loop closure prompt finalPrompt negativePrompt rest (S attempt) st3.
Proof.
  intros Hrun Hsafe Hclient Hlt. simpl. rewrite Hrun. unfold catchVerdict.
  rewrite Hsafe, Hclient, bool_decide_true by done.
  apply attemptBody_run in Hrun as ((Hl & Ht & _) & _). simpl in *.
  eexists. split; [| split; [| reflexivity]]; simpl; congruence.
Qed.

Lemma loop_stops_on_client closure prompt finalPrompt negativePrompt rest attempt st st1 error :
  body closure (service attempt) prompt finalPrompt negativePrompt
    (beginAttempt attempt st) = (st1, inl error) →
  isSafetyBlock jsonIn error = false → isClientError jsonIn error = true →
  let st' := loop closure prompt finalPrompt negativePrompt (S rest) attempt st in
  tried st' = tried st ++ [attempt] ∧ slept st' = slept st
  ∧ errorMessage (ui (app st')) = Some payloadNotice
  ∧ isLoading (ui (app st')) = false.
Proof.
  intros Hrun Hsafe Hclient. simpl. rewrite Hrun. unfold catchVerdict.
  rewrite Hsafe, Hclient.
  apply attemptBody_run in Hrun as ((Hl & Ht & _) & _). simpl in *. by repeat split.
Qed.

Lemma loop_gives_up closure prompt finalPrompt negativePrompt attempt st st1 error :
  body closure (service attempt) prompt finalPrompt negativePrompt
    (beginAttempt attempt st) = (st1, inl error) →
  isSafetyBlock jsonIn error = false → isClientError jsonIn error = false →
  maxRetries ≤ attempt →
  let st' := loop closure prompt finalPrompt negativePrompt 1 attempt st in
  tried st' = tried st ++ [attempt] ∧ slept st' = slept st
  ∧ errorMessage (ui (app st')) = Some (exhaustedNotice (retryClassOf jsonIn error))
  ∧ isLoading (ui (app st')) = false.
Proof.
  intros Hrun Hsafe Hclient Hlast. simpl. rewrite Hrun. unfold catchVerdict.
  rewrite Hsafe, Hclient, bool_decide_false by lia.
  apply attemptBody_run in Hrun as ((Hl & Ht & _) & _). simpl in *. by repeat split.
Qed.

(** The attempts of the loop are numbered consecutively, there are no more
    of them than iterations, and a sleep separates two of them at most. *)
Lemma attemptsFrom_bounded closure prompt finalPrompt negativePrompt remaining attempt st :
  attempt + remaining = S maxRetries →
  let st' := loop closure prompt finalPrompt negativePrompt remaining attempt st in
  ∃ k, k ≤ remaining ∧ (0 < remaining → 0 < k)
    ∧ tried st' = tried st ++ seq attempt k
    ∧ length (slept st') ≤ length (slept st) + pred k.
Proof.
  revert attempt st. induction remaining as [| rest IH]; intros attempt st Hsum.
  { exists 0. simpl. rewrite app_nil_r. repeat split; lia. }
  cbn [attemptsFrom].
  destruct (body closure (service attempt) prompt finalPrompt negativePrompt
              (beginAttempt attempt st)) as [st1 [error | []]] eqn:Hrun;
    apply attemptBody_run in Hrun as ((Hl & Ht & _) & _); simpl in Hl, Ht.
  2: { exists 1. simpl. rewrite Hl, Ht. repeat split; lia. }
  unfold catchVerdict.
  destruct (isSafetyBlock jsonIn error);
    [exists 1; simpl; rewrite Hl, Ht; repeat split; lia |].
  destruct (isClientError jsonIn error);
    [exists 1; simpl; rewrite Hl, Ht; repeat split; lia |].
  case_bool_decide as Hlt.
  - match goal with |- context [loop _ _ _ _ rest (S attempt) ?x] => set (st3 := x) end.
    destruct (IH (S attempt) st3 ltac:(lia)) as (k & Hk & Hpos & Htried & Hslept).
    assert (0 < k) by (apply Hpos; unfold maxRetries in *; lia).
    exists (S k). split; [lia |]. split; [lia |].
    cbv zeta in Htried, Hslept. rewrite Htried. subst st3. simpl in *.
    rewrite Ht, Hl, length_app in *. simpl in *. rewrite <- app_assoc. simpl.
    split; [done | lia].
  - assert (rest = 0) as -> by (unfold maxRetries in *; lia). simpl.
    exists 1. simpl. rewrite Hl, Ht. repeat split; lia.
Qed.

Lemma handle_bounded prompt s :
  ∃ k, k ≤ 3 ∧ tried (handle prompt s) = seq 1 k
    ∧ length (slept (handle prompt s)) ≤ pred k.
Proof.
  destruct (decide (truthy prompt = true ∧ isLoading (ui s) = false
                    ∧ truthy (apiKey (ui s)) = true)) as [(Hp & Hl & Hk) | Hg].
  - rewrite handle_unfold by done.
    match goal with |- context [loop _ _ ?fp ?np _ _ ?st0] =>
      destruct (attemptsFrom_bounded s prompt fp np maxRetries 1 st0 eq_refl)
        as (k & Hk3 & _ & Htried & Hslept)
    end.
    exists k. split; [exact Hk3 |]. split; [exact Htried | exact Hslept].
  - exists 0. unfold handleGenerateImage.
    destruct (truthy prompt), (isLoading (ui s)), (truthy (apiKey (ui s)));
      simpl; try (repeat split; lia); destruct Hg; done.
Qed.

(** C3 (amended). The loop makes at most three attempts, and the catch
    block tests in a fixed order.  An error whose message indicates a safety
    block ends the loop at once: no sleep, no further attempt, whatever else
    the error carries.  Next, an error whose message indicates a client or
    payload error ends the loop likewise.  An error that is neither is, on
    an attempt before the last of the three, retried after the delay of its
    class: overload for an error carrying code 503, status UNAVAILABLE or an
    overloaded/unavailable message, with delay min(1000 * 2^(attempt-1),
    5000), which grows strictly until it reaches its cap; quota for an error
    that is not overload and carries code 429, status RESOURCE_EXHAUSTED or
    a quota message, with the fixed delay 5000, never below the overload
    delay.  On the last attempt such an error is not retried: the loop ends
    without a sleep, with the notice of the error's class. *)
Theorem retry_classification :
  maxRetries = 3
  ∧ (∀ prompt s,
       ∃ k, k ≤ 3 ∧ tried (handle prompt s) = seq 1 k
         ∧ length (slept (handle prompt s)) ≤ pred k)
  ∧ (∀ error attempt,
       isSafetyBlock jsonIn error = true → catchVerdict jsonIn error attempt = StopSafety)
  ∧ (∀ error attempt,
       isSafetyBlock jsonIn error = false → isClientError jsonIn error = true →
       catchVerdict jsonIn error attempt = StopClient)
  ∧ (∀ error attempt,
       isSafetyBlock jsonIn error = false → isClientError jsonIn error = false →
       attempt < maxRetries →
       catchVerdict jsonIn error attempt
       = RetryAfter (retryClassOf jsonIn error) (retryDelay jsonIn error attempt))
  ∧ (∀ error attempt,
       isSafetyBlock jsonIn error = false → isClientError jsonIn error = false →
       maxRetries ≤ attempt →
       catchVerdict jsonIn error attempt = GiveUp (retryClassOf jsonIn error))
  ∧ (∀ error,
       hasCode (parsedErrorOf jsonIn error) 503 = true
       ∨ hasStatus (parsedErrorOf jsonIn error) "UNAVAILABLE" = true
       ∨ includes (msgLowerOf jsonIn error) "overloaded" = true
       ∨ includes (msgLowerOf jsonIn error) "unavailable" = true →
       retryClassOf jsonIn error = Overload)
  ∧ (∀ error,
       is503 jsonIn error = false →
       hasCode (parsedErrorOf jsonIn error) 429 = true
       ∨ hasStatus (parsedErrorOf jsonIn error) "RESOURCE_EXHAUSTED" = true
       ∨ includes (msgLowerOf jsonIn error) "quota" = true →
       retryClassOf jsonIn error = Quota)
  ∧ (∀ error attempt,
       (retryClassOf jsonIn error = Overload →
        retryDelay jsonIn error attempt = overloadDelay attempt)
       ∧ (retryClassOf jsonIn error = Quota →
          retryDelay jsonIn error attempt = quotaDelay))
  ∧ (∀ attempt,
       (overloadDelay attempt ≤ quotaDelay)%Z
       ∧ (1 ≤ attempt → (overloadDelay attempt < 5000)%Z →
          (overloadDelay attempt < overloadDelay (S attempt))%Z)
       ∧ (4 ≤ attempt → overloadDelay attempt = 5000%Z))
  ∧ overloadDelay <$> [1; 2; 3; 4; 5] = [1000; 2000; 4000; 5000; 5000]%Z
  ∧ (∀ closure prompt finalPrompt negativePrompt rest attempt st st1 error,
       body closure (service attempt) prompt finalPrompt negativePrompt
         (beginAttempt attempt st) = (st1, inl error) →
       isSafetyBlock jsonIn error = true →
       let st' := loop closure prompt finalPrompt negativePrompt (S rest) attempt st in
       tried st' = tried st ++ [attempt] ∧ slept st' = slept st
       ∧ errorMessage (ui (app st')) = Some safetyNotice
       ∧ isLoading (ui (app st')) = false)
  ∧ (∀ closure prompt finalPrompt negativePrompt rest attempt st st1 error,
       body closure (service attempt) prompt finalPrompt negativePrompt
         (beginAttempt attempt st) = (st1, inl error) →
       isSafetyBlock jsonIn error = false → isClientError jsonIn error = true →
       let st' := loop closure prompt finalPrompt negativePrompt (S rest) attempt st in
       tried st' = tried st ++ [attempt] ∧ slept st' = slept st
       ∧ errorMessage (ui (app st')) = Some payloadNotice
       ∧ isLoading (ui (app st')) = false)
  ∧ (∀ closure prompt finalPrompt negativePrompt rest attempt st st1 error,
       body closure (service attempt) prompt finalPrompt negativePrompt
         (beginAttempt attempt st) = (st1, inl error) →
       isSafetyBlock jsonIn error = false → isClientError jsonIn error = false →
       attempt < maxRetries →
       ∃ st3,
         slept st3 = slept st ++ [retryDelay jsonIn error attempt]
         ∧ tried st3 = tried st ++ [attempt]
         ∧ loop closure prompt finalPrompt negativePrompt (S rest) attempt st
           = loop closure prompt finalPrompt negativePrompt rest (S attempt) st3)
  ∧ (∀ closure prompt finalPrompt negativePrompt attempt st st1 error,
       body closure (service attempt) prompt finalPrompt negativePrompt
         (beginAttempt attempt st) = (st1, inl error) →
       isSafetyBlock jsonIn error = false → isClientError jsonIn error = false →
       maxRetries ≤ attempt →
       let st' := loop closure prompt finalPrompt negativePrompt 1 attempt st in
       tried st' = tried st ++ [attempt] ∧ slept st' = slept st
       ∧ errorMessage (ui (app st')) = Some (exhaustedNotice (retryClassOf jsonIn error))
       ∧ isLoading (ui (app st')) = false).
Proof.
  split; [reflexivity |].
  split; [apply handle_bounded |].
  split.
  { intros error attempt Hs. unfold catchVerdict. by rewrite Hs. }
  split.
  { intros error attempt Hs Hc. unfold catchVerdict. by rewrite Hs, Hc. }
  split.
  { intros error attempt Hs Hc Hlt. unfold catchVerdict.
    by rewrite Hs, Hc, bool_decide_true. }
  split.
  { intros error attempt Hs Hc Hlast. unfold catchVerdict.
    rewrite Hs, Hc, bool_decide_false by lia. done. }
  split.
  { intros error H. unfold retryClassOf, is503.
    destruct H as [-> | [-> | [-> | ->]]];
      rewrite ?orb_true_r, ?orb_true_l; simpl; rewrite ?orb_true_r; done. }
  split.
  { intros error H503 H. unfold retryClassOf, is429. rewrite H503.
    destruct H as [-> | [-> | ->]];
      rewrite ?orb_true_r, ?orb_true_l; simpl; rewrite ?orb_true_r; done. }
  split.
  { intros error attempt. unfold retryDelay. split; intros ->; done. }
  split.
  { intros attempt. split; [apply overloadDelay_capped |].
    split; [apply overloadDelay_grows | apply overloadDelay_saturates]. }
  split; [reflexivity |].
  split; [apply loop_stops_on_safety |].
  split; [apply loop_stops_on_client |].
  split; [apply loop_retries | apply loop_gives_up].
Qed.

Lemma selected_image_is_editable d x img :
  img ∈ images d → img_id img ∈ selectedImageIds x → editableItems d x ≠ [].
Proof.
  intros Himg Hsel Hnil.
  assert (Hin : EditImage img ∈ editableItems d x).
  { unfold editableItems. rewrite sortBy_Permutation, elem_of_app. left.
    apply list_elem_of_fmap. exists img. split; [done |].
    unfold selectedImagesOf. by apply list_elem_of_filter. }
  rewrite Hnil in Hin. by apply elem_of_nil in Hin.
Qed.

Lemma onImageLoad_masks browser now p s img :
  img ∈ images (doc (onImageLoad browser now p s)) →
  img ∈ images (doc s) ∨ maskSrc img = None.
Proof.
  unfold onImageLoad. destruct (decodeSize browser (pl_src p)) as [[nw nh] |]; [| by left].
  simpl. rewrite elem_of_app, list_elem_of_singleton. intros [H | ->]; [by left | by right].
Qed.

Lemma clearMasksOf_cleared ids prev img :
  img ∈ clearMasksOf ids prev → img_id img ∈ ids → maskSrc img = None.
Proof.
  unfold clearMasksOf. intros (x & -> & Hx)%list_elem_of_fmap.
  case_bool_decide; [done | contradiction].
Qed.

Lemma generated_after_return browser now prompt s :
  truthy prompt = true → isLoading (ui s) = false → truthy (apiKey (ui s)) = true →
  errorMessage (ui (app (handle prompt s))) = None →
  ∀ img, img ∈ images (doc (generated browser now prompt s)) →
         img_id img ∈ selectedImageIds (sel s) → maskSrc img = None.
Proof.
  intros Hp Hl Hk Hnone img Himg Hsel.
  destruct (clean_run_returned prompt s Hp Hl Hk Hnone)
    as (n & stn & _ & Hd & Hs & Hpend & Hrun).
  apply attemptBody_run in Hrun as (_ & (src & opts & Hload) & Heffect).
  unfold generate, settle in Himg. rewrite Hload, Hpend in Himg. simpl in Himg.
  apply onImageLoad_masks in Himg as [Himg | Hnew]; [| done].
  destruct (editableItems (doc s) (sel s)) as [| item items] eqn:Hitems.
  - destruct Heffect as [Hd' _]. rewrite Hd', Hd in Himg.
    by destruct (selected_image_is_editable (doc s) (sel s) img).
  - destruct Heffect as (Hd' & _). rewrite Hd' in Himg. simpl in Himg.
    by eapply clearMasksOf_cleared.
Qed.

Lemma onBackgroundClick_masks s img :
  img ∈ images (doc (onBackgroundClick s)) →
  img_id img ∈ selectedImageIds (sel s) → truthyOpt (maskSrc img) = false.
Proof.
  unfold onBackgroundClick.
  destruct (selectedImageIds (sel s)) as [| i ids] eqn:Hids.
  { intros _ Hin. by apply elem_of_nil in Hin. }
  intros Himg Hsel.
  assert (Himg' : img ∈ (λ img, if bool_decide (img_id img ∈ i :: ids)
                                   && truthyOpt (maskSrc img)
                                then withMaskSrc None img else img) <$> images (doc s)).
  { by destruct (isContextTool (activeTool (ui s))). }
  apply list_elem_of_fmap in Himg' as (x & -> & Hx).
  destruct (bool_decide (img_id x ∈ i :: ids)) eqn:Hb; simpl.
  - by destruct (truthyOpt (maskSrc x)) eqn:Hm.
  - simpl in Hsel. by apply bool_decide_eq_false in Hb.
Qed.

Lemma failed_run_generated browser now prompt s :
  is_Some (errorMessage (ui (app (handle prompt s)))) →
  doc (generated browser now prompt s) = doc s
  ∧ sel (generated browser now prompt s) = sel s.
Proof.
  intros Herr. destruct (failed_run_untouched prompt s Herr) as (Hd & Hs & Hp).
  unfold generate, settle. rewrite Hp. simpl. by split.
Qed.

(** A run past the guards either has an attempt that returned, or ends with
    an error message on display and the document untouched. *)
Lemma run_dichotomy prompt s :
  truthy prompt = true → isLoading (ui s) = false → truthy (apiKey (ui s)) = true →
  (∃ n stn, 1 ≤ n ≤ maxRetries
     ∧ body s (service n) prompt (expandPrompt prompt (activeModel (ui s))).1
         (expandPrompt prompt (activeModel (ui s))).2 stn = (handle prompt s, inr tt))
  ∨ (is_Some (errorMessage (ui (app (handle prompt s))))
     ∧ doc (app (handle prompt s)) = doc s ∧ sel (app (handle prompt s)) = sel s
     ∧ pending (handle prompt s) = []).
Proof.
  intros Hp Hl Hk.
  destruct (errorMessage (ui (app (handle prompt s)))) as [m |] eqn:Herr.
  - right. split; [by exists m |]. apply failed_run_untouched. rewrite Herr. by exists m.
  - left. destruct (clean_run_returned prompt s Hp Hl Hk Herr)
      as (n & stn & Hn & _ & _ & _ & Hrun). by exists n, stn.
Qed.

(** C8 (amended). The mask of a selected image is cleared by a generation
    run that succeeds (the run ends without an error message) and by a click
    on the canvas background.  A run that fails leaves the images, masks
    included, as they were. *)
Theorem masks_cleared_on_success_and_background (browser : Browser) (now : string) :
  (∀ prompt s,
     truthy prompt = true → isLoading (ui s) = false → truthy (apiKey (ui s)) = true →
     errorMessage (ui (app (handle prompt s))) = None →
     ∀ img, img ∈ images (doc (generated browser now prompt s)) →
            img_id img ∈ selectedImageIds (sel s) → maskSrc img = None)
  ∧ (∀ s img,
       img ∈ images (doc (onBackgroundClick s)) →
       img_id img ∈ selectedImageIds (sel s) → truthyOpt (maskSrc img) = false)
  ∧ (∀ s, selectedImageIds (sel (onBackgroundClick s)) = [])
  ∧ (∀ prompt s,
       is_Some (errorMessage (ui (app (handle prompt s)))) →
       images (doc (generated browser now prompt s)) = images (doc s)).
Proof.
  split; [apply generated_after_return |].
  split; [apply onBackgroundClick_masks |].
  split.
  { intros s. unfold onBackgroundClick.
    by destruct (selectedImageIds (sel s)), (isContextTool (activeTool (ui s))). }
  intros prompt s Herr. by destruct (failed_run_generated browser now prompt s Herr) as [-> _].
Qed.

End RunFacts.

Section ArchiveFacts.
Import Geometry Layers Model Interaction Text Serialization.
Variable base64_decode : string → list byte.
Variable base64_encode : list byte → string.
Variable JsonText : Type.
Variable JSON_stringify : ProjectData → JsonText.
Variable JSON_parse : JsonText → option ProjectData.
Variable textBytes : JsonText → list byte.
Variable bytesText : list byte → JsonText.
Variable stamp : nat → string.

#[local] Abbreviation zipEntries := (gmap string (Entry JsonText)).
#[local] Abbreviation load := (loadAsset base64_encode JsonText textBytes).
#[local] Abbreviation loadOpt := (loadOptional base64_encode JsonText textBytes).
#[local] Abbreviation reread := (readAsDataURL base64_encode).
#[local] Abbreviation holds := (carries base64_encode).

Lemma splitOn_no_sep sep s :
  sep ∉ list_ascii_of_string s → splitOn sep s = [s].
Proof.
  induction s as [| c s IH]; intros Hs; [done |]. simpl in *.
  apply not_elem_of_cons in Hs as [Hne Hs].
  destruct (Ascii.eqb_spec c sep) as [-> | _]; [done |]. by rewrite IH.
Qed.

Lemma splitOn_prefix sep p body :
  sep ∉ list_ascii_of_string p →
  splitOn sep (p +:+ String sep body) = p :: splitOn sep body.
Proof.
  induction p as [| c p IH]; intros Hp; simpl in *.
  - by rewrite Ascii.eqb_refl.
  - apply not_elem_of_cons in Hp as [Hne Hp].
    destruct (Ascii.eqb_spec c sep) as [-> | _]; [done |]. by rewrite IH.
Qed.

Lemma append_assoc (a b c : string) : (a +:+ b) +:+ c = a +:+ (b +:+ c).
Proof.
  induction a as [|x a IH]; [done|].
  change (String x ((a +:+ b) +:+ c) = String x (a +:+ (b +:+ c))). by f_equal.
Qed.

Lemma list_ascii_app (a b : string) :
  list_ascii_of_string (a +:+ b) = list_ascii_of_string a ++ list_ascii_of_string b.
Proof.
  induction a as [|x a IH]; [done|].
  change (x :: list_ascii_of_string (a +:+ b)
          = x :: (list_ascii_of_string a ++ list_ascii_of_string b)). by f_equal.
Qed.

Hypothesis base64_roundtrip : ∀ bytes, base64_decode (base64_encode bytes) = bytes.
Hypothesis base64_alphabet : ∀ bytes, commaFree (base64_encode bytes).

(** The parts [split(',')] gives for a data URL. *)
Lemma splitOn_dataUrl mime bytes :
  commaFree mime →
  splitOn ","%char (dataUrlOf base64_encode mime bytes)
  = ["data:" +:+ mime +:+ ";base64"; base64_encode bytes].
Proof.
  intros Hmime. unfold dataUrlOf.
  change ("data:" +:+ mime +:+ ";base64," +:+ base64_encode bytes)
    with ("data:" +:+ (mime +:+ (";base64" +:+ String ","%char (base64_encode bytes)))).
  rewrite <- !append_assoc. rewrite splitOn_prefix.
  - rewrite splitOn_no_sep by apply base64_alphabet. by rewrite append_assoc.
  - rewrite !list_ascii_app, !not_elem_of_app. split; [split |]; [| exact Hmime |];
      vm_compute; intros H;
      by repeat (apply elem_of_cons in H as [H | H]; [done |]); apply elem_of_nil in H.
Qed.

(** [parseDataUrl] finds the base64 text of a data URL. *)
Lemma parseDataUrl_carries src bytes :
  holds src bytes → (parseDataUrl src).2 = base64_encode bytes.
Proof.
  intros (mime & Hmime & ->). unfold parseDataUrl.
  rewrite splitOn_dataUrl by done. done.
Qed.

(** What carries bytes carries no other bytes. *)
Lemma carries_functional src bytes bytes' :
  holds src bytes → holds src bytes' → bytes = bytes'.
Proof.
  intros H H'. apply parseDataUrl_carries in H, H'.
  rewrite <- (base64_roundtrip bytes), <- (base64_roundtrip bytes'). congruence.
Qed.

Lemma carries_readAsDataURL bytes : holds (reread bytes) bytes.
Proof.
  exists "application/octet-stream". split; [| done].
  vm_compute. intros H.
  by repeat (apply elem_of_cons in H as [H | H]; [done |]); apply elem_of_nil in H.
Qed.

Lemma truthy_readAsDataURL bytes : truthy (reread bytes) = true.
Proof. done. Qed.

Lemma zipOf_snoc (written : list (string * list byte)) path bytes :
  zipOf JsonText (written ++ [(path, bytes)])
  = <[path := BlobEntry JsonText bytes]> (zipOf JsonText written).
Proof. unfold zipOf. by rewrite foldl_app. Qed.

Lemma zipOf_lookup (written : list (string * list byte)) path bytes :
  NoDup written.*1 → (path, bytes) ∈ written →
  zipOf JsonText written !! path = Some (BlobEntry JsonText bytes).
Proof.
  induction written as [| [p b] written IH] using rev_ind; intros Hnd Hin.
  { by apply elem_of_nil in Hin. }
  rewrite fmap_app in Hnd. apply NoDup_app in Hnd as (Hnd & Hfresh & _).
  rewrite zipOf_snoc. apply elem_of_app in Hin as [Hin | Hin].
  - rewrite lookup_insert_ne; [by apply IH |].
    intros ->. apply (Hfresh path); [| by left].
    apply list_elem_of_fmap. by exists (path, bytes).
  - apply list_elem_of_singleton in Hin as [= -> ->]. apply lookup_insert_eq.
Qed.

#[local] Abbreviation sound := (Sound JsonText).
#[local] Abbreviation stored := (Stored JsonText).
#[local] Abbreviation sameOpt := (sameOptionalPayload base64_encode).
#[local] Abbreviation populated := (populatedIsDataUrl base64_encode).

Lemma stored_app zip (w k : list (string * list byte)) : stored zip (w ++ k) → stored zip w.
Proof. intros H path bytes Hin. apply H, elem_of_app. by left. Qed.

Lemma sound_ret {A} (a : A) (R : zipEntries → A → Prop) :
  (∀ zip, R zip a) → sound (sret a) R.
Proof.
  intros HR written a' written' [= <- <-]. split; [| done].
  exists []. by rewrite app_nil_r.
Qed.

Lemma sound_bind {A B} (c : Save A) (k : A → Save B)
    (R1 : zipEntries → A → Prop) (R2 : A → zipEntries → B → Prop)
    (R : zipEntries → B → Prop) :
  sound c R1 → (∀ a, sound (k a) (R2 a)) →
  (∀ zip a b, R1 zip a → R2 a zip b → R zip b) →
  sound (sbind c k) R.
Proof.
  intros Hc Hk HR written b written''. unfold sbind.
  destruct (c written) as [a written'] eqn:Hrun. intros Hrest.
  destruct (Hc _ _ _ Hrun) as [(new1 & -> & Hnew1) HR1].
  destruct (Hk a _ _ _ Hrest) as [(new2 & -> & Hnew2) HR2].
  split.
  - exists (new1 ++ new2). rewrite app_assoc. split; [done | by apply Forall_app].
  - intros zip Hz. apply (HR zip a b); [| by apply HR2].
    apply HR1. by eapply stored_app.
Qed.

(** The asset written for a data URL reads back as the data URL of the same
    bytes. *)
Lemma sound_addAsset dataUrl prefix bytes :
  holds dataUrl bytes →
  sound (addAsset base64_decode stamp dataUrl prefix)
    (λ zip path, truthy path = true ∧ load zip path = reread bytes).
Proof.
  intros Hdata written path written'. unfold addAsset.
  pose proof (parseDataUrl_carries _ _ Hdata) as Hparsed.
  destruct (parseDataUrl dataUrl) as [mimeType data]. simpl in Hparsed. subst data.
  rewrite base64_roundtrip. intros [= <- <-]. split.
  - eexists. split; [done |]. by repeat constructor.
  - intros zip Hz. split; [done |]. unfold loadAsset.
    by rewrite (Hz _ bytes) by (apply elem_of_app; right; by left).
Qed.

Lemma sound_addOptional field prefix :
  populated field →
  sound (addOptional base64_decode stamp field prefix)
    (λ zip o, sameOpt field (loadOpt zip o)).
Proof.
  intros Hfield. unfold addOptional. destruct (truthyOpt field) eqn:Hf.
  - destruct field as [url |]; [| done]. simpl in *.
    destruct (Hfield Hf) as [bytes Hbytes]. simpl in Hbytes.
    apply (sound_bind _ _
             (λ zip path, truthy path = true ∧ load zip path = reread bytes)
             (λ path zip o, o = Some path));
      [by apply sound_addAsset | by intros path; apply sound_ret |].
    intros zip path o (Hp & Hload) ->. unfold loadOptional. simpl. rewrite Hp.
    simpl. rewrite Hf, Hload. exists bytes. split; [done | apply carries_readAsDataURL].
  - apply sound_ret. intros zip. unfold loadOptional. rewrite Hf.
    destruct field as [url |]; [| done]. simpl in *. by rewrite Hf.
Qed.

Lemma sound_mapSave {A B} (f : A → Save B) (R : A → zipEntries → B → Prop) l :
  Forall (λ a, sound (f a) (R a)) l →
  sound (mapSave f l) (λ zip bs, Forall2 (λ a b, R a zip b) l bs).
Proof.
  induction 1 as [| a l Ha Hl IH]; simpl.
  - apply sound_ret. intros zip. constructor.
  - apply (sound_bind _ _ (R a)
             (λ b zip r, ∃ bs, r = b :: bs ∧ Forall2 (λ a b, R a zip b) l bs));
      [apply Ha | |].
    + intros b.
      apply (sound_bind _ _ (λ zip bs, Forall2 (λ a b, R a zip b) l bs)
               (λ bs zip r, r = b :: bs)); [apply IH | | ].
      * intros bs. by apply sound_ret.
      * intros zip bs r Hbs ->. by exists bs.
    + intros zip b r Hb (bs & -> & Hbs). by constructor.
Qed.

Lemma sound_addPoses ps :
  Forall populated (default [] ps) →
  sound (addPoses base64_decode stamp ps)
    (λ zip r, samePoses base64_encode ps (fmap (M := list) (loadOpt zip) <$> r)).
Proof.
  intros Hps. unfold addPoses. destruct ps as [slots |]; [| by apply sound_ret].
  simpl in Hps.
  apply (sound_bind _ _ (λ zip bs, Forall2 (λ a b, sameOpt a (loadOpt zip b)) slots bs)
           (λ bs zip r, r = Some bs)).
  - apply sound_mapSave. eapply Forall_impl; [exact Hps |].
    intros p Hp. by apply sound_addOptional.
  - intros bs. by apply sound_ret.
  - intros zip bs r Hbs ->. simpl. by apply Forall2_fmap_r.
Qed.

Lemma sound_processImage img :
  imagePayloadsAreDataUrls base64_encode img →
  sound (processImage base64_decode stamp img)
    (λ zip img', sameImage base64_encode img
                   (restoreImage base64_encode JsonText textBytes zip img')).
Proof.
  intros ([bytes Hsrc] & Hsheet & Hposes & Hvideo & Hmask). unfold processImage.
  apply (sound_bind _ _ (λ zip path, truthy path = true ∧ load zip path = reread bytes)
           (λ src zip img', load zip src = reread bytes →
              sameImage base64_encode img
                (restoreImage base64_encode JsonText textBytes zip img')));
    [by apply sound_addAsset | | by intros zip src img' (_ & H) Himg; apply Himg].
  intros src.
  apply (sound_bind _ _ (λ zip o, sameOpt (modelSheetSrc img) (loadOpt zip o))
           (λ sheet zip img', sameOpt (modelSheetSrc img) (loadOpt zip sheet) →
              load zip src = reread bytes →
              sameImage base64_encode img
                (restoreImage base64_encode JsonText textBytes zip img')));
    [by apply sound_addOptional | | by intros zip o img' H Himg; apply Himg].
  intros sheet.
  apply (sound_bind _ _
           (λ zip r, samePoses base64_encode (poses img)
                       (fmap (M := list) (loadOpt zip) <$> r))
           (λ ps zip img',
              samePoses base64_encode (poses img) (fmap (M := list) (loadOpt zip) <$> ps) →
              sameOpt (modelSheetSrc img) (loadOpt zip sheet) →
              load zip src = reread bytes →
              sameImage base64_encode img
                (restoreImage base64_encode JsonText textBytes zip img')));
    [by apply sound_addPoses | | by intros zip o img' H Himg; apply Himg].
  intros ps.
  apply (sound_bind _ _ (λ zip o, sameOpt (videoSrc img) (loadOpt zip o))
           (λ vid zip img', sameOpt (videoSrc img) (loadOpt zip vid) →
              samePoses base64_encode (poses img) (fmap (M := list) (loadOpt zip) <$> ps) →
              sameOpt (modelSheetSrc img) (loadOpt zip sheet) →
              load zip src = reread bytes →
              sameImage base64_encode img
                (restoreImage base64_encode JsonText textBytes zip img')));
    [by apply sound_addOptional | | by intros zip o img' H Himg; apply Himg].
  intros vid.
  apply (sound_bind _ _ (λ zip o, sameOpt (maskSrc img) (loadOpt zip o))
           (λ mask zip img', img' = withPayloads src sheet ps vid mask img));
    [by apply sound_addOptional | by intros mask; apply sound_ret |].
  intros zip mask img' Hmask' -> Hvid' Hps' Hsh' Hload.
  unfold sameImage, restoreImage. simpl. repeat split; try done.
  rewrite Hload. exists bytes. split; [done | apply carries_readAsDataURL].
Qed.

Lemma sound_processDrawing canvas :
  populated (drawingSrc canvas) →
  sound (processDrawing base64_decode stamp canvas)
    (λ zip canvas', sameDrawing base64_encode canvas
                      (restoreDrawing base64_encode JsonText textBytes zip canvas')).
Proof.
  intros Hsrc. unfold processDrawing.
  apply (sound_bind _ _ (λ zip o, sameOpt (drawingSrc canvas) (loadOpt zip o))
           (λ src zip canvas', canvas' = withDrawingSrc src canvas));
    [by apply sound_addOptional | by intros src; apply sound_ret |].
  intros zip src canvas' Hsame ->. unfold sameDrawing, restoreDrawing. simpl.
  split; [by destruct canvas | done].
Qed.

Hypothesis JSON_roundtrip : ∀ projectData, JSON_parse (JSON_stringify projectData) = Some projectData.

Lemma sound_processDocument d :
  payloadsAreDataUrls base64_encode d →
  sound (sbind (mapSave (processImage base64_decode stamp) (images d)) (λ processedImages,
         sbind (mapSave (processDrawing base64_decode stamp) (drawingCanvases d))
           (λ processedDrawings, sret (processedImages, processedDrawings))))
    (λ zip r,
       Forall2 (sameImage base64_encode) (images d)
         (restoreImage base64_encode JsonText textBytes zip <$> r.1)
       ∧ Forall2 (sameDrawing base64_encode) (drawingCanvases d)
           (restoreDrawing base64_encode JsonText textBytes zip <$> r.2)).
Proof.
  intros [Himages Hdrawings].
  apply (sound_bind _ _
           (λ zip imgs, Forall2 (λ a b, sameImage base64_encode a
                          (restoreImage base64_encode JsonText textBytes zip b))
                          (images d) imgs)
           (λ imgs zip r, r.1 = imgs
              ∧ Forall2 (sameDrawing base64_encode) (drawingCanvases d)
                  (restoreDrawing base64_encode JsonText textBytes zip <$> r.2))).
  - apply sound_mapSave. eapply Forall_impl; [exact Himages |].
    intros img Himg. by apply sound_processImage.
  - intros imgs.
    apply (sound_bind _ _
             (λ zip draws, Forall2 (λ a b, sameDrawing base64_encode a
                             (restoreDrawing base64_encode JsonText textBytes zip b))
                             (drawingCanvases d) draws)
             (λ draws zip r, r = (imgs, draws))).
    + apply sound_mapSave. eapply Forall_impl; [exact Hdrawings |].
      intros canvas Hcanvas. by apply sound_processDrawing.
    + intros draws. by apply sound_ret.
    + intros zip draws r Hdraws ->. simpl. split; [done | by apply Forall2_fmap_r].
  - intros zip imgs r Himgs [-> Hdraws]. split; [by apply Forall2_fmap_r | done].
Qed.

Lemma stripExtension_story : stripExtension ("" +:+ ".story") = "".
Proof. reflexivity. Qed.


Lemma load_failure_untouched (file : ProjectFile JsonText) (s : AppState) :
  readProject base64_encode JsonText JSON_parse textBytes bytesText file = None →
  let s' := loadProjectFromFile base64_encode JsonText JSON_parse textBytes bytesText file s in
  doc s' = doc s ∧ sel s' = sel s ∧ alerts (ui s') = alerts (ui s) ++ [loadFailedNotice].
Proof. intros Hread. unfold loadProjectFromFile. by rewrite Hread. Qed.

Lemma missing_project_json (file : ProjectFile JsonText) zip :
  f_zip JsonText file = Some zip → zip !! "project.json" = None →
  readProject base64_encode JsonText JSON_parse textBytes bytesText file = None.
Proof. intros Hz Hp. unfold readProject. by rewrite Hz, Hp. Qed.

End ArchiveFacts.

Section Atomicity.
Import Geometry Layers Model Interaction Packing Text Generation Serialization.

(** C9. A generation run past its guards either has an attempt that
    returned, or ends with an error message on display; a run that ends with
    an error message has changed neither the document (images, text
    objects, drawing canvases, layer order) nor the selection and has added
    no object.  Loading a file whose archive has no [project.json] entry, or
    that cannot be read for another reason, leaves document and selection
    as they were and shows the load-failure notice. *)
Theorem failed_operations_leave_document :
  (∀ jsonIn sanitizeStack optimizeImageForApi createPaddedImage expandPrompt service
     browser now prompt s,
     let run := handleGenerateImage jsonIn sanitizeStack optimizeImageForApi
                  createPaddedImage expandPrompt service prompt s in
     let after := generate jsonIn sanitizeStack optimizeImageForApi createPaddedImage
                    expandPrompt service browser now prompt s in
     (is_Some (errorMessage (ui (app run))) →
      doc after = doc s ∧ sel after = sel s ∧ pending run = [])
     ∧ (truthy prompt = true → isLoading (ui s) = false → truthy (apiKey (ui s)) = true →
        (∃ n stn, 1 ≤ n ≤ maxRetries
           ∧ attemptBody optimizeImageForApi createPaddedImage s (service n) prompt
               (expandPrompt prompt (activeModel (ui s))).1
               (expandPrompt prompt (activeModel (ui s))).2 stn = (run, inr tt))
        ∨ (is_Some (errorMessage (ui (app run))) ∧ doc after = doc s)))
  ∧ (∀ base64_encode JsonText JSON_parse textBytes bytesText
       (file : ProjectFile JsonText) (s : AppState),
       let s' := loadProjectFromFile base64_encode JsonText JSON_parse textBytes bytesText
                   file s in
       ((∃ zip, f_zip JsonText file = Some zip ∧ zip !! "project.json" = None) →
        doc s' = doc s ∧ sel s' = sel s
        ∧ alerts (ui s') = alerts (ui s) ++ [loadFailedNotice])
       ∧ (readProject base64_encode JsonText JSON_parse textBytes bytesText file = None →
          doc s' = doc s ∧ sel s' = sel s
          ∧ alerts (ui s') = alerts (ui s) ++ [loadFailedNotice])).
Proof.
  split.
  - intros jsonIn sanitizeStack optimizeImageForApi createPaddedImage expandPrompt service
      browser now prompt s run after. split.
    + intros Herr.
      destruct (failed_run_generated jsonIn sanitizeStack optimizeImageForApi
                  createPaddedImage expandPrompt service browser now prompt s Herr)
        as [Hd Hs].
      destruct (failed_run_untouched jsonIn sanitizeStack optimizeImageForApi
                  createPaddedImage expandPrompt service prompt s Herr) as (_ & _ & Hp).
      by repeat split.
    + intros Hp Hl Hk.
      destruct (run_dichotomy jsonIn sanitizeStack optimizeImageForApi createPaddedImage
                  expandPrompt service prompt s Hp Hl Hk)
        as [Hok | (Herr & _)]; [by left | right].
      split; [done |].
      by destruct (failed_run_generated jsonIn sanitizeStack optimizeImageForApi
                     createPaddedImage expandPrompt service browser now prompt s Herr).
  - intros base64_encode JsonText JSON_parse textBytes bytesText file s s'. split.
    + intros (zip & Hz & Hp). apply load_failure_untouched.
      by eapply missing_project_json.
    + apply load_failure_untouched.
Qed.

End Atomicity.

(** * The properties on concrete scenes *)

Section Scenes.
Import Geometry Layers Model Interaction Packing Text Generation Serialization Lifecycle.
Import Scenario Gallery.

Ltac compute_decision :=
  match goal with |- ?P => apply (@bool_decide_unpack P _); vm_compute; exact I end.

(** C3, as stated, fails: an overload error caught on the last attempt is
    not retried; an error carrying the code 503 whose message reports a
    blocked request ends the loop at once; an error carrying the code 429
    whose message says the service is unavailable is classified overload and
    retried after one second. *)
Lemma overload_not_always_retried :
  catchVerdict noJson overloadedError 3 = GiveUp Overload
  ∧ catchVerdict noJson overloadedBlockedError 1 = StopSafety
  ∧ catchVerdict noJson quotaUnavailableError 1 = RetryAfter Overload 1000
  ∧ slept (runWith (λ _, failing overloadedError) "add a hat" maskedScene) = [1000; 2000]%Z
  ∧ tried (runWith (λ _, failing overloadedError) "add a hat" maskedScene) = [1; 2; 3].
Proof. repeat split; vm_compute; reflexivity. Qed.

Lemma retry_classification_witness :
  catchVerdict noJson quotaError 1 = RetryAfter Quota 5000
  ∧ catchVerdict noJson safetyError 1 = StopSafety
  ∧ catchVerdict noJson (newError "Request payload too large") 2 = StopClient
  ∧ catchVerdict noJson overloadedError 3 = GiveUp Overload
  ∧ ∃ k, k ≤ 3
      ∧ tried (runWith (λ _, failing quotaError) "add a hat" maskedScene) = seq 1 k.
Proof.
  destruct (retry_classification noJson keepStack passThrough padOk plainPrompt
              (λ _, failing quotaError))
    as (_ & Hbound & Hsafety & Hclient & Hretry & Hlast & Hoverload & Hquota & Hdelay & _).
  split; [| split; [| split; [| split]]].
  - rewrite (Hretry quotaError 1); [| reflexivity | reflexivity | unfold maxRetries; lia].
    rewrite (Hquota quotaError); [| reflexivity | left; reflexivity].
    by rewrite (proj2 (Hdelay quotaError 1)) by (apply Hquota; [reflexivity | left; reflexivity]).
  - apply Hsafety. reflexivity.
  - apply Hclient; reflexivity.
  - rewrite (Hlast overloadedError 3); [| reflexivity | reflexivity | unfold maxRetries; lia].
    rewrite (Hoverload overloadedError); [reflexivity | left; reflexivity].
  - destruct (Hbound "add a hat" maskedScene) as (k & Hk & Htried & _).
    exists k. split; [exact Hk | exact Htried].
Defined.

(** C4, as stated, fails: a blank drawing canvas created for the 9:16
    target is a single selected item of matching ratio, and a run on it makes
    no edit call at all. *)
Lemma matching_blank_canvas_makes_no_call :
  isSingleItem (editableItems (doc blankCanvasScene) (sel blankCanvasScene)) = true
  ∧ isMatchingAspectRatio (editableItems (doc blankCanvasScene) (sel blankCanvasScene))
      ar_9_16 = true
  ∧ calls (runWith (λ _, answering) "add a hat" blankCanvasScene) = []
  ∧ tried (runWith (λ _, answering) "add a hat" blankCanvasScene) = [1; 2; 3].
Proof. repeat split; vm_compute; reflexivity. Qed.

Lemma aspect_match_selects_path_witness :
  isMatchingAspectRatio [EditImage maskedImage] ar_9_16 = true
  ∧ editSelection passThrough padOk maskedScene answering "add a hat" "add a hat" None
      [EditCanvas {| cv_id := "canvas_1"; cv_x := 0; cv_y := 0; cv_width := 1024;
                     cv_height := 1820; drawingSrc := Some "" |}]
      "gemini-2.5-flash-image" (startRun maskedScene)
    = (startRun maskedScene, inl (newError "Selected items have no data."))
  ∧ calls (editSelection passThrough padOk maskedScene answering "add a hat" "add a hat"
             None [EditImage maskedImage] "gemini-2.5-flash-image"
             (startRun maskedScene)).1
    = [CallEditImage "add a hat" [passThrough "data:image/png;base64,AAAA"]
         "gemini-2.5-flash-image" (Some (passThrough "data:image/png;base64,MASK"))
         ar_9_16]
  ∧ calls (editSelection passThrough padOk squareTargetScene answering "add a hat"
             "add a hat" None [EditImage maskedImage] "gemini-2.5-flash-image"
             (startRun squareTargetScene)).1
    = [CallEditImage "add a hat" [passThrough "data:image/png;base64,AAAA"]
         "gemini-2.5-flash-image" None ar_1_1;
       CallCreatePaddedImage "RESULT" ar_1_1;
       CallEditImage outpaintingPrompt [passThrough (pngDataUrl "RESULT")]
         "gemini-2.5-flash-image" None ar_1_1]
  ∧ calls (editSelection passThrough padOk maskedScene (failing overloadedError)
             "add a hat" "add a hat" None [EditImage maskedImage; EditImage otherImage]
             "gemini-2.5-flash-image" (startRun maskedScene)).1
    = [CallEditImage "add a hat"
         [passThrough "data:image/png;base64,AAAA"; passThrough "data:image/png;base64,BBBB"]
         "gemini-2.5-flash-image" None ar_9_16].
Proof.
  destruct (aspect_match_selects_path passThrough padOk maskedScene answering
              "add a hat" "add a hat" None) as (Hiff & _ & Hpath & _ & Hguard & _).
  destruct (aspect_match_selects_path passThrough padOk squareTargetScene answering
              "add a hat" "add a hat" None) as (_ & _ & Hsquare & _).
  destruct (aspect_match_selects_path passThrough padOk maskedScene
              (failing overloadedError) "add a hat" "add a hat" None)
    as (_ & _ & Hfailing & _).
  split; [| split; [| split; [| split]]].
  - apply Hiff. vm_compute. reflexivity.
  - apply Hguard. reflexivity.
  - specialize (Hpath [EditImage maskedImage] "gemini-2.5-flash-image"
                  (startRun maskedScene)).
    cbv zeta in Hpath.
    destruct (isSingleItem [EditImage maskedImage]
              && isMatchingAspectRatio [EditImage maskedImage] (aspectRatio (doc maskedScene)))
      eqn:Hmatch in Hpath; [| vm_compute in Hmatch; discriminate Hmatch].
    destruct Hpath as [Hcalls _]; [discriminate |]. rewrite Hcalls. reflexivity.
  - specialize (Hsquare [EditImage maskedImage] "gemini-2.5-flash-image"
                  (startRun squareTargetScene)).
    cbv zeta in Hsquare.
    destruct (isSingleItem [EditImage maskedImage]
              && isMatchingAspectRatio [EditImage maskedImage]
                   (aspectRatio (doc squareTargetScene)))
      eqn:Hmatch in Hsquare; [vm_compute in Hmatch; discriminate Hmatch |].
    cbn [editImage answering padOk] in Hsquare.
    destruct Hsquare as [Hcalls _]; [discriminate |]. rewrite Hcalls. reflexivity.
  - specialize (Hfailing [EditImage maskedImage; EditImage otherImage]
                  "gemini-2.5-flash-image" (startRun maskedScene)).
    cbv zeta in Hfailing.
    destruct (isSingleItem [EditImage maskedImage; EditImage otherImage]
              && isMatchingAspectRatio [EditImage maskedImage; EditImage otherImage]
                   (aspectRatio (doc maskedScene)))
      eqn:Hmatch in Hfailing; [vm_compute in Hmatch; discriminate Hmatch |].
    cbn [editImage failing] in Hfailing.
    destruct Hfailing as [Hcalls _]; [discriminate |]. rewrite Hcalls. reflexivity.
Defined.

(** C5, as stated, fails: with an image at x = 50 and a text at x = 10
    selected, the image is the first packed reference and carries badge 2;
    with the image and a blank drawing canvas at x = 10 selected, the image
    is the only reference sent and carries badge 2. *)
Lemma badge_counts_selected_texts :
  e_id <$> editableItems imageAndTextDoc imageAndTextSelection = ["a"]
  ∧ selectionOrder imageAndTextDoc imageAndTextSelection "a" = 2
  ∧ e_id <$> editableItems canvasAndImageDoc canvasAndImageSelection = ["canvas_1"; "a"]
  ∧ validReferenceData passThrough
      (editableItems canvasAndImageDoc canvasAndImageSelection)
    = [passThrough "data:image/png;base64,AAAA"]
  ∧ selectionOrder canvasAndImageDoc canvasAndImageSelection "a" = 2.
Proof. repeat split; vm_compute; reflexivity. Qed.

Lemma packing_order_and_badges_witness :
  selectionOrder threeItemsDoc threeItemsSelection "c" = 1 + 1
  ∧ validReferenceData passThrough (editableItems threeItemsDoc threeItemsSelection) !! 1
    = Some (passThrough "data:image/png;base64,AAAA")
  ∧ selectionOrder imageAndTextDoc imageAndTextSelection "t" = 0 + 1.
Proof.
  destruct packing_order_and_badges as [Hgeneral _].
  destruct (Hgeneral passThrough threeItemsDoc threeItemsSelection)
    as (_ & _ & _ & _ & _ & Hpacked).
  destruct (Hgeneral passThrough imageAndTextDoc imageAndTextSelection)
    as (_ & _ & _ & _ & Hbadge & _).
  destruct (Hpacked eq_refl) with (i := 1) (item := EditImage (imageAt "c" 30))
    as [Hsent Horder].
  - compute_decision.
  - compute_decision.
  - simpl. lia.
  - vm_compute. reflexivity.
  - split; [exact Horder | split; [exact Hsent |]].
    apply Hbadge with (it := ItemText (textAt "t" 10)).
    + compute_decision.
    + simpl. lia.
    + vm_compute. reflexivity.
Defined.

(** The scene after an image has loaded and a text has been placed. *)
Lemma selections_live_and_delete_prunes_witness :
  let s := run browser
             [OpImageLoaded "1"
                (addImageToCanvas (initialState "key") "data:image/png;base64,AAAA"
                   original noOptions);
              OpAddText "2" 0 0] (initialState "key") in
  wellFormed s ∧ removedEverywhere ["img_1"] "img_1" s (deleteImages ["img_1"] s).
Proof.
  intros s.
  destruct (selections_live_and_delete_prunes browser) as (_ & _ & Hwf & Hdel & _).
  assert (Hs : wellFormed s).
  { apply Hwf.
    - repeat split; try done; apply NoDup_nil_2.
    - simpl. split; [| split; [| done]]; intros id [= <-]; compute_decision. }
  split; [done |].
  apply (Hdel s ["img_1"] "img_1" Hs); compute_decision.
Defined.

(** C6, as stated, fails: the id of a loaded image is made of the clock
    value, so two images that finish loading within one millisecond share
    their id; the layer order then lists the id twice, and deleting that id
    takes both entries out of the layer order and both images out of the
    document. *)
Lemma same_instant_loads_share_id :
  img_src <$> images (doc sameInstantLoads)
  = ["data:image/png;base64,AAAA"; "data:image/png;base64,BBBB"]
  ∧ imageIds sameInstantLoads = ["img_1700000000000"; "img_1700000000000"]
  ∧ layerOrder (doc sameInstantLoads) = ["img_1700000000000"; "img_1700000000000"]
  ∧ occurrences "img_1700000000000" (layerOrder (doc sameInstantLoads)) = 2
  ∧ images (doc (deleteImages ["img_1700000000000"] sameInstantLoads)) = []
  ∧ layerOrder (doc (deleteImages ["img_1700000000000"] sameInstantLoads)) = [].
Proof. repeat split; vm_compute; reflexivity. Qed.

(** C8, as stated, fails: when every attempt fails the painted mask of the
    selected image is still there after the run; and selecting another image
    deselects the masked one without clearing its mask. *)
Lemma mask_survives_failure_and_reselection :
  maskSrc <$> images (doc (generateWith (λ _, failing overloadedError) "add a hat"
                             maskedScene))
  = [Some "data:image/png;base64,MASK"; None]
  ∧ selectedImageIds (sel (handleNodeSelect false "img_2" node_image maskedScene))
    = ["img_2"]
  ∧ maskSrc <$> images (doc (handleNodeSelect false "img_2" node_image maskedScene))
    = [Some "data:image/png;base64,MASK"; None].
Proof. repeat split; vm_compute; reflexivity. Qed.

Lemma masks_cleared_on_success_and_background_witness :
  maskSrc <$> images (doc (generateWith (λ _, answering) "add a hat" maskedScene))
  = [None; None; None]
  ∧ Forall (λ img, img_id img ∈ selectedImageIds (sel maskedScene) → maskSrc img = None)
      (images (doc (generateWith (λ _, answering) "add a hat" maskedScene))).
Proof.
  split; [vm_compute; reflexivity |].
  destruct (masks_cleared_on_success_and_background noJson keepStack passThrough padOk
              plainPrompt (λ _, answering) browser "2") as (Hok & _).
  apply Forall_forall.
  apply (Hok "add a hat" maskedScene); vm_compute; reflexivity.
Defined.

Lemma letters_byte b rest :
  lettersDecode (encodeByte b +:+ rest) = b :: lettersDecode rest
  ∧ list_ascii_of_string (encodeByte b +:+ rest)
    = nibbleChar (Byte.to_N b / 16) :: nibbleChar (Byte.to_N b mod 16)
      :: list_ascii_of_string rest
  ∧ nibbleChar (Byte.to_N b / 16) ≠ ","%char
  ∧ nibbleChar (Byte.to_N b mod 16) ≠ ","%char.
Proof. destruct b; (split; [reflexivity | split; [reflexivity | split; discriminate]]). Qed.

Lemma letters_roundtrip bytes : lettersDecode (lettersEncode bytes) = bytes.
Proof.
  induction bytes as [| b bytes IH]; [done |]. cbn [lettersEncode].
  destruct (letters_byte b (lettersEncode bytes)) as [-> _]. by rewrite IH.
Qed.

Lemma letters_commaFree bytes : commaFree (lettersEncode bytes).
Proof.
  unfold commaFree. induction bytes as [| b bytes IH]; [apply not_elem_of_nil |].
  cbn [lettersEncode].
  destruct (letters_byte b (lettersEncode bytes)) as (_ & -> & H1 & H2).
  rewrite !not_elem_of_cons. by repeat split.
Qed.


Ltac data_url mime text :=
  exists (lettersDecode text), mime; split; [compute_decision | reflexivity].

Ltac unpopulated := intros Hset; vm_compute in Hset; discriminate Hset.


Lemma failed_operations_leave_document_witness :
  doc (generateWith (λ _, failing overloadedError) "add a hat" maskedScene)
  = doc maskedScene
  ∧ doc (loadWith emptyArchive maskedScene) = doc maskedScene
  ∧ alerts (ui (loadWith emptyArchive maskedScene)) = [loadFailedNotice].
Proof.
  destruct failed_operations_leave_document as [Hgen Hload].
  split.
  - destruct (Hgen noJson keepStack passThrough padOk plainPrompt
                (λ _, failing overloadedError) browser "2" "add a hat" maskedScene)
      as [Hfailed _].
    apply Hfailed. vm_compute. by eexists.
  - destruct (Hload lettersEncode ProjectData Some (λ _, []) (λ _, blankProject)
                emptyArchive maskedScene) as [Hmissing _].
    destruct Hmissing as (Hd & _ & Ha); [| by split].
    exists ∅. split; [done | apply lookup_empty].
Defined.

End Scenes.

Section ViewportFacts.
Import Geometry Layers Model Interaction Viewport.

Lemma jsRound_mono (a b : Q) : (a <= b)%Q → (jsRound a <= jsRound b)%Q.
Proof.
  intros H. unfold jsRound. rewrite <- Zle_Qle. apply Qfloor_resp_le. lra.
Qed.

Lemma jsRound_integer (n : Z) : jsRound (inject_Z n) = inject_Z n.
Proof.
  unfold jsRound. f_equal.
  assert (H1 : (n <= Qfloor (inject_Z n + 0.5))%Z).
  { rewrite <- (Qfloor_Z n) at 1. apply Qfloor_resp_le. lra. }
  assert (H2 : (Qfloor (inject_Z n + 0.5) < n + 1)%Z).
  { pose proof (Qfloor_le (inject_Z n + 0.5)) as Hf.
    rewrite Zlt_Qlt, inject_Z_plus. change (inject_Z 1) with 1%Q. lra. }
  lia.
Qed.

Lemma jsRound_between (n m : Z) (v : Q) :
  (inject_Z n <= v <= inject_Z m)%Q → (inject_Z n <= jsRound v <= inject_Z m)%Q.
Proof.
  intros [Hl Hu]. split.
  - rewrite <- (jsRound_integer n). by apply jsRound_mono.
  - rewrite <- (jsRound_integer m). by apply jsRound_mono.
Qed.

(** X1. After any wheel event the zoom percentage the header shows,
    [Math.round(scale * 100)], lies between 10 and 500, whatever the
    transform was before. *)
Theorem zoom_percentage_within_range (T : CanvasTransform) (e : WheelEvent) (rect : Rect) :
  (10 <= zoomPercentage (t_scale (handleWheel T e rect)) <= 500)%Q.
Proof.
  unfold zoomPercentage, handleWheel; cbn [t_scale].
  set (c := clampScale _).
  pose proof (clampScale_lower (t_scale T + - deltaY e * 0.001)) as Hl.
  pose proof (clampScale_upper (t_scale T + - deltaY e * 0.001)) as Hu.
  fold c in Hl, Hu.
  apply (jsRound_between 10 500). change (inject_Z 10) with 10%Q.
  change (inject_Z 500) with 500%Q. lra.
Qed.

(** X2. For a non-zero scale, the screen-to-canvas conversion of the pointer
    handlers and the placement of the content layer by its CSS transform are
    inverse to each other, in both directions. *)
Theorem screen_canvas_roundtrip (p : Q * Q) (T : CanvasTransform) :
  ~ (t_scale T == 0)%Q →
  (fst (canvasToScreen (screenToCanvas p T) T) == fst p)%Q
  ∧ (snd (canvasToScreen (screenToCanvas p T) T) == snd p)%Q
  ∧ (fst (screenToCanvas (canvasToScreen p T) T) == fst p)%Q
  ∧ (snd (screenToCanvas (canvasToScreen p T) T) == snd p)%Q.
Proof.
  intros Hs. unfold canvasToScreen, screenToCanvas; cbn [fst snd].
  repeat split; field; exact Hs.
Qed.

Lemma mouseMoves_snoc rect es e st :
  mouseMoves rect (es ++ [e]) st = handleMouseMove rect e (mouseMoves rect es st).
Proof. unfold mouseMoves. by rewrite foldl_app. Qed.

Lemma onBackgroundClickFrom_transform closure s :
  transform (doc (onBackgroundClickFrom closure s)) = transform (doc s).
Proof.
  unfold onBackgroundClickFrom.
  destruct (selectedImageIds (sel closure)), (isContextTool _); reflexivity.
Qed.

Lemma onBackgroundClickFrom_tool closure s :
  isContextTool (activeTool (ui closure)) = false →
  activeTool (ui (onBackgroundClickFrom closure s)) = activeTool (ui s).
Proof.
  intros H. unfold onBackgroundClickFrom. rewrite H.
  destruct (selectedImageIds (sel closure)); reflexivity.
Qed.

Lemma panning_move s e0 rect e st :
  panning s e0 st →
  panning s e0 (handleMouseMove rect e st)
  ∧ lastMousePos (handleMouseMove rect e st).2 = (mouseX e, mouseY e).
Proof.
  destruct st as [s1 c]. intros (Hp & Ht & Hs & Hx & Hy); simpl in *.
  unfold handleMouseMove. rewrite Hp, Ht. simpl.
  repeat split; simpl; try assumption; lra.
Qed.

Lemma panning_moves s e0 rect es st :
  panning s e0 st → panning s e0 (mouseMoves rect es st).
Proof.
  induction es as [|e es IH] using rev_ind; [done|].
  intros H. rewrite mouseMoves_snoc. by apply panning_move, IH.
Qed.

(** X3. With the pan tool active, after a press on the canvas background
    followed by any sequence of mouse moves, the canvas point under the
    pointer is the one that was under it at the press, and the scale is
    unchanged. *)
Theorem pan_keeps_grabbed_point (now : string) (rect : Rect) (e0 e : MouseEvent)
    (es : list MouseEvent) (s : AppState) (c : CanvasLocal) :
  activeTool (ui s) = pan → onBackground e0 = true →
  let st := mouseMoves rect (es ++ [e]) (handleMouseDown now rect e0 (s, c)) in
  (fst (screenToCanvas (relativeTo rect e) (transform (doc st.1)))
   == fst (screenToCanvas (relativeTo rect e0) (transform (doc s))))%Q
  ∧ (snd (screenToCanvas (relativeTo rect e) (transform (doc st.1)))
     == snd (screenToCanvas (relativeTo rect e0) (transform (doc s))))%Q
  ∧ t_scale (transform (doc st.1)) = t_scale (transform (doc s)).
Proof.
  intros Htool Hbg st.
  assert (Hstart : panning s e0 (handleMouseDown now rect e0 (s, c))).
  { unfold handleMouseDown. rewrite Hbg, Htool. simpl.
    unfold panning; simpl. rewrite onBackgroundClickFrom_transform.
    rewrite onBackgroundClickFrom_tool by (by rewrite Htool).
    repeat split; try done. }
  subst st. rewrite mouseMoves_snoc.
  destruct (panning_move s e0 rect e _ (panning_moves s e0 rect es _ Hstart))
    as [(_ & _ & Hs & Hx & Hy) Hlast].
  set (final := handleMouseMove rect e _) in *. clearbody final.
  rewrite Hlast in Hx, Hy. cbn [fst snd] in Hx, Hy.
  unfold screenToCanvas, relativeTo; cbn [fst snd]. rewrite Hs.
  repeat split.
  - apply Qmult_comp; [lra | reflexivity].
  - apply Qmult_comp; [lra | reflexivity].
Qed.

Lemma span_axis (a b : Q) : (Qmin a b + Qabs (b - a) == Qmax a b)%Q.
Proof.
  destruct (Q.min_spec a b) as [[H1 ->]|[H1 ->]],
           (Q.max_spec a b) as [[H2 ->]|[H2 ->]];
    apply Qabs_case; intros; lra.
Qed.

Lemma lessThan_spec a b : lessThan a b = true ↔ (a < b)%Q.
Proof.
  unfold lessThan. destruct (Qlt_le_dec a b); split; intros; try done. lra.
Qed.

Lemma isInside_spans box p q x y w h :
  spans box p q → isInside box x y w h = true ↔ spanOverlaps p q x y w h.
Proof.
  intros (Hx & Hr & Hy & Hb). unfold isInside, spanOverlaps.
  rewrite !andb_true_iff, !lessThan_spec.
  split; [intros (((? & ?) & ?) & ?) | intros (? & ? & ? & ?)]; repeat split; lra.
Qed.

Lemma selecting_move s1 p q rect e st :
  activeTool (ui s1) = select → selecting s1 p q st →
  selecting s1 p (screenToCanvas (relativeTo rect e) (transform (doc s1)))
    (handleMouseMove rect e st).
Proof.
  destruct st as [s c]. intros Htool (Hs & Hsel & Hstart & _); simpl in *. subst s.
  unfold handleMouseMove. rewrite Hsel, Htool, andb_false_r. simpl.
  repeat split; try done. eexists; split; [reflexivity|].
  rewrite Hstart. unfold spans; simpl. repeat split; try reflexivity; apply span_axis.
Qed.

Lemma selecting_moves s1 p rect es st :
  activeTool (ui s1) = select → selecting s1 p p st →
  selecting s1 p
    (match last es with
     | Some e => screenToCanvas (relativeTo rect e) (transform (doc s1))
     | None => p
     end) (mouseMoves rect es st).
Proof.
  intros Htool Hst. induction es as [|e es IH] using rev_ind; [done|].
  rewrite mouseMoves_snoc, last_snoc. by eapply selecting_move.
Qed.

Lemma elem_of_filtered {A} (f : A → bool) (key : A → string) (l : list A) id :
  id ∈ key <$> List.filter f l ↔ ∃ a, a ∈ l ∧ key a = id ∧ f a = true.
Proof.
  rewrite list_elem_of_fmap. split.
  - intros (a & -> & Ha). apply list_elem_of_In, filter_In in Ha as [Ha Hf].
    exists a. by rewrite list_elem_of_In.
  - intros (a & Ha & <- & Hf). exists a. split; [done|].
    apply list_elem_of_In, filter_In. by rewrite <- list_elem_of_In.
Qed.

Lemma onBackgroundClickFrom_document closure s :
  Forall2 (λ a b, b = a ∨ b = withMaskSrc None a)
    (images (doc s)) (images (doc (onBackgroundClickFrom closure s)))
  ∧ textObjects (doc (onBackgroundClickFrom closure s)) = textObjects (doc s)
  ∧ drawingCanvases (doc (onBackgroundClickFrom closure s)) = drawingCanvases (doc s)
  ∧ layerOrder (doc (onBackgroundClickFrom closure s)) = layerOrder (doc s).
Proof.
  assert (Hsame : ∀ l : list ImageObject,
            Forall2 (λ a b, b = a ∨ b = withMaskSrc None a) l l).
  { intros l. apply Forall_Forall2_diag, Forall_forall. auto. }
  assert (Hmap : ∀ (f : ImageObject → bool) (l : list ImageObject),
            Forall2 (λ a b, b = a ∨ b = withMaskSrc None a) l
              ((λ img, if f img then withMaskSrc None img else img) <$> l)).
  { intros f l. apply Forall2_fmap_r, Forall_Forall2_diag, Forall_forall.
    intros img _. simpl. destruct (f img); auto. }
  unfold onBackgroundClickFrom.
  destruct (selectedImageIds (sel closure)) as [|i ids], (isContextTool _); simpl;
    repeat split; try done; try apply Hsame;
    apply (Hmap (λ img, bool_decide (img_id img ∈ i :: ids) && truthyOpt (maskSrc img))).
Qed.

(** X4. With the select tool active, a press on the canvas background, any
    mouse moves and a release select exactly the images, texts and drawing
    canvases whose rectangle strictly overlaps the rectangle spanned (in
    canvas coordinates) by the press point and the last pointer position.
    The objects and the layer order stay as they were, except that the press
    clears the masks of the images selected before; the selection box is
    removed. *)
Theorem marquee_selects_overlapping (now : string) (rect : Rect) (e0 : MouseEvent)
    (es : list MouseEvent) (s : AppState) (c : CanvasLocal) :
  activeTool (ui s) = select → onBackground e0 = true →
  let p := screenToCanvas (relativeTo rect e0) (transform (doc s)) in
  let q := match last es with
           | Some e => screenToCanvas (relativeTo rect e) (transform (doc s))
           | None => p
           end in
  let st := handleMouseUpOrLeave (mouseMoves rect es (handleMouseDown now rect e0 (s, c))) in
  (∀ id, id ∈ selectedImageIds (sel st.1) ↔
     ∃ img, img ∈ images (doc st.1) ∧ img_id img = id
       ∧ spanOverlaps p q (img_x img) (img_y img) (img_width img) (img_height img))
  ∧ (∀ id, id ∈ selectedTextIds (sel st.1) ↔
       ∃ txt, txt ∈ textObjects (doc s) ∧ txt_id txt = id
         ∧ spanOverlaps p q (txt_x txt) (txt_y txt) (txt_width txt) (txt_height txt))
  ∧ (∀ id, id ∈ selectedDrawingCanvasIds (sel st.1) ↔
       ∃ can, can ∈ drawingCanvases (doc s) ∧ cv_id can = id
         ∧ spanOverlaps p q (cv_x can) (cv_y can) (cv_width can) (cv_height can))
  ∧ Forall2 (λ a b, b = a ∨ b = withMaskSrc None a) (images (doc s)) (images (doc st.1))
  ∧ textObjects (doc st.1) = textObjects (doc s)
  ∧ drawingCanvases (doc st.1) = drawingCanvases (doc s)
  ∧ layerOrder (doc st.1) = layerOrder (doc s)
  ∧ selectionBox st.2 = None.
Proof.
  intros Htool Hbg p q st.
  set (s1 := onBackgroundClickFrom s s).
  assert (Htool1 : activeTool (ui s1) = select).
  { unfold s1. rewrite onBackgroundClickFrom_tool; by rewrite Htool. }
  assert (HT : transform (doc s1) = transform (doc s))
    by apply onBackgroundClickFrom_transform.
  assert (Hstart : selecting s1 p p (handleMouseDown now rect e0 (s, c))).
  { unfold handleMouseDown. rewrite Hbg, Htool. simpl.
    repeat split; try done. eexists; split; [reflexivity|].
    unfold spans; simpl. rewrite !Q.min_id, !Q.max_id. repeat split; try reflexivity; lra. }
  pose proof (selecting_moves s1 p rect es _ Htool1 Hstart) as Hend.
  rewrite HT in Hend. fold q in Hend.
  subst st. destruct (mouseMoves rect es _) as [s2 c2].
  destruct Hend as (Hs & Hsel & _ & box & Hbox & Hspan); simpl in *. subst s2.
  unfold handleMouseUpOrLeave. rewrite Hsel, Hbox.
  destruct (onBackgroundClickFrom_document s s) as (Himg & Htxt & Hcan & Hlay).
  fold s1 in Himg, Htxt, Hcan, Hlay. simpl.
  repeat split; try done.
  - rewrite elem_of_filtered. intros (img & ? & ? & ?). exists img.
    by rewrite <- (isInside_spans box).
  - intros (img & ? & ? & ?). apply elem_of_filtered. exists img.
    by rewrite (isInside_spans box p q).
  - rewrite elem_of_filtered, Htxt. intros (txt & ? & ? & ?). exists txt.
    by rewrite <- (isInside_spans box).
  - intros (txt & ? & ? & ?). apply elem_of_filtered. rewrite Htxt. exists txt.
    by rewrite (isInside_spans box p q).
  - rewrite elem_of_filtered, Hcan. intros (can & ? & ? & ?). exists can.
    by rewrite <- (isInside_spans box).
  - intros (can & ? & ? & ?). apply elem_of_filtered. rewrite Hcan. exists can.
    by rewrite (isInside_spans box p q).
Qed.

(** X5. With the text tool active, a press on the canvas background appends
    a text object with id [txt_<now>] at the pressed canvas point, and its
    id to the end of the layer order.  The background-click callback runs
    after the text is added: the selection ends empty and the active tool
    ends as [pan]. *)
Theorem text_tool_click_adds_text (now : string) (rect : Rect) (e : MouseEvent)
    (s : AppState) (c : CanvasLocal) :
  activeTool (ui s) = text → onBackground e = true →
  let st := handleMouseDown now rect e (s, c) in
  let p := screenToCanvas (relativeTo rect e) (transform (doc s)) in
  (∃ txt, textObjects (doc st.1) = textObjects (doc s) ++ [txt]
     ∧ txt_id txt = "txt_" +:+ now ∧ txt_x txt = fst p ∧ txt_y txt = snd p)
  ∧ layerOrder (doc st.1) = layerOrder (doc s) ++ ["txt_" +:+ now]
  ∧ sel st.1 = {| selectedImageIds := []; selectedTextIds := [];
                  selectedDrawingCanvasIds := [] |}
  ∧ activeTool (ui st.1) = pan
  ∧ st.2 = c.
Proof.
  intros Htool Hbg. unfold handleMouseDown. rewrite Hbg, Htool. simpl.
  unfold onBackgroundClickFrom. rewrite Htool.
  destruct (selectedImageIds (sel s)); simpl; repeat split; try done; by eexists.
Qed.

Lemma indexOf_front id (front : list string) :
  id ∉ front → indexOf id (front ++ [id]) = Some (length front).
Proof.
  induction front as [|x front IH]; simpl; intros Hid.
  - by rewrite decide_True.
  - apply not_elem_of_cons in Hid as [Hne Hid].
    rewrite decide_False by done. by rewrite IH.
Qed.

Lemma indexOf_behind id other (front : list string) :
  other ≠ id →
  indexOf other (front ++ [id]) = indexOf other front
  ∧ (other ∈ front → ∃ i, indexOf other front = Some i ∧ i < length front).
Proof.
  intros Hne. induction front as [|x front [IH1 IH2]]; simpl.
  - rewrite decide_False by done. split; [done|]. by intros ?%elem_of_nil.
  - destruct (decide (x = other)) as [->|Hx].
    + split; [done|]. intros _. exists 0. split; [done|lia].
    + rewrite IH1. split; [done|].
      intros [?|Hin]%elem_of_cons; [done|].
      destruct (IH2 Hin) as (i & -> & Hi). exists (S i). split; [done|]. simpl; lia.
Qed.

Lemma handleMoveToFront_shape id prev :
  NoDup prev → ∃ front, handleMoveToFront id prev = front ++ [id]
    ∧ (id ∉ front) ∧ ∀ other, other ≠ id → other ∈ prev → other ∈ front.
Proof.
  intros Hnd. unfold handleMoveToFront, lastId.
  destruct (decide (last prev = Some id)) as [Hlast|Hlast].
  - apply last_Some in Hlast as [front ->]. exists front.
    apply NoDup_app in Hnd as (_ & Hdisj & _).
    repeat split; [|set_solver]. intros Hin. apply (Hdisj id Hin). set_solver.
  - exists (filter (λ item, item ≠ id) prev). repeat split.
    + intros [? _]%list_elem_of_filter. done.
    + intros other ? ?. by apply list_elem_of_filter.
Qed.

(** X6. When the layer order has no duplicate, after the selection handler
    of a node has run the z-index rendered for that node is at least that of
    any other id, and strictly above that of every other id the layer order
    lists. *)
Theorem selected_node_on_top (shiftKey : bool) (id other : string) (k : NodeKind)
    (s : AppState) :
  NoDup (layerOrder (doc s)) → other ≠ id →
  let order := layerOrder (doc (handleNodeSelect shiftKey id k s)) in
  zIndex order other ≤ zIndex order id
  ∧ (other ∈ layerOrder (doc s) → zIndex order other < zIndex order id).
Proof.
  intros Hnd Hne order. subst order. rewrite handleNodeSelect_layerOrder.
  destruct (handleMoveToFront_shape id _ Hnd) as (front & -> & Hid & Hin).
  unfold zIndex. rewrite (indexOf_front id front Hid).
  destruct (indexOf_behind id other front Hne) as [-> Hlt]. simpl.
  assert (Hle : default 0 (indexOf other front) ≤ length front).
  { clear. induction front as [|x front IH]; simpl; [done|].
    destruct (decide _); simpl; [lia|]. destruct (indexOf other front); simpl in *; lia. }
  split; [done|]. intros Hother.
  destruct (Hlt (Hin other Hne Hother)) as (i & -> & Hi). done.
Qed.

End ViewportFacts.

Section NodeFacts.
Import Geometry Layers Model Interaction Text Viewport Updates Nodes.

Ltac by_handle handle :=
  destruct handle; unfold handleIncludes;
  repeat match goal with
    | |- context [includes ?a ?b] =>
        let v := eval vm_compute in (includes a b) in change (includes a b) with v
    end;
  cbn [negb]; cbv iota; unfold lessThan;
  repeat match goal with
    | |- context [Qlt_le_dec ?a ?b] => destruct (Qlt_le_dec a b)
    end;
  cbv iota; cbn [f_x f_y f_width f_height fst snd].

(** X7. Resizing an image of positive size by any of its eight handles makes
    one update of x, y, width and height: the width is at least 20; a corner
    handle keeps the width/height ratio, a middle handle keeps the height at
    least 20; the right edge stays fixed for a left handle and the left edge
    otherwise, the bottom edge stays fixed for a top handle and the top edge
    otherwise. *)
Theorem image_resize_anchored (id : string) (scale : Q) (handle : ResizeHandle)
    (mouse : Q * Q) (img : ImageObject) (e : MouseEvent) :
  (0 < img_width img)%Q → (0 < img_height img)%Q →
  ∃ r, imageMouseMove id scale (mkAction (Some resize) (Some handle) mouse img) e
       = [UpdateImage id [ImgX (f_x r); ImgY (f_y r); ImgWidth (f_width r);
                          ImgHeight (f_height r)]]
    ∧ (20 <= f_width r)%Q
    ∧ (if handleIncludes handle "m" then (20 <= f_height r)%Q
       else (f_width r / f_height r == img_width img / img_height img)%Q)
    ∧ (if handleIncludes handle "l"
       then (f_x r + f_width r == img_x img + img_width img)%Q
       else (f_x r == img_x img)%Q)
    ∧ (if handleIncludes handle "t"
       then (f_y r + f_height r == img_y img + img_height img)%Q
       else (f_y r == img_y img)%Q).
Proof.
  intros Hw Hh. eexists. split; [reflexivity|].
  cbn [a_initial a_initialMouse fst snd].
  set (dx := ((mouseX e - mouse.1) / scale)%Q).
  set (dy := ((mouseY e - mouse.2) / scale)%Q).
  clearbody dx dy. unfold resizeImage.
  by_handle handle; repeat split; try lra; try (field; lra).
Qed.

(** X8. Resizing a drawing canvas by any of its eight handles makes one
    update of x, y, width and height: both sizes are at least 20, and the
    edges opposite to the dragged handle stay where they were. *)
Theorem canvas_resize_anchored (id : string) (scale : Q) (handle : ResizeHandle)
    (mouse : Q * Q) (canvas : DrawingCanvasObject) (e : MouseEvent) :
  ∃ r, canvasMouseMove id scale (mkAction (Some resize) (Some handle) mouse canvas) e
       = [UpdateDrawingCanvas id [CvX (f_x r); CvY (f_y r); CvWidth (f_width r);
                                  CvHeight (f_height r)]]
    ∧ (20 <= f_width r)%Q ∧ (20 <= f_height r)%Q
    ∧ (if handleIncludes handle "l"
       then (f_x r + f_width r == cv_x canvas + cv_width canvas)%Q
       else (f_x r == cv_x canvas)%Q)
    ∧ (if handleIncludes handle "t"
       then (f_y r + f_height r == cv_y canvas + cv_height canvas)%Q
       else (f_y r == cv_y canvas)%Q).
Proof.
  eexists. split; [reflexivity|].
  cbn [a_initial a_initialMouse fst snd].
  set (dx := ((mouseX e - mouse.1) / scale)%Q).
  set (dy := ((mouseY e - mouse.2) / scale)%Q).
  clearbody dx dy. unfold resizeCanvas.
  by_handle handle; repeat split; lra.
Qed.

(** X9. Resizing a text object that is not being edited by a side handle
    makes one update of x and width: the width either stays as it was or
    exceeds 50; the left handle keeps the right edge fixed, the right handle
    keeps x. *)
Theorem text_resize_anchored (id : string) (scale : Q) (handle : TextHandle)
    (mouse : Q * Q) (txt : TextObject) (e : MouseEvent) :
  ∃ x width,
    textMouseMove id scale false (mkAction (Some resize) (Some handle) mouse txt) e
    = [UpdateTextObject id [TxtX x; TxtWidth width]]
    ∧ (width = txt_width txt ∨ (50 < width)%Q)
    ∧ match handle with
      | TextML => (x + width == txt_x txt + txt_width txt)%Q
      | TextMR => x = txt_x txt
      end.
Proof.
  unfold textMouseMove; cbn [a_type a_handle a_initial a_initialMouse fst snd].
  set (dx := ((mouseX e - mouse.1) / scale)%Q). clearbody dx.
  destruct handle; unfold resizeText, lessThan;
    destruct (Qlt_le_dec _ _); do 2 eexists; (split; [reflexivity|]);
    split; auto; lra.
Qed.

(** X10. At a non-zero scale, a drag move of an image, a text or a drawing
    canvas calls [onDragMove] and then updates x and y so that, on screen
    through the content transform, the object has moved from its initial
    place by exactly the displacement of the pointer since the press. *)
Theorem drag_follows_cursor (id : string) (T : CanvasTransform) (mouse : Q * Q)
    (e : MouseEvent) (img : ImageObject) (txt : TextObject) (canvas : DrawingCanvasObject)
    (handle : option ResizeHandle) (textHandle : option TextHandle) :
  ~ (t_scale T == 0)%Q →
  (∃ x y, imageMouseMove id (t_scale T) (mkAction (Some drag) handle mouse img) e
          = [OnDragMove e; UpdateImage id [ImgX x; ImgY y]]
     ∧ (fst (canvasToScreen (x, y) T) - fst (canvasToScreen (img_x img, img_y img) T)
        == mouseX e - fst mouse)%Q
     ∧ (snd (canvasToScreen (x, y) T) - snd (canvasToScreen (img_x img, img_y img) T)
        == mouseY e - snd mouse)%Q)
  ∧ (∃ x y, textMouseMove id (t_scale T) false
              (mkAction (Some drag) textHandle mouse txt) e
            = [TextOnDragMove e; UpdateTextObject id [TxtX x; TxtY y]]
     ∧ (fst (canvasToScreen (x, y) T) - fst (canvasToScreen (txt_x txt, txt_y txt) T)
        == mouseX e - fst mouse)%Q
     ∧ (snd (canvasToScreen (x, y) T) - snd (canvasToScreen (txt_x txt, txt_y txt) T)
        == mouseY e - snd mouse)%Q)
  ∧ (∃ x y, canvasMouseMove id (t_scale T) (mkAction (Some drag) handle mouse canvas) e
            = [CanvasOnDragMove e; UpdateDrawingCanvas id [CvX x; CvY y]]
     ∧ (fst (canvasToScreen (x, y) T) - fst (canvasToScreen (cv_x canvas, cv_y canvas) T)
        == mouseX e - fst mouse)%Q
     ∧ (snd (canvasToScreen (x, y) T) - snd (canvasToScreen (cv_x canvas, cv_y canvas) T)
        == mouseY e - snd mouse)%Q).
Proof.
  intros Hs. repeat split; do 2 eexists; (split; [reflexivity|]);
    unfold canvasToScreen; cbn [fst snd a_initial a_initialMouse]; split; field; exact Hs.
Qed.

(** X11. For a slider track of positive height, the brush size the slider
    sets is between 5 and 100; it is 100 for a pointer at or above the top
    of the track and 5 for a pointer at or below its bottom. *)
Theorem brush_size_within_range (clientY top height : Q) :
  (0 < height)%Q →
  (5 <= updateSlider clientY top height <= 100)%Q
  ∧ ((clientY <= top)%Q → updateSlider clientY top height = 100%Q)
  ∧ ((top + height <= clientY)%Q → updateSlider clientY top height = 5%Q).
Proof.
  intros Hh. unfold updateSlider.
  set (f := ((clientY - top) / height)%Q).
  set (c := Qmin (Qmax f 0) 1).
  assert (Hc : (0 <= c <= 1)%Q).
  { unfold c. split; [apply Q.min_glb; [apply Q.le_max_r | lra] | apply Q.le_min_r]. }
  split; [|split].
  - apply (jsRound_between 5 100). change (inject_Z 5) with 5%Q.
    change (inject_Z 100) with 100%Q. lra.
  - intros Hy.
    assert (Hf : (f <= 0)%Q).
    { unfold f. apply Qle_shift_div_r; [done | lra]. }
    assert (Hc0 : (c == 0)%Q).
    { unfold c. destruct (Q.max_spec f 0) as [[? ->]|[? ->]];
        destruct (Q.min_spec 0 1) as [[? E]|[? E]];
        destruct (Q.min_spec f 1) as [[? E']|[? E']]; lra. }
    transitivity (jsRound (inject_Z 100)); [|apply jsRound_integer].
    unfold jsRound. f_equal. apply Qfloor_comp.
    change (inject_Z 100) with 100%Q. lra.
  - intros Hy.
    assert (Hf : (1 <= f)%Q).
    { unfold f. apply Qle_shift_div_l; [done | lra]. }
    assert (Hc1 : (c == 1)%Q).
    { unfold c. destruct (Q.max_spec f 0) as [[? ->]|[? ->]];
        destruct (Q.min_spec 0 1) as [[? E]|[? E]];
        destruct (Q.min_spec f 1) as [[? E']|[? E']]; lra. }
    transitivity (jsRound (inject_Z 5)); [|apply jsRound_integer].
    unfold jsRound. f_equal. apply Qfloor_comp.
    change (inject_Z 5) with 5%Q. lra.
Qed.

Lemma closer_fold (r : Q) (rest : list (string * Q)) (first : string * Q) :
  let best := foldl (closer r) first rest in
  best ∈ first :: rest
  ∧ ∀ x, x ∈ first :: rest → (Qabs (best.2 - r) <= Qabs (x.2 - r))%Q.
Proof.
  revert first. induction rest as [|y rest IH]; intros first; simpl.
  - split; [set_solver|]. intros x ->%list_elem_of_singleton. lra.
  - destruct (IH (closer r first y)) as [Hin Hmin]. split.
    + apply elem_of_cons in Hin as [->|Hin]; [|set_solver].
      unfold closer. destruct (lessThan _ _); set_solver.
    + intros x Hx.
      assert (Hstep : (Qabs ((closer r first y).2 - r) <= Qabs (first.2 - r))%Q
                      ∧ (Qabs ((closer r first y).2 - r) <= Qabs (y.2 - r))%Q).
      { unfold closer, lessThan. destruct (Qlt_le_dec _ _); split; lra. }
      destruct Hstep as [H1 H2].
      pose proof (Hmin (closer r first y) ltac:(set_solver)) as H0.
      apply elem_of_cons in Hx as [->|[->|Hx]%elem_of_cons].
      * eapply Qle_trans; [exact H0 | exact H1].
      * eapply Qle_trans; [exact H0 | exact H2].
      * apply Hmin. set_solver.
Qed.

(** What [findClosestRatio] answers for non-zero sizes. *)
Lemma findClosestRatio_nearest (w h : Q) :
  ~ (w == 0)%Q → ~ (h == 0)%Q →
  ∃ value, (findClosestRatio w h, value) ∈ commonRatios
    ∧ ∀ name' value', (name', value') ∈ commonRatios →
        (Qabs (value - w / h) <= Qabs (value' - w / h))%Q.
Proof.
  intros Hw Hh. unfold findClosestRatio.
  destruct (Qeq_bool w 0) eqn:Ew; [by apply Qeq_bool_eq in Ew|].
  destruct (Qeq_bool h 0) eqn:Eh; [by apply Qeq_bool_eq in Eh|].
  cbn [orb]. unfold commonRatios at 1.
  match goal with |- context [foldl ?f ?first ?rest] =>
    destruct (closer_fold (w / h) rest first) as [Hin Hmin] end.
  cbv zeta in Hin, Hmin.
  set (best := foldl _ _ _) in *. clearbody best. destruct best as [name value].
  exists value. split; [exact Hin|].
  intros name' value' Hx. exact (Hmin (name', value') Hx).
Qed.

Lemma jsRound_zero (v : Q) : (v == 0)%Q → jsRound v = 0%Q.
Proof.
  intros Hv. unfold jsRound.
  assert (Hfloor : Qfloor (v + 0.5) = 0%Z); [| by rewrite Hfloor].
  rewrite (Qfloor_comp (v + 0.5) 0.5) by lra. reflexivity.
Qed.

(** X12. The ratio label shown for an image is its target aspect ratio
    when it has one.  Without a target ratio, when the natural width and
    height round to non-zero numbers, the label is the name of an entry of
    the table of common ratios whose value is at least as close to the
    quotient of the rounded sizes as the value of every entry; when one of
    them rounds to zero the label is N/A. *)
Theorem closest_ratio_is_nearest (image : ImageObject) :
  let w := jsRound (naturalWidth image) in
  let h := jsRound (naturalHeight image) in
  (∀ ratio, targetAspectRatio image = Some ratio → getRatioString image = ratioText ratio)
  ∧ (targetAspectRatio image = None → (w == 0)%Q ∨ (h == 0)%Q →
     getRatioString image = "N/A")
  ∧ (targetAspectRatio image = None → ~ (w == 0)%Q → ~ (h == 0)%Q →
     ∃ value, (getRatioString image, value) ∈ commonRatios
       ∧ ∀ name' value', (name', value') ∈ commonRatios →
           (Qabs (value - w / h) <= Qabs (value' - w / h))%Q).
Proof.
  intros w h. unfold getRatioString. split; [by intros ratio -> |]. split.
  - intros -> Hzero.
    destruct (Qeq_bool (naturalWidth image) 0 || Qeq_bool (naturalHeight image) 0);
      [done |].
    unfold findClosestRatio. fold w h.
    destruct Hzero as [Hzero | Hzero]; apply Qeq_bool_iff in Hzero; rewrite Hzero;
      [done | by rewrite orb_true_r].
  - intros -> Hw Hh.
    destruct (Qeq_bool (naturalWidth image) 0) eqn:Ew.
    { apply Qeq_bool_eq, jsRound_zero in Ew. exfalso. apply Hw. fold w in Ew.
      by rewrite Ew. }
    destruct (Qeq_bool (naturalHeight image) 0) eqn:Eh.
    { apply Qeq_bool_eq, jsRound_zero in Eh. exfalso. apply Hh. fold h in Eh.
      by rewrite Eh. }
    cbn [orb]. by apply findClosestRatio_nearest.
Qed.

End NodeFacts.

Section UpdateFacts.
Import Geometry Layers Model Interaction Lifecycle Updates.

Lemma applyImageProps_id newProps img :
  Forall (λ p, setsImageId p = false) newProps →
  img_id (applyImageProps newProps img) = img_id img.
Proof.
  unfold applyImageProps. intros H. revert img.
  induction H as [|p ps Hp _ IH]; intros img; simpl; [done|].
  rewrite IH. by destruct p, img.
Qed.

Lemma applyTextProps_id newProps txt :
  Forall (λ p, setsTextId p = false) newProps →
  txt_id (applyTextProps newProps txt) = txt_id txt.
Proof.
  unfold applyTextProps. intros H. revert txt.
  induction H as [|p ps Hp _ IH]; intros txt; simpl; [done|].
  rewrite IH. by destruct p, txt.
Qed.

Lemma applyCanvasProps_id newProps canvas :
  Forall (λ p, setsCanvasId p = false) newProps →
  cv_id (applyCanvasProps newProps canvas) = cv_id canvas.
Proof.
  unfold applyCanvasProps. intros H. revert canvas.
  induction H as [|p ps Hp _ IH]; intros canvas; simpl; [done|].
  rewrite IH. by destruct p, canvas.
Qed.

Lemma fmap_keeps_key {A} (key : A → string) (f : A → A) (l : list A) :
  (∀ a, key (f a) = key a) → key <$> (f <$> l) = key <$> l.
Proof.
  intros H. rewrite <- list_fmap_compose. apply list_fmap_ext. intros _ a _. apply H.
Qed.

Lemma updateCharacter_id characterId update img :
  img_id (updateCharacter characterId update img) = img_id img.
Proof.
  unfold updateCharacter. destruct (decide _); [|done].
  destruct (truthyOpt (u_modelSheetSrc update)), (u_poseIndex update);
    try destruct (truthyOpt (u_poseSrc update)); by destruct img.
Qed.

(** X13. The in-place update callbacks [updateImage], [updateTextObject],
    [updateDrawingCanvas] (with patches that do not set the [id] key),
    [handleUpdateImageDetails] and [handleUpdateCharacterImage] leave the
    ids of the objects of each kind, the layer order and the selection as
    they were, and so keep the document invariants. *)
Theorem updates_keep_identity (id : string) (imageProps : list ImageProp)
    (textProps : list TextProp) (canvasProps : list CanvasProp)
    (details : ImageDetails) (update : CharacterUpdate) (s : AppState) :
  Forall (λ p, setsImageId p = false) imageProps →
  Forall (λ p, setsTextId p = false) textProps →
  Forall (λ p, setsCanvasId p = false) canvasProps →
  Forall (λ s', liveIds s' = liveIds s ∧ imageIds s' = imageIds s
                ∧ textIds s' = textIds s ∧ canvasIds s' = canvasIds s
                ∧ layerOrder (doc s') = layerOrder (doc s) ∧ sel s' = sel s
                ∧ (wellFormed s → wellFormed s'))
    [updateImage id imageProps s; updateTextObject id textProps s;
     updateDrawingCanvas id canvasProps s; handleUpdateImageDetails id details s;
     handleUpdateCharacterImage id update s].
Proof.
  intros Hi Ht Hc.
  assert (Hgen : ∀ s', imageIds s' = imageIds s → textIds s' = textIds s →
            canvasIds s' = canvasIds s → layerOrder (doc s') = layerOrder (doc s) →
            sel s' = sel s →
            liveIds s' = liveIds s ∧ imageIds s' = imageIds s
            ∧ textIds s' = textIds s ∧ canvasIds s' = canvasIds s
            ∧ layerOrder (doc s') = layerOrder (doc s) ∧ sel s' = sel s
            ∧ (wellFormed s → wellFormed s')).
  { intros s' H1 H2 H3 H4 H5.
    assert (Hl : liveIds s' = liveIds s) by (unfold liveIds; congruence).
    split_and!; try done.
    unfold wellFormed, selectionLive, layersExact. by rewrite Hl, H1, H2, H3, H4, H5. }
  repeat apply Forall_cons_2; [..|apply Forall_nil_2]; apply Hgen; try done.
  - unfold imageIds, updateImage; simpl. apply fmap_keeps_key. intros img.
    destruct (decide _); [by apply applyImageProps_id | done].
  - unfold textIds, updateTextObject; simpl. apply fmap_keeps_key. intros txt.
    destruct (decide _); [by apply applyTextProps_id | done].
  - unfold canvasIds, updateDrawingCanvas; simpl. apply fmap_keeps_key. intros canvas.
    destruct (decide _); [by apply applyCanvasProps_id | done].
  - unfold handleUpdateImageDetails. destruct (_ || _); unfold imageIds; simpl;
      apply fmap_keeps_key; intros img; (destruct (decide _); [|done]);
      apply applyImageProps_id; destruct (d_classification details), (d_name details);
      repeat constructor.
  - unfold handleUpdateImageDetails. by destruct (_ || _).
  - unfold handleUpdateImageDetails. by destruct (_ || _).
  - unfold handleUpdateImageDetails. by destruct (_ || _).
  - unfold handleUpdateImageDetails. by destruct (_ || _).
  - unfold imageIds, handleUpdateCharacterImage; simpl. apply fmap_keeps_key.
    apply updateCharacter_id.
Qed.

Lemma assignAt_lookup {A} (index : nat) (v : option A) (l : list (option A)) :
  assignAt index v l !! index = Some v
  ∧ length (assignAt index v l) = length l `max` S index
  ∧ ∀ j, j ≠ index → j < length l → assignAt index v l !! j = l !! j.
Proof.
  unfold assignAt. destruct (decide (index < length l)) as [Hlt|Hge].
  - split; [by apply list_lookup_insert_eq|]. split; [rewrite length_insert; lia|].
    intros j Hj _. by apply list_lookup_insert_ne.
  - split; [|split].
    + rewrite lookup_app_r by lia. rewrite lookup_app_r by (rewrite length_replicate; lia).
      rewrite length_replicate. by replace (index - length l - (index - length l)) with 0 by lia.
    + rewrite !length_app, length_replicate. simpl. lia.
    + intros j _ Hj. by rewrite lookup_app_l.
Qed.

(** X14. A character update carrying a pose index and a non-empty pose
    source changes only the image with the character's id.  Its poses (four
    empty slots when it had none) hold the source at the index; the other
    slots are as before; an index past the end extends the array up to that
    index. *)
Theorem pose_update_fills_slot (characterId : string) (index : nat) (poseSrc : string)
    (sheet : option string) (s : AppState) (k : nat) (img : ImageObject) :
  truthy poseSrc = true → images (doc s) !! k = Some img →
  let update := {| u_modelSheetSrc := sheet; u_poseIndex := Some index;
                   u_poseSrc := Some poseSrc |} in
  let before := default (replicate 4 None) (poses img) in
  ∃ img', images (doc (handleUpdateCharacterImage characterId update s)) !! k = Some img'
    ∧ img_id img' = img_id img
    ∧ (img_id img ≠ characterId → img' = img)
    ∧ (img_id img = characterId →
       ∃ after, poses img' = Some after
         ∧ after !! index = Some (Some poseSrc)
         ∧ length after = length before `max` S index
         ∧ ∀ j, j ≠ index → j < length before → after !! j = before !! j).
Proof.
  intros Hsrc Hk update before.
  exists (updateCharacter characterId update img). split.
  { unfold handleUpdateCharacterImage; simpl. by rewrite list_lookup_fmap, Hk. }
  split; [apply updateCharacter_id|]. unfold updateCharacter.
  destruct (decide (img_id img = characterId)) as [Heq|Hne]; split; try done.
  intros _. subst update; cbn [u_poseIndex u_poseSrc u_modelSheetSrc truthyOpt].
  rewrite Hsrc.
  assert (Hposes : poses (if truthyOpt sheet then setImageProp (ImgModelSheetSrc sheet) img
                          else img) = poses img).
  { destruct (truthyOpt sheet); by destruct img. }
  assert (Hset : ∀ v i, poses (setImageProp (ImgPoses v) i) = v) by (by intros v []).
  eexists. split; [apply Hset|].
  rewrite Hposes. fold before. apply assignAt_lookup.
Qed.

End UpdateFacts.

Section RasterFacts.
Import Geometry Model Interaction Text Generation Serialization Viewport Raster.

Lemma Qdiv_cancel (m c : Q) : (0 < c)%Q → (c * (m / c) == m)%Q.
Proof. intros. field. lra. Qed.

Lemma Qdiv_pos (a b : Q) : (0 < a)%Q → (0 < b)%Q → (0 < a / b)%Q.
Proof. intros. apply Qlt_shift_div_l; lra. Qed.

(** The size [optimizeImageForApi] redraws at when a side exceeds the cap. *)
Lemma optimizedSize_resized (maxWidth naturalWidth naturalHeight : Q) :
  (0 < maxWidth)%Q → (0 < naturalWidth)%Q → (0 < naturalHeight)%Q →
  (maxWidth < naturalWidth)%Q ∨ (maxWidth < naturalHeight)%Q →
  ∃ width height,
    optimizedSize maxWidth naturalWidth naturalHeight = Some (width, height)
    ∧ (width <= maxWidth)%Q ∧ (height <= maxWidth)%Q
    ∧ (Qmax width height == maxWidth)%Q
    ∧ (width / height == naturalWidth / naturalHeight)%Q.
Proof.
  intros Hm Hw Hh Hover. unfold optimizedSize, lessThan.
  pose proof (Qdiv_pos maxWidth naturalWidth Hm Hw) as Hdw.
  pose proof (Qdiv_pos maxWidth naturalHeight Hm Hh) as Hdh.
  pose proof (Qdiv_cancel maxWidth naturalWidth Hw) as Hcw.
  pose proof (Qdiv_cancel maxWidth naturalHeight Hh) as Hch.
  assert (Hwide : (naturalHeight < naturalWidth)%Q →
                  (naturalHeight * (maxWidth / naturalWidth) <= maxWidth)%Q).
  { intros H3. rewrite <- Hcw at 2. apply Qmult_le_compat_r; lra. }
  assert (Htall : (naturalWidth <= naturalHeight)%Q →
                  (naturalWidth * (maxWidth / naturalHeight) <= maxWidth)%Q).
  { intros H3. rewrite <- Hch at 2. apply Qmult_le_compat_r; lra. }
  destruct (Qlt_le_dec maxWidth naturalWidth) as [H1|H1],
           (Qlt_le_dec maxWidth naturalHeight) as [H2|H2]; cbn [orb];
    try (exfalso; destruct Hover; lra);
    destruct (Qlt_le_dec naturalHeight naturalWidth) as [H3|H3];
    eexists _, _; (split; [reflexivity |]).
  all: try (split; [lra |]; split; [by apply Hwide |]; split;
            [rewrite Q.max_l; [reflexivity | by apply Hwide] | field; lra]).
  all: split; [by apply Htall |]; split; [lra |]; split;
       [rewrite Q.max_r; [reflexivity | by apply Htall] | field; lra].
Qed.

(** X15. For a positive cap and a source that decodes to an image of
    positive intrinsic size, [optimizeImageForApi] returns the parsed source
    as it is when neither side exceeds the cap, and also when no 2d context
    is available.  When a side exceeds the cap and a context is available it
    returns the parsed JPEG data URL, at the given quality, of a canvas on
    which the image is redrawn at a size with both sides within the cap, the
    longer side equal to the cap, and the width/height ratio of the image;
    the canvas element takes that size truncated. *)
Theorem optimized_size_within_cap (browser : Canvas2d) (src : string)
    (maxWidth quality naturalWidth naturalHeight : Q) :
  (0 < maxWidth)%Q → (0 < naturalWidth)%Q → (0 < naturalHeight)%Q →
  decode browser src = Some (naturalWidth, naturalHeight) →
  let result := optimizeImageForApi browser src maxWidth quality in
  ((naturalWidth <= maxWidth)%Q → (naturalHeight <= maxWidth)%Q →
   result = parseDataUrl src)
  ∧ (hasContext browser = false → result = parseDataUrl src)
  ∧ (hasContext browser = true →
     (maxWidth < naturalWidth)%Q ∨ (maxWidth < naturalHeight)%Q →
     ∃ width height,
       result = parseDataUrl
                  (toDataURL browser "image/jpeg" (Some quality)
                     (canvasSize width, canvasSize height) None src
                     (0, 0, width, height)%Q)
       ∧ (width <= maxWidth)%Q ∧ (height <= maxWidth)%Q
       ∧ (Qmax width height == maxWidth)%Q
       ∧ (width / height == naturalWidth / naturalHeight)%Q).
Proof.
  intros Hm Hw Hh Hdec result. subst result. unfold optimizeImageForApi.
  rewrite Hdec. split; [| split].
  - intros H1 H2. unfold optimizedSize, lessThan.
    destruct (Qlt_le_dec maxWidth naturalWidth) as [H1'|_]; [lra |].
    destruct (Qlt_le_dec maxWidth naturalHeight) as [H2'|_]; [lra | done].
  - intros Hctx. rewrite Hctx.
    by destruct (optimizedSize maxWidth naturalWidth naturalHeight) as [[width height]|].
  - intros Hctx Hover. rewrite Hctx.
    destruct (optimizedSize_resized maxWidth naturalWidth naturalHeight Hm Hw Hh Hover)
      as (width & height & -> & Hbounds).
    by exists width, height.
Qed.

(** The scale factor of [createPaddedImage] brings both sides of the canvas
    within the limit. *)
Lemma scale_within (M cw ch : Q) :
  (0 < M)%Q → (0 < cw)%Q → (0 < ch)%Q →
  let sf := if lessThan M cw || lessThan M ch then Qmin (M / cw) (M / ch) else 1%Q in
  (0 < sf)%Q ∧ (cw * sf <= M)%Q ∧ (ch * sf <= M)%Q.
Proof.
  intros HM Hw Hh. unfold lessThan.
  pose proof (Qdiv_pos M cw HM Hw) as Hdw. pose proof (Qdiv_pos M ch HM Hh) as Hdh.
  pose proof (Qdiv_cancel M cw Hw) as Hcw. pose proof (Qdiv_cancel M ch Hh) as Hch.
  destruct (Qlt_le_dec M cw), (Qlt_le_dec M ch); cbn [orb]; cbv zeta;
    try (split; [|split]; lra).
  all: assert (H1 : (cw * Qmin (M / cw) (M / ch) <= cw * (M / cw))%Q)
         by (apply Qmult_le_l; [done | apply Q.le_min_l]).
  all: assert (H2 : (ch * Qmin (M / cw) (M / ch) <= ch * (M / ch))%Q)
         by (apply Qmult_le_l; [done | apply Q.le_min_r]).
  all: split; [destruct (Q.min_spec (M / cw) (M / ch)) as [[? ->]|[? ->]]; lra|].
  all: split; lra.
Qed.

Lemma canvasSize_floor (v : Q) :
  (0 <= v <= 1376)%Q →
  (inject_Z (canvasSize v) <= v)%Q ∧ (v - 1 < inject_Z (canvasSize v))%Q
  ∧ (0 <= canvasSize v <= 1376)%Z.
Proof.
  intros [Hl Hu]. unfold canvasSize.
  assert (Hf : (0 <= Qfloor v <= 1376)%Z).
  { split.
    - change 0%Z with (Qfloor 0). by apply Qfloor_resp_le.
    - change 1376%Z with (Qfloor 1376). by apply Qfloor_resp_le. }
  assert (Hfl : (if Qlt_le_dec v 0 then Qceiling v else Qfloor v) = Qfloor v).
  { destruct (Qlt_le_dec v 0); [lra | done]. }
  rewrite Hfl, Z.mod_small by lia.
  split; [apply Qfloor_le|]. split; [|done].
  pose proof (Qlt_floor v) as H. rewrite inject_Z_plus in H.
  change (inject_Z 1) with 1%Q in H. lra.
Qed.

(** X16. For an image of positive intrinsic size, the canvas
    [createPaddedImage] computes has the target aspect ratio and both sides
    at most 1376, also after the canvas element has truncated them; the
    image is drawn with its own aspect ratio, no larger than the canvas and
    filling it along one axis, at offsets above -1/2. *)
Theorem padded_layout_fits (targetAspectRatio : AspectRatio)
    (naturalWidth naturalHeight : Q) :
  (0 < naturalWidth)%Q → (0 < naturalHeight)%Q →
  let layout := paddedLayout targetAspectRatio naturalWidth naturalHeight in
  let '(w, h) := ratioParts targetAspectRatio in
  (canvasWidth layout / canvasHeight layout == w / h)%Q
  ∧ (canvasWidth layout <= 1376)%Q ∧ (canvasHeight layout <= 1376)%Q
  ∧ (elementWidth layout <= 1376)%Z ∧ (elementHeight layout <= 1376)%Z
  ∧ (finalImgWidth layout / finalImgHeight layout == naturalWidth / naturalHeight)%Q
  ∧ (finalImgWidth layout <= canvasWidth layout)%Q
  ∧ (finalImgHeight layout <= canvasHeight layout)%Q
  ∧ ((finalImgWidth layout == canvasWidth layout)%Q
     ∨ (finalImgHeight layout == canvasHeight layout)%Q)
  ∧ (- (1 # 2) < drawX layout)%Q ∧ (- (1 # 2) < drawY layout)%Q.
Proof.
  intros Hw Hh layout.
  destruct (ratioParts targetAspectRatio) as [w h] eqn:Hparts.
  assert (Hwh : (0 < w)%Q ∧ (0 < h)%Q).
  { destruct targetAspectRatio; injection Hparts as <- <-; split; reflexivity. }
  destruct Hwh as [Hw0 Hh0].
  pose proof (Qdiv_pos w h Hw0 Hh0) as Ht.
  set (target := (w / h)%Q) in *.
  (* the canvas before scaling *)
  set (first := if lessThan target (naturalWidth / naturalHeight)
                then (naturalWidth, (naturalWidth / target)%Q)
                else ((naturalHeight * target)%Q, naturalHeight)).
  assert (Hfirst : (0 < first.1)%Q ∧ (0 < first.2)%Q
                   ∧ (first.1 / first.2 == target)%Q
                   ∧ (naturalWidth <= first.1)%Q ∧ (naturalHeight <= first.2)%Q
                   ∧ ((naturalWidth == first.1)%Q ∨ (naturalHeight == first.2)%Q)).
  { unfold first, lessThan.
    pose proof (Qdiv_pos naturalWidth target Hw Ht) as Hd.
    destruct (Qlt_le_dec target (naturalWidth / naturalHeight)) as [Hlt|Hle];
      cbn [fst snd].
    - split; [done|]. split; [done|]. split; [field; lra|]. split; [lra|].
      split; [|by left].
      apply Qle_shift_div_l; [done|].
      apply Qlt_le_weak. rewrite Qmult_comm.
      apply (Qmult_lt_r _ _ naturalHeight) in Hlt; [|done].
      assert (E : (naturalWidth / naturalHeight * naturalHeight == naturalWidth)%Q)
        by (field; lra).
      lra.
    - split; [by apply Qmult_lt_0_compat|]. split; [done|]. split; [field; lra|].
      split; [|split; [lra | by right]].
      apply (Qmult_le_r _ _ naturalHeight) in Hle; [|done].
      assert (E : (naturalWidth / naturalHeight * naturalHeight == naturalWidth)%Q)
        by (field; lra).
      lra. }
  destruct Hfirst as (Hc1 & Hc2 & Hratio & Hle1 & Hle2 & Htouch).
  destruct (scale_within 1376 first.1 first.2 eq_refl Hc1 Hc2) as (Hsf & Hs1 & Hs2).
  set (sf := if lessThan 1376 first.1 || lessThan 1376 first.2
             then Qmin (1376 / first.1) (1376 / first.2) else 1%Q) in *.
  assert (Hlayout : layout
    = {| canvasWidth := first.1 * sf; canvasHeight := first.2 * sf;
         elementWidth := canvasSize (first.1 * sf);
         elementHeight := canvasSize (first.2 * sf);
         finalImgWidth := naturalWidth * sf; finalImgHeight := naturalHeight * sf;
         drawX := (inject_Z (canvasSize (first.1 * sf)) - naturalWidth * sf) / 2;
         drawY := (inject_Z (canvasSize (first.2 * sf)) - naturalHeight * sf) / 2 |}).
  { unfold layout, paddedLayout. rewrite Hparts. fold target. fold first.
    by destruct first. }
  rewrite Hlayout. cbn [canvasWidth canvasHeight elementWidth elementHeight
                        finalImgWidth finalImgHeight drawX drawY].
  assert (Hcw : (0 <= first.1 * sf <= 1376)%Q).
  { split; [apply Qmult_le_0_compat; lra | done]. }
  assert (Hch : (0 <= first.2 * sf <= 1376)%Q).
  { split; [apply Qmult_le_0_compat; lra | done]. }
  destruct (canvasSize_floor _ Hcw) as (Hx1 & Hx2 & Hx3).
  destruct (canvasSize_floor _ Hch) as (Hy1 & Hy2 & Hy3).
  assert (Hfw : (naturalWidth * sf <= first.1 * sf)%Q) by (apply Qmult_le_compat_r; lra).
  assert (Hfh : (naturalHeight * sf <= first.2 * sf)%Q) by (apply Qmult_le_compat_r; lra).
  split_and!; try done; try lia.
  - rewrite <- Hratio. field. lra.
  - field. lra.
  - destruct Htouch as [E|E]; [left | right]; by rewrite E.
  - apply Qlt_shift_div_l; lra.
  - apply Qlt_shift_div_l; lra.
Qed.

End RasterFacts.

Section ShortcutFacts.
Import Model Interaction Viewport Shortcuts.

(** X17. For a key press that is not a repeat and not one of the tool letter
    keys, with no input focused: holding the space bar activates [pan],
    holding Control or Meta activates [select]; releasing the key activates
    the tool that was active before the press, unless that tool was already
    the temporary one, in which case the release activates the tool
    [previousToolRef] last remembered.  The document and the selection are
    untouched. *)
Theorem held_key_restores_tool (down up : KeyEvent) (s : AppState) (previousTool : Tool) :
  repeat down = false → code down ∉ ["KeyV"; "KeyA"; "KeyP"; "KeyE"; "KeyT"] →
  key up = key down →
  let pressed := handleKeyDown false down (s, previousTool) in
  let released := handleKeyUp up pressed in
  (key down = " " →
     activeTool (ui pressed.1) = pan
     ∧ activeTool (ui released.1)
       = if isPanTool (activeTool (ui s)) then previousTool else activeTool (ui s))
  ∧ (key down = "Control" ∨ key down = "Meta" →
     activeTool (ui pressed.1) = select
     ∧ activeTool (ui released.1)
       = if isSelectTool (activeTool (ui s)) then previousTool else activeTool (ui s))
  ∧ doc released.1 = doc s ∧ sel released.1 = sel s.
Proof.
  intros Hrep Hcode Hkey pressed released. subst pressed released.
  unfold handleKeyDown, handleKeyUp. rewrite Hrep, Hkey.
  repeat (rewrite decide_False by (intros E; apply Hcode; rewrite E; set_solver)).
  split; [|split].
  - intros ->. simpl. destruct (activeTool (ui s)) eqn:E; simpl; rewrite ?E;
      destruct previousTool; simpl; by rewrite ?E.
  - intros [-> | ->]; simpl; destruct (activeTool (ui s)) eqn:E; simpl; rewrite ?E;
      destruct previousTool; simpl; by rewrite ?E.
  - destruct (decide (key down = " ")); [|destruct (_ || _)];
      destruct (activeTool (ui s)), previousTool; simpl;
      repeat (destruct (decide _)); try destruct (_ || _); done.
Qed.

End ShortcutFacts.

Section MergeFacts.
Import Geometry Layers Model Interaction Packing Viewport Lifecycle Merging.

Lemma mathMin_spec (first : Q) (others : list Q) :
  (mathMin first others <= first)%Q
  ∧ ∀ v, v ∈ others → (mathMin first others <= v)%Q.
Proof.
  unfold mathMin. revert first. induction others as [|x others IH]; intros first; simpl.
  - split; [lra | by intros v ?%elem_of_nil].
  - destruct (IH (Qmin first x)) as [H1 H2].
    pose proof (Q.le_min_l first x). pose proof (Q.le_min_r first x).
    split; [lra|]. intros v [->|Hv]%elem_of_cons; [lra | by apply H2].
Qed.

Lemma mathMax_spec (first : Q) (others : list Q) :
  (first <= mathMax first others)%Q
  ∧ ∀ v, v ∈ others → (v <= mathMax first others)%Q.
Proof.
  unfold mathMax. revert first. induction others as [|x others IH]; intros first; simpl.
  - split; [lra | by intros v ?%elem_of_nil].
  - destruct (IH (Qmax first x)) as [H1 H2].
    pose proof (Q.le_max_l first x). pose proof (Q.le_max_r first x).
    split; [lra|]. intros v [->|Hv]%elem_of_cons; [lra | by apply H2].
Qed.

Lemma bounds_of (first : CanvasItem) (others : list CanvasItem) :
  let minX := mathMin (item_x first) (item_x <$> others) in
  let minY := mathMin (item_y first) (item_y <$> others) in
  let maxX := mathMax (item_x first + item_width first)%Q
                ((λ obj, item_x obj + item_width obj)%Q <$> others) in
  let maxY := mathMax (item_y first + item_height first)%Q
                ((λ obj, item_y obj + item_height obj)%Q <$> others) in
  (∀ obj, obj ∈ first :: others →
     (minX <= item_x obj)%Q ∧ (item_x obj + item_width obj <= minX + (maxX - minX))%Q
     ∧ (minY <= item_y obj)%Q ∧ (item_y obj + item_height obj <= minY + (maxY - minY))%Q)
  ∧ (∀ placed,
       placed ∈ (λ obj, {| p_item := obj; p_left := (item_x obj - minX)%Q;
                           p_top := (item_y obj - minY)%Q |})
                  <$> List.filter hasElement (first :: others) →
       p_item placed ∈ first :: others
       ∧ (0 <= p_left placed)%Q
       ∧ (p_left placed + item_width (p_item placed) <= maxX - minX)%Q
       ∧ (0 <= p_top placed)%Q
       ∧ (p_top placed + item_height (p_item placed) <= maxY - minY)%Q).
Proof.
  intros minX minY maxX maxY.
  destruct (mathMin_spec (item_x first) (item_x <$> others)) as [Hx1 Hx2].
  destruct (mathMin_spec (item_y first) (item_y <$> others)) as [Hy1 Hy2].
  destruct (mathMax_spec (item_x first + item_width first)
              ((λ obj, item_x obj + item_width obj)%Q <$> others)) as [Hr1 Hr2].
  destruct (mathMax_spec (item_y first + item_height first)
              ((λ obj, item_y obj + item_height obj)%Q <$> others)) as [Hb1 Hb2].
  fold minX in Hx1, Hx2. fold minY in Hy1, Hy2. fold maxX in Hr1, Hr2.
  fold maxY in Hb1, Hb2. clearbody minX minY maxX maxY.
  assert (Hobj : ∀ obj, obj ∈ first :: others →
    (minX <= item_x obj)%Q ∧ (item_x obj + item_width obj <= maxX)%Q
    ∧ (minY <= item_y obj)%Q ∧ (item_y obj + item_height obj <= maxY)%Q).
  { intros obj [->|Hin]%elem_of_cons; [done|]. repeat split.
    - apply Hx2. by apply (list_elem_of_fmap_2 item_x).
    - apply Hr2. by apply (list_elem_of_fmap_2 (λ obj, item_x obj + item_width obj)%Q).
    - apply Hy2. by apply (list_elem_of_fmap_2 item_y).
    - apply Hb2. by apply (list_elem_of_fmap_2 (λ obj, item_y obj + item_height obj)%Q). }
  split.
  - intros obj Hin. destruct (Hobj obj Hin) as (? & ? & ? & ?). repeat split; lra.
  - intros placed (obj & -> & Hin)%list_elem_of_fmap.
    apply list_elem_of_In, filter_In in Hin as [Hin _]. apply list_elem_of_In in Hin.
    destruct (Hobj obj Hin) as (? & ? & ? & ?). cbn [p_item p_left p_top].
    repeat split; try done; lra.
Qed.

(** X18. When [handleMergeSelected] builds a capture container, at least two
    objects are selected; the rectangle of every selected object lies inside
    the rectangle at (minX, minY) of the container's size; and every element
    placed in the container is a selected object, at non-negative offsets,
    ending within the container. *)
Theorem merge_capture_bounds (s : AppState) (minX minY : Q) (container : Capture) :
  captureContainer s = Some (minX, minY, container) →
  2 ≤ length (allSelectedObjects s)
  ∧ (∀ obj, obj ∈ allSelectedObjects s →
       (minX <= item_x obj)%Q ∧ (item_x obj + item_width obj <= minX + c_width container)%Q
       ∧ (minY <= item_y obj)%Q
       ∧ (item_y obj + item_height obj <= minY + c_height container)%Q)
  ∧ (∀ placed, placed ∈ c_elements container →
       p_item placed ∈ allSelectedObjects s
       ∧ (0 <= p_left placed)%Q
       ∧ (p_left placed + item_width (p_item placed) <= c_width container)%Q
       ∧ (0 <= p_top placed)%Q
       ∧ (p_top placed + item_height (p_item placed) <= c_height container)%Q).
Proof.
  unfold captureContainer. intros H.
  destruct (allSelectedObjects s) as [|first [|second rest]] eqn:Hall; try done.
  injection H as <- <- <-.
  split; [simpl; lia|]. exact (bounds_of first (second :: rest)).
Qed.

Lemma filter_none {A} (key : A → string) (l : list A) :
  filter (λ a, key a ∉ []) l = l.
Proof.
  induction l as [|a l IH]; [done|]. rewrite filter_cons_True by apply not_elem_of_nil.
  by rewrite IH.
Qed.

Lemma dropOnTrash_document s :
  images (doc (dropOnTrash s))
    = filter (λ img, img_id img ∉ selectedImageIds (sel s)) (images (doc s))
  ∧ textObjects (doc (dropOnTrash s))
    = filter (λ txt, txt_id txt ∉ selectedTextIds (sel s)) (textObjects (doc s))
  ∧ drawingCanvases (doc (dropOnTrash s))
    = filter (λ can, cv_id can ∉ selectedDrawingCanvasIds (sel s)) (drawingCanvases (doc s)).
Proof.
  unfold dropOnTrash, deleteImages, deleteTextObjects, deleteDrawingCanvases.
  destruct (selectedImageIds (sel s)), (selectedTextIds (sel s)),
    (selectedDrawingCanvasIds (sel s)); simpl; by rewrite ?filter_none.
Qed.

Lemma dropOnTrash_liveIds s id : id ∈ liveIds (dropOnTrash s) → id ∈ liveIds s.
Proof.
  destruct (dropOnTrash_document s) as (Hi & Ht & Hc).
  unfold liveIds, imageIds, textIds, canvasIds. rewrite Hi, Ht, Hc.
  rewrite !elem_of_app, !list_elem_of_fmap.
  intros [(x & -> & [_ ?]%list_elem_of_filter)
         |[(x & -> & [_ ?]%list_elem_of_filter)
          |(x & -> & [_ ?]%list_elem_of_filter)]]; eauto.
Qed.

(** X19. In a well-formed document, when the capture succeeds, the merged
    picture loads and its id is new: merging removes exactly the selected
    objects of each kind and adds one [result] image with the rendered
    picture as source, at (minX, minY) with the size of the container; the
    new image is the only selected object and the last of the layer order,
    and the document invariants hold again. *)
Theorem merge_replaces_selection (browser : Browser) (now : string)
    (html2canvas : Capture → option string) (s : AppState) (minX minY : Q)
    (container : Capture) (src : string) (size : Q * Q) :
  wellFormed s →
  captureContainer s = Some (minX, minY, container) →
  html2canvas container = Some src →
  decodeSize browser src = Some size →
  ("img_" +:+ now) ∉ liveIds s →
  let s' := mergeSelected browser now html2canvas s in
  wellFormed s'
  ∧ sel s' = {| selectedImageIds := ["img_" +:+ now]; selectedTextIds := [];
                selectedDrawingCanvasIds := [] |}
  ∧ (∃ merged,
       images (doc s')
       = filter (λ img, img_id img ∉ selectedImageIds (sel s)) (images (doc s)) ++ [merged]
       ∧ img_id merged = "img_" +:+ now ∧ img_src merged = src
       ∧ classification merged = result
       ∧ img_x merged = minX ∧ img_y merged = minY
       ∧ img_width merged = c_width container ∧ img_height merged = c_height container)
  ∧ textObjects (doc s')
    = filter (λ txt, txt_id txt ∉ selectedTextIds (sel s)) (textObjects (doc s))
  ∧ drawingCanvases (doc s')
    = filter (λ can, cv_id can ∉ selectedDrawingCanvasIds (sel s)) (drawingCanvases (doc s))
  ∧ last (layerOrder (doc s')) = Some ("img_" +:+ now).
Proof.
  intros Hwf Hcap Hhtml Hdec Hfresh s'. subst s'.
  unfold mergeSelected, handleMergeSelected. rewrite Hcap, Hhtml. cbn [foldl].
  change (deleteDrawingCanvases _ _) with (dropOnTrash s).
  set (p := addImageToCanvas s src result _).
  assert (Hwf' : wellFormed (onImageLoad browser now p (dropOnTrash s))).
  { apply (wellFormed_step browser (OpImageLoaded now p)).
    - by apply wellFormed_deleteSelection.
    - simpl. rewrite Hdec. simpl. intros id [= <-] Hin.
      by apply Hfresh, dropOnTrash_liveIds. }
  split; [exact Hwf'|].
  destruct (dropOnTrash_document s) as (Hi & Ht & Hc).
  unfold onImageLoad. simpl. rewrite Hdec. destruct size as [nw nh]. simpl.
  rewrite Hi, Ht, Hc. split; [done|]. split; [by eexists|].
  split; [done|]. split; [done|]. by rewrite last_snoc.
Qed.

End MergeFacts.

Section DataUrlFacts.
Import Model Text Generation Serialization Raster.

Lemma parseDataUrl_mime (dataUrl : string) :
  (parseDataUrl dataUrl).1 ≠ "application/octet-stream"
  ∧ (parseDataUrl dataUrl).1 ≠ "binary/octet-stream".
Proof.
  unfold parseDataUrl. destruct (negb (truthy dataUrl)); [done|].
  destruct (splitOn _ dataUrl) as [|part0 [|part1 rest]]; [done..|].
  set (m := default "image/png" (matchMime part0)).
  destruct (bool_decide (m = "application/octet-stream")) eqn:E1; [done|].
  destruct (bool_decide (m = "binary/octet-stream")) eqn:E2; [done|].
  apply bool_decide_eq_false in E1, E2. done.
Qed.

(** X20. Whatever the data URL and whatever the browser does, the MIME type
    returned by [parseDataUrl] and by [optimizeImageForApi] is neither
    application/octet-stream nor binary/octet-stream. *)
Theorem references_never_octet_stream (browser : Canvas2d) (dataUrl : string)
    (maxWidth quality : Q) :
  Forall (λ mimeType, mimeType ≠ "application/octet-stream"
                      ∧ mimeType ≠ "binary/octet-stream")
    [(parseDataUrl dataUrl).1;
     (optimizeImageForApi browser dataUrl maxWidth quality).1].
Proof.
  repeat apply Forall_cons_2; [..|apply Forall_nil_2]; [apply parseDataUrl_mime|].
  unfold optimizeImageForApi.
  destruct (decode browser dataUrl) as [[naturalWidth naturalHeight]|];
    [|apply parseDataUrl_mime].
  destruct (optimizedSize _ _ _) as [[width height]|]; [|apply parseDataUrl_mime].
  destruct (hasContext browser); apply parseDataUrl_mime.
Qed.

Lemma untilSemicolon_app (mime rest : string) :
  Forall (λ c, c ∉ [";"; "010"; "013"]%char) (list_ascii_of_string mime) →
  untilSemicolon (mime +:+ String ";" rest) = Some mime.
Proof.
  induction mime as [|c mime IH]; simpl; intros H; [done|].
  apply Forall_cons in H as [Hc H].
  destruct (Ascii.eqb_spec c ";") as [->|_]; [set_solver|].
  unfold isLineTerminator.
  destruct (Ascii.eqb_spec c "010") as [->|_]; [set_solver|].
  destruct (Ascii.eqb_spec c "013") as [->|_]; [set_solver|].
  simpl. by rewrite IH.
Qed.

(** X21. For a MIME type without comma, semicolon or line break and a
    payload without comma, [parseDataUrl] of [data:<mime>;base64,<payload>]
    returns the payload as it is, with the MIME type, replaced by image/png
    when it is one of the two octet-stream types. *)
Theorem parseDataUrl_of_data_url (mime data : string) :
  Forall (λ c, c ∉ [","; ";"; "010"; "013"]%char) (list_ascii_of_string mime) →
  commaFree data →
  parseDataUrl ("data:" +:+ mime +:+ ";base64," +:+ data)
  = (if bool_decide (mime = "application/octet-stream")
        || bool_decide (mime = "binary/octet-stream")
     then "image/png" else mime, data).
Proof.
  intros Hmime Hdata. unfold parseDataUrl.
  change ("data:" +:+ mime +:+ ";base64," +:+ data)
    with ("data:" +:+ (mime +:+ (";base64" +:+ String "," data))).
  rewrite <- !append_assoc.
  rewrite splitOn_prefix.
  2: { rewrite !list_ascii_app. rewrite !not_elem_of_app. split; [split|].
       - vm_compute. intros H.
         by repeat (apply elem_of_cons in H as [H | H]; [done |]); apply elem_of_nil in H.
       - intros Hin. rewrite Forall_forall in Hmime. apply (Hmime _ Hin). set_solver.
       - vm_compute. intros H.
         by repeat (apply elem_of_cons in H as [H | H]; [done |]); apply elem_of_nil in H. }
  rewrite splitOn_no_sep by done.
  assert (Hmatch : matchMime (("data:" +:+ mime) +:+ ";base64") = Some mime).
  { rewrite append_assoc.
    change ("data:" +:+ mime +:+ ";base64")
      with (String "d" (String "a" (String "t" (String "a"
              (String ":" (mime +:+ String ";" "base64")))))).
    simpl. rewrite untilSemicolon_app; [done|].
    eapply Forall_impl; [exact Hmime|]. set_solver. }
  rewrite Hmatch. done.
Qed.

Lemma hasDotOrSlash_suffix (b ext : string) : hasDotOrSlash (b +:+ String "." ext) = true.
Proof.
  induction b as [|c b IH]; simpl; [done|]. rewrite IH. by rewrite !orb_true_r.
Qed.

Lemma stripExtension_app (base ext : string) :
  truthy ext = true → hasDotOrSlash ext = false →
  stripExtension (base +:+ String "." ext) = base.
Proof.
  intros Ht Hd. induction base as [|c base IH]; simpl.
  - by rewrite Ht, Hd.
  - rewrite hasDotOrSlash_suffix, andb_false_r. by rewrite IH.
Qed.

End DataUrlFacts.

Section LegacyFacts.
Import Geometry Layers Model Interaction Text Serialization.
Variable base64_encode : list byte → string.
Variable JsonText : Type.
Variable JSON_parse : JsonText → option ProjectData.
Variable textBytes : JsonText → list byte.
Variable bytesText : list byte → JsonText.

(** X22. Loading an archive whose [project.json] parses and has [images] and
    [drawingCanvases] keeps the current layer order, aspect ratio and
    transform for each of these the file omits, reads omitted text objects
    as none, names the project after the file (without extension) when the
    file carries no name, clears the selection and raises no alert. *)
Theorem load_keeps_what_file_omits (file : ProjectFile JsonText)
    (zip : gmap string (Entry JsonText)) (projectFile : Entry JsonText)
    (projectData : ProjectData) (name : string) (s : AppState) :
  f_zip JsonText file = Some zip →
  zip !! "project.json" = Some projectFile →
  JSON_parse (entryText JsonText bytesText projectFile) = Some projectData →
  pd_images projectData ≠ None → pd_drawingCanvases projectData ≠ None →
  f_name JsonText file = name +:+ ".story" →
  let s' := loadProjectFromFile base64_encode JsonText JSON_parse textBytes bytesText
              file s in
  layerOrder (doc s') = default (layerOrder (doc s)) (pd_layerOrder projectData)
  ∧ aspectRatio (doc s') = default (aspectRatio (doc s)) (pd_aspectRatio projectData)
  ∧ transform (doc s') = default (transform (doc s)) (pd_transform projectData)
  ∧ textObjects (doc s') = default [] (pd_textObjects projectData)
  ∧ projectName (doc s')
    = (if truthyOpt (pd_projectName projectData)
       then default "" (pd_projectName projectData) else name)
  ∧ sel s' = {| selectedImageIds := []; selectedTextIds := [];
                selectedDrawingCanvasIds := [] |}
  ∧ alerts (ui s') = alerts (ui s).
Proof.
  intros Hzip Hjson Hparse Himgs Hdraws Hname. unfold loadProjectFromFile, readProject.
  rewrite Hzip, Hjson, Hparse, Hname.
  destruct (pd_images projectData) as [imgs|]; [|done].
  destruct (pd_drawingCanvases projectData) as [draws|]; [|done].
  change (name +:+ ".story") with (name +:+ String "." "story").
  rewrite stripExtension_app by done.
  destruct (pd_layerOrder projectData), (pd_aspectRatio projectData),
    (pd_transform projectData), (truthyOpt (pd_projectName projectData)); done.
Qed.

End LegacyFacts.

Section ServiceFacts.
Import Model Text Generation GeminiService.
Variable jsonIn : string → option ParsedJson.
Hypothesis jsonIn_needs_brace : ∀ t, includes t "{" = false → jsonIn t = None.

(** The message the catch block classifies, for an [Error] whose message
    holds no brace. *)
Lemma plain_error_message (msg : string) :
  truthy msg = true → includes msg "{" = false →
  msgLowerOf jsonIn (newError msg) = toLowerCase msg
  ∧ parsedErrorOf jsonIn (newError msg) = None.
Proof.
  intros Ht Hb. unfold msgLowerOf, cleanMessageOf, parsedErrorOf, newError; simpl.
  rewrite Ht. simpl. by rewrite jsonIn_needs_brace.
Qed.

Ltac classify :=
  match goal with
  | |- context [catchVerdict jsonIn (newError ?msg) _] =>
      destruct (plain_error_message msg eq_refl eq_refl) as [Hmsg Hparsed];
      unfold catchVerdict, isSafetyBlock, isClientError, retryClassOf, retryDelay,
        is503, is429;
      rewrite ?Hmsg, ?Hparsed; clear Hmsg Hparsed
  end.

Ltac retried :=
  match goal with
  | |- context [catchVerdict jsonIn (newError ?msg) _] =>
      destruct (plain_error_message msg eq_refl eq_refl) as [Hmsg Hparsed];
      unfold catchVerdict, retryDelay;
      replace (isSafetyBlock jsonIn (newError msg)) with false
        by (unfold isSafetyBlock; rewrite Hmsg; by vm_compute);
      replace (isClientError jsonIn (newError msg)) with false
        by (unfold isClientError; rewrite Hmsg; by vm_compute);
      replace (retryClassOf jsonIn (newError msg)) with Unclassified
        by (unfold retryClassOf, is503, is429; rewrite ?Hmsg, ?Hparsed; by vm_compute);
      clear Hmsg Hparsed
  end.

(** X23. When the API returns a response, [editImage] either returns the
    data of the first inline image of the first candidate, whose finish
    reason is then not a blocking one, or throws an error that the catch
    block of [handleGenerateImage] classifies as a safety block on every
    attempt: also a response that merely carries no image ends the retry
    loop at once.  ([jsonIn] finds no JSON in a text without a brace.) *)
Theorem edit_errors_end_the_run (response : Response)
    (imagesApi : string → string → option string → JsError + ImagesResponse)
    (prompt : string) (images : list Ref) (model : string) (maskPart : option Ref)
    (aspectRatio : string) (attempt : nat) :
  let ai := {| generateContent := λ _, inr response; generateImages := imagesApi |} in
  match editImage ai prompt images model maskPart aspectRatio with
  | inl error => catchVerdict jsonIn error attempt = StopSafety
  | inr data =>
      imageOf (firstCandidate response) = Some data
      ∧ blockedError (firstCandidate response) = None
  end.
Proof.
  intros ai. unfold editImage; simpl.
  destruct (blockedError (firstCandidate response)) as [error|] eqn:Hblocked.
  - unfold blockedError in Hblocked.
    destruct (finishReasonOf (firstCandidate response)) as [reason|]; [|done].
    repeat (case_bool_decide; [injection Hblocked as <-; classify; by vm_compute|]).
    done.
  - destruct (imageOf (firstCandidate response)); [done|]. classify. by vm_compute.
Qed.

(** X24. When the API returns a response, [generateImage] either returns the
    image (the first inline image of the first candidate for a Gemini model,
    the first generated image otherwise) or throws: the catch block of
    [handleGenerateImage] classifies a blocking finish reason as a safety
    block, and a missing image as an unclassified error, retried after 2000
    ms before the last attempt.  ([jsonIn] finds no JSON in a text without a
    brace.) *)
Theorem generate_errors_are_classified (response : Response)
    (imagesResponse : ImagesResponse) (prompt model aspectRatio : string) (attempt : nat) :
  let ai := {| generateContent := λ _, inr response;
               generateImages := λ _ _ _, inr imagesResponse |} in
  let usesGemini :=
    includes model "gemini" || includes model "flash" || includes model "pro-image" in
  match generateImage ai prompt model aspectRatio with
  | inl error =>
      catchVerdict jsonIn error attempt
      = if usesGemini && bool_decide (blockedError (firstCandidate response) ≠ None)
        then StopSafety
        else if bool_decide (attempt < maxRetries) then RetryAfter Unclassified 2000
        else GiveUp Unclassified
  | inr data =>
      if usesGemini then imageOf (firstCandidate response) = Some data
      else ∃ others, generatedImages imagesResponse = Some (Some data :: others)
  end.
Proof.
  intros ai usesGemini. unfold generateImage. fold usesGemini.
  destruct usesGemini; simpl.
  - destruct (blockedError (firstCandidate response)) as [error|] eqn:Hblocked.
    + rewrite bool_decide_true by done. unfold blockedError in Hblocked.
      destruct (finishReasonOf (firstCandidate response)) as [reason|]; [|done].
      repeat (case_bool_decide; [injection Hblocked as <-; classify; by vm_compute|]).
      done.
    + rewrite bool_decide_false by (by intros []).
      destruct (imageOf (firstCandidate response)); [done|]. by retried.
  - destruct (generatedImages imagesResponse) as [[|[imageBytes|] others]|];
      try by retried.
    destruct (truthy imageBytes); [by eexists|]. by retried.
Qed.

End ServiceFacts.

Section EntityFacts.
Import Model Text Generation GeminiService.

(** X25. Whatever the model answers and however parsing goes, a character
    name [parsePromptForEntities] returns is a non-empty member of the given
    character list and a background name a non-empty member of the given
    background list; with either list empty it returns neither. *)
Theorem parsed_names_come_from_lists (trim : string → string)
    (parseNames : string → option (option string * option string))
    (ai : Client) (prompt : string) (characterNames backgroundNames : list string) :
  let names := parsePromptForEntities trim parseNames ai prompt characterNames
                 backgroundNames in
  (∀ name, names.1 = Some name → name ∈ characterNames ∧ truthy name = true
                                 ∧ backgroundNames ≠ [])
  ∧ (∀ name, names.2 = Some name → name ∈ backgroundNames ∧ truthy name = true
                                   ∧ characterNames ≠ []).
Proof.
  unfold parsePromptForEntities.
  destruct characterNames as [|c cs], backgroundNames as [|b bs]; try (by split).
  destruct (generateContent ai _) as [?|response]; [by split|].
  destruct (responseText response) as [answer|]; [|by split].
  destruct (negb (truthy (trim answer))); [by split|].
  destruct (parseNames (trim answer)) as [[characterName backgroundName]|]; [|by split].
  assert (∀ (names : list string) (found : option string) (name : string),
    (if truthyOpt found && listIncludes names (default "" found) then found else None)
    = Some name → name ∈ names ∧ truthy name = true) as Hvalid.
  { intros names [n|] name; simpl; [|done]. unfold listIncludes.
    destruct (truthy n) eqn:Ht; simpl; [|done]. case_bool_decide; [|done].
    by intros [= <-]. }
  split; intros name Hname; simpl in Hname; apply Hvalid in Hname as [? ?]; done.
Qed.

(** X26. One round of polling in [generateVideo] makes between one and three
    calls, with a pause of 5000 ms before each call but the first; every
    call but the last failed with an error that mentions 503 or UNAVAILABLE;
    the round ends with the outcome of the last call, and an error that ends
    it is either not of that kind or the third in a row. *)
Theorem poll_round_is_bounded {A} (poll : nat → JsError + A) :
  let '(outcome, calls, pauses) := pollRound poll in
  1 ≤ calls ≤ maxPollRetries
  ∧ outcome = Some (poll (calls - 1))
  ∧ pauses = replicate (calls - 1) 5000%Z
  ∧ (∀ i, i < calls - 1 → ∃ pollError, poll i = inl pollError
                                        ∧ isTransient pollError = true)
  ∧ (∀ pollError, poll (calls - 1) = inl pollError →
       isTransient pollError = false ∨ calls = maxPollRetries).
Proof.
  assert (∀ n (P : nat → Prop), (∀ i, i < n → P i) → P n → ∀ i, i < S n → P i)
    as Hnext.
  { intros n P Hlt Hn i Hi. destruct (decide (i = n)) as [->|]; [done|].
    apply Hlt. lia. }
  unfold pollRound, maxPollRetries. cbn [pollFrom].
  destruct (poll 0) as [e0|op0] eqn:H0.
  2: { cbn. rewrite H0. repeat split; try done; try lia. }
  destruct (isTransient e0) eqn:T0; cbn [andb].
  2: { cbn. rewrite H0. repeat split; try done; try lia.
       intros ? [= <-]. by left. }
  rewrite bool_decide_true by (unfold maxPollRetries; lia).
  destruct (poll 1) as [e1|op1] eqn:H1.
  2: { cbn. rewrite H1. repeat split; try done; try lia.
       apply Hnext; [lia|eauto]. }
  destruct (isTransient e1) eqn:T1; cbn [andb].
  2: { cbn. rewrite H1. repeat split; try done; try lia.
       - apply Hnext; [lia|eauto].
       - intros ? [= <-]. by left. }
  rewrite bool_decide_true by (unfold maxPollRetries; lia).
  assert (∀ i, i < 2 → ∃ pollError, poll i = inl pollError
                                     ∧ isTransient pollError = true) as Hfailed.
  { do 2 (apply Hnext; [|eauto]). lia. }
  destruct (poll 2) as [e2|op2] eqn:H2.
  - rewrite bool_decide_false by (unfold maxPollRetries; lia). rewrite andb_false_r. cbn. rewrite H2.
    repeat split; try done; try lia.
  - cbn. rewrite H2. repeat split; try done; lia.
Qed.

End EntityFacts.

Section OverlayFacts.
Import Geometry Layers Model Interaction Packing Viewport Merging Overlay.

Lemma mathMin_proper (u v : Q) (l : list Q) : (u == v)%Q → (mathMin u l == mathMin v l)%Q.
Proof.
  unfold mathMin. revert u v. induction l as [|y l IH]; simpl; intros u v E; [done|].
  apply IH. by rewrite E.
Qed.

Lemma mathMax_proper (u v : Q) (l : list Q) : (u == v)%Q → (mathMax u l == mathMax v l)%Q.
Proof.
  unfold mathMax. revert u v. induction l as [|y l IH]; simpl; intros u v E; [done|].
  apply IH. by rewrite E.
Qed.

Lemma mathMin_attained {A} (f : A → Q) (first : A) (others : list A) :
  ∃ a, a ∈ first :: others ∧ (mathMin (f first) (f <$> others) == f a)%Q.
Proof.
  revert first. induction others as [|x others IH]; intros first.
  - exists first. split; [set_solver | reflexivity].
  - change (mathMin (f first) (f <$> x :: others))
      with (mathMin (Qmin (f first) (f x)) (f <$> others)).
    destruct (Q.min_spec (f first) (f x)) as [[_ E]|[_ E]].
    + destruct (IH first) as (a & Hin & Ha). exists a. split; [set_solver|].
      by rewrite (mathMin_proper _ _ _ E).
    + destruct (IH x) as (a & Hin & Ha). exists a. split; [set_solver|].
      by rewrite (mathMin_proper _ _ _ E).
Qed.

Lemma mathMax_attained {A} (f : A → Q) (first : A) (others : list A) :
  ∃ a, a ∈ first :: others ∧ (mathMax (f first) (f <$> others) == f a)%Q.
Proof.
  revert first. induction others as [|x others IH]; intros first.
  - exists first. split; [set_solver | reflexivity].
  - change (mathMax (f first) (f <$> x :: others))
      with (mathMax (Qmax (f first) (f x)) (f <$> others)).
    destruct (Q.max_spec (f first) (f x)) as [[_ E]|[_ E]].
    + destruct (IH x) as (a & Hin & Ha). exists a. split; [set_solver|].
      by rewrite (mathMax_proper _ _ _ E).
    + destruct (IH first) as (a & Hin & Ha). exists a. split; [set_solver|].
      by rewrite (mathMax_proper _ _ _ E).
Qed.

(** X27. When the context menu over the selection is placed, it sits at the
    top centre of the bounding box of the selected objects: its y is the
    smallest y of a selected object, its x is midway between the leftmost
    left edge and the rightmost right edge.  It is not placed for a
    selection of one id whose single object is a video. *)
Theorem merge_button_over_selection (s : AppState) (x y : Q) :
  mergeButtonPosition s = Some (x, y) →
  (∃ left right top,
     left ∈ allSelectedObjects s ∧ right ∈ allSelectedObjects s
     ∧ top ∈ allSelectedObjects s
     ∧ (x == (item_x left + (item_x right + item_width right)) / 2)%Q
     ∧ (y == item_y top)%Q
     ∧ ∀ obj, obj ∈ allSelectedObjects s →
         (item_x left <= item_x obj)%Q
         ∧ (item_x obj + item_width obj <= item_x right + item_width right)%Q
         ∧ (item_y top <= item_y obj)%Q)
  ∧ (length (selectedImageIds (sel s)) + length (selectedTextIds (sel s))
     + length (selectedDrawingCanvasIds (sel s)) = 1 →
     ∀ img, selectedImagesOf (doc s) (sel s) = [img] → classification img ≠ video).
Proof.
  unfold mergeButtonPosition. intros H.
  case_bool_decide as Hsome; [|done].
  destruct (_ && _) eqn:Hvideo; [done|].
  destruct (allSelectedObjects s) as [|first others] eqn:Hall; [done|].
  injection H as <- <-. split.
  - destruct (mathMin_attained item_x first others) as (left & Hl & El).
    destruct (mathMin_attained item_y first others) as (top & Ht & Et).
    destruct (mathMax_attained (λ obj, item_x obj + item_width obj)%Q first others)
      as (right & Hr & Er).
    destruct (bounds_of first others) as [Hbounds _]. cbv zeta in Hbounds.
    exists left, right, top. split_and!; try done.
    + rewrite El, Er. field.
    + intros obj Hobj. destruct (Hbounds obj Hobj) as (H1 & H2 & H3 & _).
      rewrite <- El, <- Er, <- Et. split_and!; try done. lra.
  - intros Hone img Himg Hcls. rewrite Himg in Hvideo.
    apply andb_false_iff in Hvideo as [Hvideo|Hvideo];
      [apply andb_false_iff in Hvideo as [Hvideo|Hvideo]|].
    + by apply bool_decide_eq_false in Hvideo.
    + by apply bool_decide_eq_false in Hvideo.
    + simpl in Hvideo. by rewrite Hcls in Hvideo.
Qed.

Lemma toggle_absent (id : string) (prev : list string) :
  id ∉ prev → toggle true id (toggle false id prev) = prev.
Proof.
  intros Hid. unfold toggle. rewrite filter_app, filter_cons_False by (by intros ?).
  rewrite filter_nil, app_nil_r.
  induction prev as [|x prev IH]; [done|].
  apply not_elem_of_cons in Hid as [Hne Hid].
  rewrite filter_cons_True by done. by rewrite IH.
Qed.

Lemma toggle_present (id : string) (prev : list string) (x : string) :
  id ∈ prev → x ∈ toggle false id (toggle true id prev) ↔ x ∈ prev.
Proof.
  intros Hid. unfold toggle. rewrite elem_of_app, list_elem_of_filter, list_elem_of_singleton.
  split.
  - intros [[_ ?]| ->]; done.
  - intros Hx. destruct (decide (x = id)) as [->|Hne]; [by right | by left].
Qed.

(** X28. With the select, pen or eraser tool, for a node whose id is
    selected in no other kind: a shift-click toggles the node in the
    selection of its kind and changes the membership of no other id of any
    kind; a second shift-click on the same node gives back the selection of
    every kind, as a set. *)
Theorem shift_click_twice_restores (id : string) (k : NodeKind) (s : AppState) :
  activeTool (ui s) ∈ [select; pen; eraser] →
  (∀ k', k' ≠ k → id ∉ selectedOf k' (sel s)) →
  let once := handleNodeSelect true id k s in
  let twice := handleNodeSelect true id k once in
  (id ∈ selectedOf k (sel once) ↔ id ∉ selectedOf k (sel s))
  ∧ (∀ k' other, other ≠ id →
       other ∈ selectedOf k' (sel once) ↔ other ∈ selectedOf k' (sel s))
  ∧ (∀ k' x, x ∈ selectedOf k' (sel twice) ↔ x ∈ selectedOf k' (sel s)).
Proof.
  intros Htool Hkinds once twice.
  pose proof (Hkinds node_image) as Hi. pose proof (Hkinds node_text) as Ht.
  pose proof (Hkinds node_drawingCanvas) as Hc. simpl in Hi, Ht, Hc.
  assert (Htool1 : activeTool (ui once) = select).
  { subst once. unfold handleNodeSelect.
    destruct (activeTool (ui s)) eqn:E; destruct k; simpl; rewrite ?E; try done;
      exfalso; set_solver. }
  assert (Hsel : ∃ l1 l2 l3, sel s = {| selectedImageIds := l1; selectedTextIds := l2;
                                         selectedDrawingCanvasIds := l3 |})
    by (destruct (sel s); eauto).
  destruct Hsel as (l1 & l2 & l3 & Hsel). rewrite Hsel in Hi, Ht, Hc. simpl in Hi, Ht, Hc.
  assert (Honce : sel once
    = match k with
      | node_image =>
          {| selectedImageIds := toggle (bool_decide (id ∈ l1)) id l1;
             selectedTextIds := l2; selectedDrawingCanvasIds := l3 |}
      | node_text =>
          {| selectedImageIds := l1;
             selectedTextIds := toggle (bool_decide (id ∈ l2)) id l2;
             selectedDrawingCanvasIds := l3 |}
      | node_drawingCanvas =>
          {| selectedImageIds := l1; selectedTextIds := l2;
             selectedDrawingCanvasIds := toggle (bool_decide (id ∈ l3)) id l3 |}
      end).
  { subst once. unfold handleNodeSelect.
    destruct (activeTool (ui s)) eqn:E; try (exfalso; set_solver);
      destruct k; simpl; rewrite ?Hsel; simpl;
      repeat (rewrite (bool_decide_false (id ∈ l1)) by (by apply Hi));
      repeat (rewrite (bool_decide_false (id ∈ l2)) by (by apply Ht));
      repeat (rewrite (bool_decide_false (id ∈ l3)) by (by apply Hc));
      by rewrite ?orb_false_r. }
  assert (Hflip : ∀ l, id ∈ toggle (bool_decide (id ∈ l)) id l ↔ id ∉ l).
  { intros l. unfold toggle. destruct (decide (id ∈ l)) as [Hin|Hin].
    - rewrite bool_decide_true by done. rewrite list_elem_of_filter.
      split; [by intros [? _] | done].
    - rewrite bool_decide_false by done. rewrite elem_of_app, list_elem_of_singleton.
      split; [done | by right]. }
  assert (Hkeep : ∀ l other, other ≠ id →
            other ∈ toggle (bool_decide (id ∈ l)) id l ↔ other ∈ l).
  { intros l other Hne. unfold toggle. destruct (decide (id ∈ l)) as [Hin|Hin].
    - rewrite bool_decide_true by done. rewrite list_elem_of_filter.
      split; [by intros [_ ?] | done].
    - rewrite bool_decide_false by done. rewrite elem_of_app, list_elem_of_singleton.
      split; [by intros [?|?] | by left]. }
  assert (Hback : ∀ l x,
            x ∈ toggle (bool_decide (id ∈ toggle (bool_decide (id ∈ l)) id l)) id
                  (toggle (bool_decide (id ∈ l)) id l) ↔ x ∈ l).
  { intros l x. destruct (decide (id ∈ l)) as [Hin|Hin].
    - rewrite (bool_decide_true (id ∈ l)) by done.
      rewrite bool_decide_false; [by apply toggle_present|].
      unfold toggle. rewrite list_elem_of_filter. by intros [? _].
    - rewrite (bool_decide_false (id ∈ l)) by done.
      rewrite bool_decide_true by (unfold toggle; set_solver).
      by rewrite toggle_absent. }
  assert (Htwice : sel twice
    = match k with
      | node_image =>
          {| selectedImageIds :=
               toggle (bool_decide (id ∈ toggle (bool_decide (id ∈ l1)) id l1)) id
                 (toggle (bool_decide (id ∈ l1)) id l1);
             selectedTextIds := l2; selectedDrawingCanvasIds := l3 |}
      | node_text =>
          {| selectedImageIds := l1;
             selectedTextIds :=
               toggle (bool_decide (id ∈ toggle (bool_decide (id ∈ l2)) id l2)) id
                 (toggle (bool_decide (id ∈ l2)) id l2);
             selectedDrawingCanvasIds := l3 |}
      | node_drawingCanvas =>
          {| selectedImageIds := l1; selectedTextIds := l2;
             selectedDrawingCanvasIds :=
               toggle (bool_decide (id ∈ toggle (bool_decide (id ∈ l3)) id l3)) id
                 (toggle (bool_decide (id ∈ l3)) id l3) |}
      end).
  { subst twice. unfold handleNodeSelect at 1. rewrite Htool1, Honce.
    destruct k; simpl; rewrite ?Honce; simpl;
      repeat (rewrite (bool_decide_false (id ∈ l1)) by (by apply Hi));
      repeat (rewrite (bool_decide_false (id ∈ l2)) by (by apply Ht));
      repeat (rewrite (bool_decide_false (id ∈ l3)) by (by apply Hc));
      by rewrite ?orb_false_r. }
  rewrite Hsel. split; [|split].
  - rewrite Honce. destruct k; simpl; apply Hflip.
  - intros k' other Hne. rewrite Honce. destruct k, k'; simpl; try done; by apply Hkeep.
  - intros k' x. rewrite Htwice. destruct k, k'; simpl; try done; apply Hback.
Qed.

End OverlayFacts.

(** * The editing and service properties on concrete scenes *)

Section Gestures.
Import Geometry Layers Model Interaction Packing Text Generation Serialization Lifecycle.
Import Viewport Updates Nodes Raster Merging Shortcuts GeminiService.
Import Scenario Gallery.

Ltac decided :=
  match goal with |- ?P => apply (@bool_decide_unpack P _); vm_compute; exact I end.

Lemma screen_canvas_roundtrip_witness :
  (fst (canvasToScreen (screenToCanvas (100, 60) zoomedView) zoomedView) == 100)%Q
  ∧ (snd (screenToCanvas (canvasToScreen (100, 60) zoomedView) zoomedView) == 60)%Q.
Proof.
  destruct (screen_canvas_roundtrip (100, 60)%Q zoomedView) as (Hx & _ & _ & Hy).
  - discriminate.
  - split; [exact Hx | exact Hy].
Defined.

Lemma pan_keeps_grabbed_point_witness :
  let st := mouseMoves canvasRect [pressAt 310 220; pressAt 350 260]
              (handleMouseDown "1" canvasRect (pressAt 300 200) (panScene, initialLocal)) in
  (fst (screenToCanvas (relativeTo canvasRect (pressAt 350 260)) (transform (doc st.1)))
   == fst (screenToCanvas (relativeTo canvasRect (pressAt 300 200))
             (transform (doc panScene))))%Q
  ∧ t_scale (transform (doc st.1)) = t_scale (transform (doc panScene)).
Proof.
  destruct (pan_keeps_grabbed_point "1" canvasRect (pressAt 300 200) (pressAt 350 260)
              [pressAt 310 220] panScene initialLocal eq_refl eq_refl)
    as (Hx & _ & Hs).
  split; [exact Hx | exact Hs].
Defined.

Lemma marquee_selects_overlapping_witness :
  "a" ∈ selectedImageIds (sel (handleMouseUpOrLeave
          (mouseMoves canvasRect [pressAt 100 100]
             (handleMouseDown "1" canvasRect (pressAt 64 48)
                (selectScene, initialLocal)))).1).
Proof.
  destruct (marquee_selects_overlapping "1" canvasRect (pressAt 64 48) [pressAt 100 100]
              selectScene initialLocal eq_refl eq_refl) as (Himages & _).
  apply Himages. exists (imageAt "a" 50). split; [|split].
  - vm_compute. apply list_elem_of_here.
  - reflexivity.
  - repeat split; vm_compute; reflexivity.
Defined.

Lemma text_tool_click_adds_text_witness :
  let st := handleMouseDown "7" canvasRect (pressAt 164 148) (textScene, initialLocal) in
  layerOrder (doc st.1) = ["a"; "b"; "t"; "txt_7"]
  ∧ selectedTextIds (sel st.1) = []
  ∧ activeTool (ui st.1) = pan.
Proof.
  destruct (text_tool_click_adds_text "7" canvasRect (pressAt 164 148) textScene
              initialLocal eq_refl eq_refl) as (_ & Hlayers & Hsel & Htool & _).
  split; [exact Hlayers|]. split; [by rewrite Hsel | exact Htool].
Defined.

Lemma selected_node_on_top_witness :
  zIndex (layerOrder (doc (handleNodeSelect false "a" node_image panScene))) "b"
  < zIndex (layerOrder (doc (handleNodeSelect false "a" node_image panScene))) "a".
Proof.
  destruct (selected_node_on_top false "a" "b" node_image panScene) as [_ Hbelow].
  - decided.
  - discriminate.
  - apply Hbelow. decided.
Defined.

Lemma image_resize_anchored_witness :
  ∃ r, imageMouseMove "a" 2 (mkAction (Some resize) (Some TL) (10, 10)%Q (imageAt "a" 50))
         (pressAt 30 50)
       = [UpdateImage "a" [ImgX (f_x r); ImgY (f_y r); ImgWidth (f_width r);
                           ImgHeight (f_height r)]]
    ∧ (20 <= f_width r)%Q
    ∧ (f_x r + f_width r == 150)%Q.
Proof.
  destruct (image_resize_anchored "a" 2 TL (10, 10)%Q (imageAt "a" 50) (pressAt 30 50))
    as (r & Hcall & Hwidth & _ & Hleft & _); [reflexivity..|].
  exists r. split; [exact Hcall|]. split; [exact Hwidth | exact Hleft].
Defined.

Lemma drag_follows_cursor_witness :
  ∃ x y, imageMouseMove "a" 2 (mkAction (Some drag) None (10, 10)%Q (imageAt "a" 50))
           (pressAt 30 50)
         = [OnDragMove (pressAt 30 50); UpdateImage "a" [ImgX x; ImgY y]]
    ∧ (fst (canvasToScreen (x, y) zoomedView)
       - fst (canvasToScreen (50, 0)%Q zoomedView) == 30 - 10)%Q.
Proof.
  destruct (drag_follows_cursor "a" zoomedView (10, 10)%Q (pressAt 30 50) (imageAt "a" 50)
              (textAt "t" 10)
              {| cv_id := "canvas_1"; cv_x := 0; cv_y := 0; cv_width := 1024;
                 cv_height := 1820; drawingSrc := None |} None None)
    as ((x & y & Hcall & Hx & _) & _); [discriminate|].
  exists x, y. split; [exact Hcall | exact Hx].
Defined.

Lemma brush_size_within_range_witness :
  updateSlider 0 10 200 = 100%Q ∧ updateSlider 400 10 200 = 5%Q.
Proof.
  split.
  - destruct (brush_size_within_range 0 10 200) as (_ & Htop & _); [reflexivity|].
    apply Htop. discriminate.
  - destruct (brush_size_within_range 400 10 200) as (_ & _ & Hbottom); [reflexivity|].
    apply Hbottom. discriminate.
Defined.

Lemma closest_ratio_is_nearest_witness :
  ∃ value, (getRatioString maskedImage, value) ∈ commonRatios
    ∧ (Qabs (value - 900 / 1600) <= Qabs (1 - 900 / 1600))%Q.
Proof.
  destruct (closest_ratio_is_nearest maskedImage) as (_ & _ & Hnearest).
  destruct (Hnearest eq_refl) as (value & Hin & Hmin); [discriminate..|].
  exists value. split; [exact Hin|].
  apply (Hmin "1:1"). apply list_elem_of_here.
Defined.

Lemma updates_keep_identity_witness :
  liveIds (updateImage "a" [ImgX 5; ImgY 7] panScene) = liveIds panScene
  ∧ layerOrder (doc (updateImage "a" [ImgX 5; ImgY 7] panScene))
    = layerOrder (doc panScene).
Proof.
  pose proof (updates_keep_identity "a" [ImgX 5; ImgY 7] [TxtContent "Once"]
                [CvWidth 512] {| d_classification := Some character; d_name := None |}
                {| u_modelSheetSrc := None; u_poseIndex := None; u_poseSrc := None |}
                panScene) as Hall.
  apply Forall_inv in Hall as (Hlive & _ & _ & _ & Hlayers & _);
    [|repeat constructor..].
  split; [exact Hlive | exact Hlayers].
Defined.

Lemma pose_update_fills_slot_witness :
  ∃ img' after,
    images (doc (handleUpdateCharacterImage "a"
                   {| u_modelSheetSrc := None; u_poseIndex := Some 5;
                      u_poseSrc := Some "data:image/png;base64,POSE" |} panScene)) !! 0
    = Some img'
    ∧ poses img' = Some after
    ∧ after !! 5 = Some (Some "data:image/png;base64,POSE")
    ∧ length after = 6.
Proof.
  destruct (pose_update_fills_slot "a" 5 "data:image/png;base64,POSE" None panScene 0
              (imageAt "a" 50) eq_refl eq_refl) as (img' & Hk & _ & _ & Hposes).
  destruct (Hposes eq_refl) as (after & Hafter & Hslot & Hlength & _).
  exists img', after. split; [exact Hk|]. split; [exact Hafter|].
  split; [exact Hslot | exact Hlength].
Defined.

Lemma optimized_size_within_cap_witness :
  ∃ width height,
    optimizeImageForApi photoStudio "data:image/png;base64,AAAA" 1376 0.95
    = parseDataUrl
        (toDataURL photoStudio "image/jpeg" (Some 0.95%Q)
           (canvasSize width, canvasSize height) None "data:image/png;base64,AAAA"
           (0, 0, width, height)%Q)
    ∧ (width <= 1376)%Q ∧ (height <= 1376)%Q
    ∧ (width / height == 2752 / 1376)%Q.
Proof.
  destruct (optimized_size_within_cap photoStudio "data:image/png;base64,AAAA" 1376
              0.95 2752 1376 eq_refl eq_refl eq_refl eq_refl) as (_ & _ & Hresized).
  destruct (Hresized eq_refl) as (width & height & Hresult & Hwidth & Hheight & _ & Hratio);
    [left; reflexivity |].
  exists width, height. split; [exact Hresult |]. split; [exact Hwidth|].
  split; [exact Hheight | exact Hratio].
Defined.

Lemma padded_layout_fits_witness :
  (canvasWidth (paddedLayout ar_1_1 768 1376) <= 1376)%Q
  ∧ (elementWidth (paddedLayout ar_1_1 768 1376) <= 1376)%Z
  ∧ (finalImgHeight (paddedLayout ar_1_1 768 1376)
     <= canvasHeight (paddedLayout ar_1_1 768 1376))%Q.
Proof.
  pose proof (padded_layout_fits ar_1_1 768 1376 eq_refl eq_refl) as Hfits.
  cbv zeta in Hfits. unfold ratioParts in Hfits. cbv iota beta in Hfits.
  destruct Hfits as (_ & Hwidth & _ & Helement & _ & _ & _ & Hheight & _).
  split; [exact Hwidth|]. split; [exact Helement | exact Hheight].
Defined.

Lemma held_key_restores_tool_witness :
  activeTool (ui (handleKeyDown false spaceBar (selectScene, pan)).1) = pan
  ∧ activeTool (ui (handleKeyUp spaceBar
                      (handleKeyDown false spaceBar (selectScene, pan))).1) = select.
Proof.
  destruct (held_key_restores_tool spaceBar spaceBar selectScene pan eq_refl)
    as (Hspace & _); [decided | reflexivity |].
  exact (Hspace eq_refl).
Defined.

Lemma merge_capture_bounds_witness :
  ∃ minX minY container, captureContainer mergeScene = Some (minX, minY, container)
    ∧ (minX <= item_x (ItemImage (imageAt "b" 400)))%Q
    ∧ (item_x (ItemImage (imageAt "b" 400)) + item_width (ItemImage (imageAt "b" 400))
       <= minX + c_width container)%Q.
Proof.
  destruct (captureContainer mergeScene) as [[[minX minY] container]|] eqn:Hcapture;
    [|vm_compute in Hcapture; discriminate Hcapture].
  destruct (merge_capture_bounds mergeScene minX minY container Hcapture)
    as (_ & Hinside & _).
  destruct (Hinside (ItemImage (imageAt "b" 400))) as (Hleft & Hright & _).
  { vm_compute. apply list_elem_of_here. }
  exists minX, minY, container. split; [reflexivity|]. split; [exact Hleft | exact Hright].
Defined.

Lemma merge_replaces_selection_witness :
  wellFormed (mergeSelected browser "9" snapshot mergeScene)
  ∧ selectedImageIds (sel (mergeSelected browser "9" snapshot mergeScene)) = ["img_9"]
  ∧ last (layerOrder (doc (mergeSelected browser "9" snapshot mergeScene)))
    = Some "img_9".
Proof.
  destruct (captureContainer mergeScene) as [[[minX minY] container]|] eqn:Hcapture;
    [|vm_compute in Hcapture; discriminate Hcapture].
  destruct (merge_replaces_selection browser "9" snapshot mergeScene minX minY container
              "data:image/png;base64,MERGED" (768, 1376)%Q)
    as (Hwf & Hsel & _ & _ & _ & Hlast); try reflexivity.
  - split; [|split]; [repeat split; decided | decided | reflexivity].
  - exact Hcapture.
  - decided.
  - split; [exact Hwf|]. split; [by rewrite Hsel | exact Hlast].
Defined.

Lemma parseDataUrl_of_data_url_witness :
  parseDataUrl "data:image/jpeg;base64,QUJD" = ("image/jpeg", "QUJD")
  ∧ parseDataUrl "data:application/octet-stream;base64,QUJD" = ("image/png", "QUJD").
Proof.
  split.
  - apply (parseDataUrl_of_data_url "image/jpeg" "QUJD"); decided.
  - apply (parseDataUrl_of_data_url "application/octet-stream" "QUJD"); decided.
Defined.

Lemma load_keeps_what_file_omits_witness :
  layerOrder (doc (loadWith legacyArchive panScene)) = ["a"; "b"; "t"]
  ∧ images (doc (loadWith legacyArchive panScene)) = []
  ∧ projectName (doc (loadWith legacyArchive panScene)) = "holiday".
Proof.
  destruct (load_keeps_what_file_omits lettersEncode ProjectData Some (λ _, [])
              (λ _, blankProject) legacyArchive
              {[ "project.json" := TextEntry ProjectData legacyProject ]}
              (TextEntry ProjectData legacyProject) legacyProject "holiday" panScene)
    as (Hlayers & _ & _ & _ & Hname & _); [done..|].
  split; [exact Hlayers|]. split; [by vm_compute | exact Hname].
Defined.

Lemma edit_errors_end_the_run_witness :
  ∃ error, editImage refusingClient "add a hat" [] "gemini-2.5-flash-image" None "9:16"
           = inl error
    ∧ catchVerdict noJson error 1 = StopSafety.
Proof.
  pose proof (edit_errors_end_the_run noJson (λ _ _, eq_refl) blockedResponse
                (λ _ _ _, inr noImages) "add a hat" [] "gemini-2.5-flash-image" None
                "9:16" 1) as Hverdict.
  cbv zeta in Hverdict. change (mkClient _ _) with refusingClient in Hverdict.
  destruct (editImage refusingClient _ _ _ _ _) as [error|data] eqn:Hcall;
    [|vm_compute in Hcall; discriminate Hcall].
  exists error. split; [reflexivity | exact Hverdict].
Defined.

Lemma generate_errors_are_classified_witness :
  ∃ error, generateImage refusingClient "a lighthouse" "imagen-4.0-generate-001" "9:16"
           = inl error
    ∧ catchVerdict noJson error 1 = RetryAfter Unclassified 2000
    ∧ catchVerdict noJson error 3 = GiveUp Unclassified.
Proof.
  pose proof (generate_errors_are_classified noJson (λ _ _, eq_refl) blockedResponse
                noImages "a lighthouse" "imagen-4.0-generate-001" "9:16") as Hverdict.
  cbv zeta in Hverdict. change (mkClient _ _) with refusingClient in Hverdict.
  destruct (generateImage refusingClient _ _ _) as [error|data] eqn:Hcall;
    [|vm_compute in Hcall; discriminate Hcall].
  exists error. split; [reflexivity|].
  split; [exact (Hverdict 1) | exact (Hverdict 3)].
Defined.

End Gestures.

Section Overlays.
Import Geometry Layers Model Interaction Packing Text Generation Serialization Lifecycle.
Import Viewport Updates Nodes Raster Merging Shortcuts GeminiService Overlay.
Import Scenario Gallery.

Lemma merge_button_over_selection_witness :
  ∃ x y top, mergeButtonPosition mergeScene = Some (x, y)
    ∧ top ∈ allSelectedObjects mergeScene ∧ (y == item_y top)%Q.
Proof.
  destruct (mergeButtonPosition mergeScene) as [[x y]|] eqn:Hplaced;
    [|vm_compute in Hplaced; discriminate Hplaced].
  destruct (merge_button_over_selection mergeScene x y Hplaced)
    as ((_ & _ & top & _ & _ & Htop & _ & Hy & _) & _).
  exists x, y, top. split; [reflexivity|]. split; [exact Htop | exact Hy].
Defined.

Lemma shift_click_twice_restores_witness :
  "b" ∈ selectedImageIds (sel (handleNodeSelect true "b" node_image pickedScene))
  ∧ "a" ∈ selectedImageIds
            (sel (handleNodeSelect true "b" node_image
                    (handleNodeSelect true "b" node_image pickedScene))).
Proof.
  destruct (shift_click_twice_restores "b" node_image pickedScene)
    as (Hflip & _ & Hback).
  - apply list_elem_of_here.
  - intros [] Hkind; [done | apply not_elem_of_nil..].
  - split.
    + apply (proj2 Hflip). apply (@bool_decide_unpack _ _). vm_compute. exact I.
    + apply (proj2 (Hback node_image "a")). apply list_elem_of_here.
Defined.

End Overlays.
